(** * WordNet: indexed digraph, shortest common ancestor, outcast

    A shallow embedding of [wordnet.h] and [wordnet.cpp], and the
    properties of the digraph, of the two-colour search and of the outcast
    selection that hold of it.

    Conventions of the embedding:
    - [unsigned] values are numbers of [N]; every conversion to [unsigned]
      and every [unsigned] addition is reduced modulo [2^32] ([to_unsigned]).
    - [std::vector] is a list, indexed through [N.to_nat]; [operator[]] past
      the end is the error [Undefined], [unordered_map::at] on a missing key
      is the error [OutOfRange].
    - [std::unordered_map<unsigned, unsigned>] is a [gmap N N], a
      [std::set] is the list of its elements in iteration order.
    - The capacity of the two vectors of [Digraph] is part of its state:
      an [emplace_back] on a full vector moves its elements, and a
      reference taken before that is dangling afterwards. [reserve] and
      the growth of a full vector are those of libstdc++ and libc++:
      [reserve n] leaves a capacity of at least [n] as it is and raises a
      smaller one to [n]; a full vector doubles.
    - Writing through a dangling reference is the error [Undefined].

    The file has four parts: the program, the notions used to state its
    properties, the lemmas, and one theorem for each property. *)

From Stdlib Require Import NArith Lia String.
From stdpp Require Import gmap list strings fin_maps.

Local Open Scope N_scope.

(** ** Machine integers *)

Definition UINT_RANGE : N := 4294967296.
Definition UINT_MAX : N := 4294967295.

(** Conversion of a mathematical value to [unsigned]. *)
Definition to_unsigned (n : N) : N := n mod UINT_RANGE.

(** ** Results of fallible code *)

Inductive outcome (A : Type) : Type :=
| Ok (a : A)
| OutOfRange   (* std::out_of_range, thrown by unordered_map::at *)
| Undefined    (* operator[] past the end, a write through a dangling reference *)
| OutOfFuel.   (* the loop bound of the embedding was exhausted *)

Arguments Ok {A} a.
Arguments OutOfRange {A}.
Arguments Undefined {A}.
Arguments OutOfFuel {A}.

#[global] Instance outcome_ret : MRet outcome := @Ok.
#[global] Instance outcome_bind : MBind outcome := λ A B f m,
  match m with
  | Ok a => f a
  | OutOfRange => OutOfRange
  | Undefined => Undefined
  | OutOfFuel => OutOfFuel
  end.

(** [v[i]] for a vector [v] and an [unsigned] index [i]. *)
Definition at_index {A} (v : list A) (i : N) : outcome A :=
  match v !! N.to_nat i with
  | Some x => Ok x
  | None => Undefined
  end.

(** [for (x : xs) st = body(st, x)] with an error stopping the loop. *)
Fixpoint for_each {A S} (body : S → A → outcome S) (xs : list A) (st : S)
  : outcome S :=
  match xs with
  | [] => Ok st
  | x :: xs' => st' ← body st x; for_each body xs' st'
  end.

(** [for (unsigned & n : ns) n = f(n)] on a copy. *)
Fixpoint map_each {A B} (f : A → outcome B) (xs : list A) : outcome (list B) :=
  match xs with
  | [] => Ok []
  | x :: xs' => y ← f x; ys ← map_each f xs'; Ok (y :: ys)
  end.

(** ** Digraph *)

Module Digraph.

Record t : Type := mk {
  graph : list (list N);        (* vert -> vert, vert, ... *)
  id_vert_map : gmap N N;       (* id -> vert *)
  vert_id_map : list N;         (* vert -> id *)
  graph_capacity : nat;         (* graph.capacity() *)
  vert_id_capacity : nat        (* vert_id_map.capacity() *)
}.

(** [Digraph() = default] *)
Definition empty : t := mk [] ∅ [] 0 0.

(** Capacity after [reserve n]. *)
Definition reserve (capacity n : nat) : nat := Nat.max capacity n.

(** Capacity after one [emplace_back] on a vector holding [len] elements. *)
Definition grow (capacity len : nat) : nat :=
  if (len <? capacity)%nat then capacity else Nat.max 1 (2 * capacity).

(** [id_vert_map.reserve(size)] changes no entry of the hash map, and a
    hash map has no capacity that a later call depends on. *)
Definition reset_graph_size (g : t) (size : nat) : t :=
  mk (graph g) (id_vert_map g) (vert_id_map g)
     (reserve (graph_capacity g) size)
     (reserve (vert_id_capacity g) size).

(** [get_or_add_vert]: id -> vert, registering an unseen id under the next
    dense index. *)
Definition get_or_add_vert (g : t) (v : N) : N * t :=
  match id_vert_map g !! v with
  | Some vert => (vert, g)
  | None =>
      let vert := to_unsigned (N.of_nat (length (vert_id_map g))) in
      (vert,
       mk (graph g ++ [[]])
          (<[v := vert]> (id_vert_map g))
          (vert_id_map g ++ [v])
          (grow (graph_capacity g) (length (graph g)))
          (grow (vert_id_capacity g) (length (vert_id_map g))))
  end.

(** [get_or_add_vert(w)] moves the rows of [graph]: [w] is unseen and
    [graph] is full, so that [graph.emplace_back()] reallocates. *)
Definition regrows (g : t) (w : N) : bool :=
  match id_vert_map g !! w with
  | Some _ => false
  | None => negb (length (graph g) <? graph_capacity g)%nat
  end.

(** [graph[get_or_add_vert(v)].emplace_back(get_or_add_vert(w))]: the
    receiver [graph[from]] is a reference to a row of [graph], bound
    before the argument is evaluated. When the second [get_or_add_vert]
    moves the rows, [emplace_back] writes through a dangling reference;
    otherwise it appends to the row [from] of the table as it is then. *)
Definition add_edge (g : t) (v w : N) : outcome t :=
  let '(from, g1) := get_or_add_vert g v in
  neighbours ← at_index (graph g1) from;
  let '(to, g2) := get_or_add_vert g1 w in
  if regrows g1 w then Undefined
  else
    Ok (mk (<[N.to_nat from := neighbours ++ [to]]> (graph g2))
           (id_vert_map g2) (vert_id_map g2)
           (graph_capacity g2) (vert_id_capacity g2)).

Definition get_neighbours (g : t) (v : N) : outcome (list N) :=
  match id_vert_map g !! v with
  | Some vert =>
      neighbours ← at_index (graph g) vert;
      map_each (at_index (vert_id_map g)) neighbours
  | None => Ok []
  end.

Definition size (g : t) : nat := length (graph g).

End Digraph.

Abbreviation Digraph := Digraph.t.

(** ** ShortestCommonAncestor *)

Module ShortestCommonAncestor.

(** The locals of [ancestor_length]. *)
Record locals : Type := mk {
  distance : list N;
  color : list N;               (* 0 unvisited, 1 from subset_a, 2 from subset_b *)
  queue : list N;
  min_distance : N;
  min_distance_ancestor : N
}.

Definition initial (g : Digraph) : locals :=
  mk (replicate (Digraph.size g) 0) (replicate (Digraph.size g) 0) []
     UINT_MAX 0.

(** [id_vert_map.at(id)] *)
Definition vert_at (g : Digraph) (id : N) : outcome N :=
  match Digraph.id_vert_map g !! id with
  | Some vert => Ok vert
  | None => OutOfRange
  end.

(** [v[i] = x] *)
Definition assign {A} (v : list A) (i : N) (x : A) : outcome (list A) :=
  _ ← at_index v i; Ok (<[N.to_nat i := x]> v).

(** Body of the loop over [subset_a]. *)
Definition seed_a (g : Digraph) (st : locals) (id : N) : outcome locals :=
  vert ← vert_at g id;
  color' ← assign (color st) vert 1;
  Ok (mk (distance st) color' (queue st ++ [vert])
         (min_distance st) (min_distance_ancestor st)).

(** The loop over [subset_b]: either the early [return {id, 0}] or the
    locals after the loop. *)
Fixpoint seed_b (g : Digraph) (subset_b : list N) (st : locals)
  : outcome (N * N + locals) :=
  match subset_b with
  | [] => Ok (inr st)
  | id :: rest =>
      vert ← vert_at g id;
      c ← at_index (color st) vert;
      if c =? 1 then Ok (inl (id, 0))
      else
        color' ← assign (color st) vert 2;
        seed_b g rest
          (mk (distance st) color' (queue st ++ [vert])
              (min_distance st) (min_distance_ancestor st))
  end.

(** Body of [for (const unsigned to : graph.graph[vert])]. *)
Definition visit (vert : N) (st : locals) (to : N) : outcome locals :=
  color_to ← at_index (color st) to;
  if color_to =? 0 then
    color_vert ← at_index (color st) vert;
    color' ← assign (color st) to color_vert;
    distance_vert ← at_index (distance st) vert;
    distance' ← assign (distance st) to (to_unsigned (distance_vert + 1));
    Ok (mk distance' color' (queue st ++ [to])
           (min_distance st) (min_distance_ancestor st))
  else
    color_vert ← at_index (color st) vert;
    if negb (color_to =? color_vert) then
      distance_to ← at_index (distance st) to;
      distance_vert ← at_index (distance st) vert;
      let current_distance :=
        to_unsigned (to_unsigned (distance_to + distance_vert) + 1) in
      if current_distance <? min_distance st then
        Ok (mk (distance st) (color st) (queue st) current_distance to)
      else Ok st
    else Ok st.

(** [while (!queue.empty())], at most [fuel] iterations. *)
Fixpoint bfs (g : Digraph) (fuel : nat) (st : locals) : outcome locals :=
  match queue st with
  | [] => Ok st
  | vert :: rest =>
      match fuel with
      | O => OutOfFuel
      | S fuel' =>
          neighbours ← at_index (Digraph.graph g) vert;
          st' ← for_each (visit vert) neighbours
                 (mk (distance st) (color st) rest
                     (min_distance st) (min_distance_ancestor st));
          bfs g fuel' st'
      end
  end.

(** Every iteration pops one vertex, and a vertex is pushed at most once
    after the seeding: the queue length plus the number of vertices bounds
    the number of iterations. *)
Definition bfs_fuel (g : Digraph) (st : locals) : nat :=
  (length (queue st) + Digraph.size g)%nat.

Definition ancestor_length (g : Digraph) (subset_a subset_b : list N)
  : outcome (N * N) :=
  st1 ← for_each (seed_a g) subset_a (initial g);
  r ← seed_b g subset_b st1;
  match r with
  | inl early => Ok early
  | inr st2 =>
      st3 ← bfs g (bfs_fuel g st2) st2;
      ancestor ← at_index (Digraph.vert_id_map g) (min_distance_ancestor st3);
      Ok (ancestor, min_distance st3)
  end.

(** [length(v, w)] *)
Definition length (g : Digraph) (v w : N) : outcome N :=
  r ← ancestor_length g [v] [w]; Ok r.2.

(** [ancestor(v, w)] *)
Definition ancestor (g : Digraph) (v w : N) : outcome N :=
  r ← ancestor_length g [v] [w]; Ok r.1.

(** [length_subset(subset_a, subset_b)]; the lists hold the elements of the
    two [std::set]s in increasing order. *)
Definition length_subset (g : Digraph) (subset_a subset_b : list N)
  : outcome N :=
  r ← ancestor_length g subset_a subset_b; Ok r.2.

(** [ancestor_subset(subset_a, subset_b)] *)
Definition ancestor_subset (g : Digraph) (subset_a subset_b : list N)
  : outcome N :=
  r ← ancestor_length g subset_a subset_b; Ok r.1.

End ShortestCommonAncestor.

Module SCA := ShortestCommonAncestor.

(** ** WordNet *)

Module WordNet.

Record t : Type := mk {
  word_ids : gmap string (list N);   (* word -> ids of its synsets *)
  glosses : gmap N string;
  graph : Digraph
}.

Definition is_noun (wn : t) (word : string) : bool :=
  bool_decide (is_Some (word_ids wn !! word)).

(** [word_ids.at(noun)] *)
Definition ids_at (wn : t) (noun : string) : outcome (list N) :=
  match word_ids wn !! noun with
  | Some ids => Ok ids
  | None => OutOfRange
  end.

Definition find_sca_distance (wn : t) (noun1 noun2 : string)
  : outcome (N * N) :=
  ids1 ← ids_at wn noun1;
  ids2 ← ids_at wn noun2;
  SCA.ancestor_length (graph wn) ids1 ids2.

(** Gloss of the shortest common ancestor. *)
Definition sca (wn : t) (noun1 noun2 : string) : outcome string :=
  r ← find_sca_distance wn noun1 noun2;
  match glosses wn !! r.1 with
  | Some gloss => Ok gloss
  | None => OutOfRange
  end.

Definition distance (wn : t) (noun1 noun2 : string) : outcome N :=
  r ← find_sca_distance wn noun1 noun2; Ok r.2.

End WordNet.

Abbreviation WordNet := WordNet.t.

(** ** Outcast *)

Module Outcast.

(** The locals of [outcast]; positions are [std::size_t] values below the
    size of the set. *)
Record locals : Type := mk {
  distances : list N;
  answer_word_number : nat;
  answer_word_iterator : option string;   (* [None]: not yet assigned *)
  max_dist_was_repeated : bool
}.

(** [v[pos]] *)
Definition at_pos (v : list N) (pos : nat) : outcome N :=
  match v !! pos with
  | Some x => Ok x
  | None => Undefined
  end.

(** [v[pos] += d] *)
Definition add_at (v : list N) (pos : nat) (d : N) : outcome (list N) :=
  x ← at_pos v pos; Ok (<[pos := to_unsigned (x + d)]> v).

(** [for (auto j = std::next(i); j != nouns.end(); ++j, ++second_pos)] *)
Fixpoint inner (wn : WordNet) (i : string) (first_pos : nat)
    (js : list string) (second_pos : nat) (distances : list N)
  : outcome (list N) :=
  match js with
  | [] => Ok distances
  | j :: js' =>
      distance ← WordNet.distance wn i j;
      distances1 ← add_at distances first_pos distance;
      distances2 ← add_at distances1 second_pos distance;
      inner wn i first_pos js' (S second_pos) distances2
  end.

(** [for (auto i = nouns.begin(); i != nouns.end(); ++i, ++first_pos)] over
    the words from [i] on. *)
Fixpoint outer (wn : WordNet) (rest : list string) (first_pos : nat)
    (st : locals) : outcome locals :=
  match rest with
  | [] => Ok st
  | i :: js =>
      distances' ← inner wn i first_pos js (S first_pos) (distances st);
      here ← at_pos distances' first_pos;
      best ← at_pos distances' (answer_word_number st);
      let st' :=
        if (best <? here) || (first_pos =? 0)%nat then
          mk distances' first_pos (Some i) false
        else if here =? best then
          mk distances' (answer_word_number st) (answer_word_iterator st) true
        else
          mk distances' (answer_word_number st) (answer_word_iterator st)
             (max_dist_was_repeated st) in
      outer wn js (S first_pos) st'
  end.

(** [nouns] lists the words of the [std::set] in its iteration order. *)
Definition outcast (wn : WordNet) (nouns : list string) : outcome string :=
  if (length nouns <=? 2)%nat then Ok EmptyString
  else
    st ← outer wn nouns 0 (mk (replicate (length nouns) 0) 0 None false);
    if max_dist_was_repeated st then Ok EmptyString
    else
      match answer_word_iterator st with
      | Some word => Ok word
      | None => Undefined
      end.

End Outcast.

(** ** Building a graph from a list of edges *)

Fixpoint add_edges (g : Digraph) (edges : list (N * N)) : outcome Digraph :=
  match edges with
  | [] => Ok g
  | (v, w) :: rest => g' ← Digraph.add_edge g v w; add_edges g' rest
  end.

(** The ids of an edge list in the order [add_edge] meets them. *)
Fixpoint endpoints (edges : list (N * N)) : list N :=
  match edges with
  | [] => []
  | (v, w) :: rest => v :: w :: endpoints rest
  end.

(** The ids of [l] not in [seen], each at its first occurrence. *)
Fixpoint first_seen (seen l : list N) : list N :=
  match l with
  | [] => []
  | x :: l' =>
      if decide (x ∈ seen) then first_seen seen l'
      else x :: first_seen (seen ++ [x]) l'
  end.

(** The number of distinct ids of an edge list. *)
Definition vertices_of (edges : list (N * N)) : nat :=
  length (first_seen [] (endpoints edges)).

(** The graph of a client that reserves one row for each vertex, as the
    constructor of [WordNet] does, and then adds [edges] in order. *)
Definition graph_of (edges : list (N * N)) : Digraph :=
  match add_edges
          (Digraph.reset_graph_size Digraph.empty (vertices_of edges)) edges
  with
  | Ok g => g
  | _ => Digraph.empty
  end.

(** ** Well-formed graphs *)

(** The representation invariant of [Digraph]. *)
Record wf (g : Digraph) : Prop := {
  wf_len : length (Digraph.graph g) = length (Digraph.vert_id_map g);
  wf_card : size (Digraph.id_vert_map g) = length (Digraph.vert_id_map g);
  wf_fwd : ∀ x i, Digraph.id_vert_map g !! x = Some i →
                  Digraph.vert_id_map g !! N.to_nat i = Some x;
  wf_bwd : ∀ k x, Digraph.vert_id_map g !! k = Some x →
                  Digraph.id_vert_map g !! x = Some (N.of_nat k);
  wf_ids : ∀ x i, Digraph.id_vert_map g !! x = Some i → x < UINT_RANGE;
  wf_adj : ∀ k l j, Digraph.graph g !! k = Some l → j ∈ l →
                    (N.to_nat j < length (Digraph.graph g))%nat
}.

(** The states a client can produce through the public interface. *)
Inductive reachable : Digraph → Prop :=
| reachable_empty : reachable Digraph.empty
| reachable_add_edge g v w g' :
    reachable g → v < UINT_RANGE → w < UINT_RANGE →
    Digraph.add_edge g v w = Ok g' → reachable g'
| reachable_reserve g n :
    reachable g → reachable (Digraph.reset_graph_size g n).

Definition registered (g : Digraph) (id : N) : Prop :=
  is_Some (Digraph.id_vert_map g !! id).

(** The graph [add_edge g v w] produces, written out. *)
Definition added (g : Digraph) (v w : N) (neighbours : list N) : Digraph :=
  let g1 := (Digraph.get_or_add_vert g v).2 in
  let from := (Digraph.get_or_add_vert g v).1 in
  let g2 := (Digraph.get_or_add_vert g1 w).2 in
  let to := (Digraph.get_or_add_vert g1 w).1 in
  Digraph.mk (<[N.to_nat from := neighbours ++ [to]]> (Digraph.graph g2))
    (Digraph.id_vert_map g2) (Digraph.vert_id_map g2)
    (Digraph.graph_capacity g2) (Digraph.vert_id_capacity g2).


(** ** Example graphs *)

(** Two vertices below a common parent: edges (1→0), (2→0). *)
Definition fork : Digraph := graph_of [(1, 0); (2, 0)].

(** A chain: edges (1→0), (2→1). *)
Definition chain : Digraph := graph_of [(1, 0); (2, 1)].

(** Two trees with no shared vertex: edges (1→0), (3→2). *)
Definition forest : Digraph := graph_of [(1, 0); (3, 2)].

(** A rooted DAG with root 0: 1→0, 1→3→4→5→0 and 2→6→7→5. *)
Definition dag8 : Digraph :=
  graph_of [(1, 0); (1, 3); (3, 4); (4, 5); (2, 6); (6, 7); (7, 5); (5, 0)].

Definition edges_bounded (edges : list (N * N)) : Prop :=
  Forall (λ e, e.1 < UINT_RANGE ∧ e.2 < UINT_RANGE) edges.

(** ** Reachability *)

(** An edge between dense indices. *)
Definition dedge (g : Digraph) (i j : N) : Prop :=
  ∃ l, Digraph.graph g !! N.to_nat i = Some l ∧ j ∈ l.

(** An edge between external ids, as [get_neighbours] shows it. *)
Definition edge (g : Digraph) (u v : N) : Prop :=
  ∃ l, Digraph.get_neighbours g u = Ok l ∧ v ∈ l.

(** The dense index [j] is reachable from a member of the id list [S]. *)
Definition from (g : Digraph) (S : list N) (j : N) : Prop :=
  ∃ s i, s ∈ S ∧ Digraph.id_vert_map g !! s = Some i ∧ rtc (dedge g) i j.

(** The id [y] is reachable from a member of the id list [S]. *)
Definition reaches (g : Digraph) (S : list N) (y : N) : Prop :=
  ∃ s, s ∈ S ∧ rtc (edge g) s y.

(** [y] is reachable from both sets. *)
Definition common_ancestor (g : Digraph) (A B : list N) (y : N) : Prop :=
  reaches g A y ∧ reaches g B y.

(** [y] is reachable from [A] and from [B] by paths of [t] edges in total. *)
Definition common_total (g : Digraph) (A B : list N) (y : N) (t : nat) : Prop :=
  ∃ a b na nb, a ∈ A ∧ b ∈ B ∧ nsteps (edge g) na a y
               ∧ nsteps (edge g) nb b y ∧ t = (na + nb)%nat.

(** [d] is the length of a shortest common ancestor path of [A] and [B]. *)
Definition sca_distance (g : Digraph) (A B : list N) (d : nat) : Prop :=
  (∃ y, common_total g A B y d) ∧ ∀ y t, common_total g A B y t → (d ≤ t)%nat.

(** ** Invariants of the search *)

Definition coloured (st : SCA.locals) (j c : N) : Prop :=
  SCA.color st !! N.to_nat j = Some c.

Definition zeros (l : list N) : nat := length (filter (λ c, c = 0) l).

Definition measure (st : SCA.locals) : nat :=
  (length (SCA.queue st) + zeros (SCA.color st))%nat.

(** The state of the two seeding loops after the ids [SA] and [SB]. *)
Record seeded (g : Digraph) (SA SB : list N) (st : SCA.locals) : Prop := {
  seeded_color_len : length (SCA.color st) = Digraph.size g;
  seeded_distance_len : length (SCA.distance st) = Digraph.size g;
  seeded_queue : ∀ v, v ∈ SCA.queue st → ∃ c, coloured st v c ∧ c ≠ 0;
  seeded_color : ∀ j c, coloured st j c →
    c = 0
    ∨ (c = 1 ∧ ∃ a, a ∈ SA ∧ Digraph.id_vert_map g !! a = Some j)
    ∨ (c = 2 ∧ ∃ b, b ∈ SB ∧ Digraph.id_vert_map g !! b = Some j);
  seeded_a : ∀ a, a ∈ SA →
    ∃ j, Digraph.id_vert_map g !! a = Some j ∧ coloured st j 1;
  seeded_min : SCA.min_distance st = UINT_MAX
               ∧ SCA.min_distance_ancestor st = 0
}.

(** The state of the [while] loop. *)
Record inv (g : Digraph) (A B : list N) (st : SCA.locals) : Prop := {
  inv_color_len : length (SCA.color st) = Digraph.size g;
  inv_distance_len : length (SCA.distance st) = Digraph.size g;
  inv_queue : ∀ v, v ∈ SCA.queue st → ∃ c, coloured st v c ∧ c ≠ 0;
  inv_color : ∀ j c, coloured st j c →
    c = 0 ∨ (c = 1 ∧ from g A j) ∨ (c = 2 ∧ from g B j);
  inv_min :
    (SCA.min_distance st = UINT_MAX ∧ SCA.min_distance_ancestor st = 0)
    ∨ (SCA.min_distance st < UINT_MAX
       ∧ from g A (SCA.min_distance_ancestor st)
       ∧ from g B (SCA.min_distance_ancestor st))
}.

(** ** The interface seen by a client *)

(** Calls a client can make; [size], [get_neighbours] and the query are
    [const]. *)
Inductive call : Type :=
| Add_edge (v w : N)
| Reset_graph_size (size : nat)
| Get_neighbours (v : N)
| Size
| Ancestor_length (subset_a subset_b : list N).

Inductive response : Type :=
| Done
| Neighbours (ids : list N)
| Vertices (count : nat)
| Ancestor (result : N * N).

(** The graph after a call and what the call returned. *)
Definition perform (g : Digraph) (c : call) : outcome (Digraph * response) :=
  match c with
  | Add_edge v w => g' ← Digraph.add_edge g v w; Ok (g', Done)
  | Reset_graph_size size => Ok (Digraph.reset_graph_size g size, Done)
  | Get_neighbours v =>
      ids ← Digraph.get_neighbours g v; Ok (g, Neighbours ids)
  | Size => Ok (g, Vertices (Digraph.size g))
  | Ancestor_length subset_a subset_b =>
      r ← SCA.ancestor_length g subset_a subset_b; Ok (g, Ancestor r)
  end.

(** What a sequence of calls returns; it ends at the first call that does
    not return. *)
Fixpoint run (g : Digraph) (calls : list call) : outcome (list response) :=
  match calls with
  | [] => Ok []
  | c :: rest =>
      step ← perform g c;
      responses ← run step.1 rest;
      Ok (step.2 :: responses)
  end.

Definition read_side (c : call) : bool :=
  match c with
  | Add_edge _ _ => false
  | _ => true
  end.

(** Equal adjacency table, forward map and inverse map. *)
Definition same_tables (g1 g2 : Digraph) : Prop :=
  Digraph.graph g1 = Digraph.graph g2
  ∧ Digraph.id_vert_map g1 = Digraph.id_vert_map g2
  ∧ Digraph.vert_id_map g1 = Digraph.vert_id_map g2.

(** ** Totals of pairwise distances *)










(** ** Edge lists *)

(** The targets of the edges leaving [v], in insertion order. *)
Definition targets (edges : list (N * N)) (v : N) : list N :=
  (filter (λ e, e.1 = v) edges).*2.

(** ** Text *)

From Stdlib Require Ascii Decimal DecimalString DecimalN DecimalPos.

Local Open Scope string_scope.

Definition newline : string := String (Ascii.ascii_of_N 10) EmptyString.

(** [out << n] for an [unsigned] [n]: its decimal digits. *)
Definition to_decimal (n : N) : string :=
  DecimalString.NilZero.string_of_uint (N.to_uint n).

(** The value of a decimal digit. *)
Definition digit (c : Ascii.ascii) : option N :=
  let n := Ascii.N_of_ascii c in
  if (48 <=? n)%N && (n <=? 57)%N then Some (n - 48)%N else None.

(** The digits a string starts with. *)
Fixpoint leading_digits (s : string) : list N :=
  match s with
  | EmptyString => []
  | String c s' =>
      match digit c with
      | Some d => d :: leading_digits s'
      | None => []
      end
  end.

(** [std::from_chars(sv.begin(), sv.end(), result)] for an [unsigned]
    result: the value of the leading digits; [None] when there is no digit
    or the value does not fit, in which case [result] is left as it was. *)
Definition from_chars (sv : string) : option N :=
  match leading_digits sv with
  | [] => None
  | ds =>
      let value := fold_left (λ acc d, 10 * acc + d)%N ds 0%N in
      if (value <=? UINT_MAX)%N then Some value else None
  end.

(** [string_view_to_unsigned]: [result] is not initialised, so returning it
    after a failed conversion is [Undefined]. *)
Definition string_view_to_unsigned (sv : string) : outcome N :=
  match from_chars sv with
  | Some result => Ok result
  | None => Undefined
  end.

(** ** The dump of a digraph *)

(** [out << vert_id_map[n] << " "] *)
Definition print_neighbour (g : Digraph) (out : string) (n : N)
  : outcome string :=
  id ← at_index (Digraph.vert_id_map g) n;
  Ok (out ++ to_decimal id ++ " ").

(** One iteration of the loop over the vertices. *)
Definition print_row (g : Digraph) (out : string) (i : nat) : outcome string :=
  id ← at_index (Digraph.vert_id_map g) (N.of_nat i);
  neighbours ← at_index (Digraph.graph g) (N.of_nat i);
  out' ← for_each (print_neighbour g) neighbours (out ++ to_decimal id ++ ": ");
  Ok (out' ++ newline).

(** [Digraph::print]: the text written to the stream. *)
Definition print (g : Digraph) : outcome string :=
  for_each (print_row g) (seq 0 (length (Digraph.graph g)))
    ("vertex: its neighbours" ++ newline).

(** The text of several pieces in a row. *)
Definition flatten (pieces : list string) : string :=
  foldr String.append EmptyString pieces.

(** A row of the dump: the id, a colon, and the neighbours each followed by
    a space. *)
Definition render_row (id : N) (row : list N) : string :=
  to_decimal id ++ ": " ++ flatten ((λ n, to_decimal n ++ " ") <$> row)
  ++ newline.

(** The digits of a decimal numeral, most significant first. *)
Fixpoint digits_of (d : Decimal.uint) : list N :=
  match d with
  | Decimal.Nil => []
  | Decimal.D0 d => 0%N :: digits_of d
  | Decimal.D1 d => 1%N :: digits_of d
  | Decimal.D2 d => 2%N :: digits_of d
  | Decimal.D3 d => 3%N :: digits_of d
  | Decimal.D4 d => 4%N :: digits_of d
  | Decimal.D5 d => 5%N :: digits_of d
  | Decimal.D6 d => 6%N :: digits_of d
  | Decimal.D7 d => 7%N :: digits_of d
  | Decimal.D8 d => 8%N :: digits_of d
  | Decimal.D9 d => 9%N :: digits_of d
  end.

(** ** Reading the synsets and the hypernyms

    Positions in a line are natural numbers; [None] stands for
    [std::string::npos], which is above every position of a line. The two
    streams are given as the lines [std::getline] reads from them. *)

Definition comma : Ascii.ascii := Ascii.ascii_of_N 44.
Definition space : Ascii.ascii := Ascii.ascii_of_N 32.

(** [line.find(c, pos)] *)
Fixpoint find (c : Ascii.ascii) (line : string) (pos : nat) : option nat :=
  match line with
  | EmptyString => None
  | String x rest =>
      match pos with
      | O => if Ascii.eqb x c then Some 0%nat else S <$> find c rest 0
      | S pos' => S <$> find c rest pos'
      end
  end.

(** The text of the view [{&line[start], len}]. Reading a view that does
    not lie within the line is [Undefined]. *)
Definition view (line : string) (start len : nat) : outcome string :=
  if (start + len <=? String.length line)%nat
  then Ok (substring start len line)
  else Undefined.

(** [word_ids[word].emplace_back(id)] *)
Definition emplace_id (word_ids : gmap string (list N)) (word : string)
    (id : N) : gmap string (list N) :=
  <[word := (default [] (word_ids !! word) ++ [id])%list]> word_ids.

(** The loop over the words of a synset line but the last:
    [while ((end_pos = source_line.find(' ', start_pos)) < gloss_start)].
    It returns [word_ids] and [start_pos] as the loop leaves them. *)
Fixpoint synset_words (fuel : nat) (source_line : string) (id : N)
    (gloss_start start_pos : nat) (word_ids : gmap string (list N))
  : outcome (gmap string (list N) * nat) :=
  match find space source_line start_pos with
  | Some end_pos =>
      if (end_pos <? gloss_start)%nat then
        match fuel with
        | O => OutOfFuel
        | S fuel' =>
            word ← view source_line start_pos (end_pos - start_pos);
            synset_words fuel' source_line id gloss_start (end_pos + 1)
              (emplace_id word_ids word id)
        end
      else Ok (word_ids, start_pos)
  | None => Ok (word_ids, start_pos)
  end.

(** The body of the loop over [source_lines], on [word_ids] and [glosses].
    Without a comma [id_string] has the length [npos] and is read by
    [std::from_chars]; without a second comma [gloss_start] is
    [npos + 1 = 0] and the last word has the length
    [0 - 1 - start_pos] modulo [2^64]. *)
Definition synset_line (tables : gmap string (list N) * gmap N string)
    (source_line : string) : outcome (gmap string (list N) * gmap N string) :=
  match find comma source_line 0 with
  | None => Undefined
  | Some id_size =>
      id_string ← view source_line 0 id_size;
      id ← string_view_to_unsigned id_string;
      match find comma source_line (id_size + 1) with
      | None => Undefined
      | Some second =>
          let gloss_start := (second + 1)%nat in
          r ← synset_words (String.length source_line) source_line id
                gloss_start (id_size + 1) tables.1;
          word ← view source_line r.2 (gloss_start - 1 - r.2);
          gloss ← view source_line gloss_start
                    (String.length source_line - gloss_start);
          Ok (emplace_id r.1 word id, <[id := gloss]> tables.2)
      end
  end.

(** The loop over the targets of a hypernym line but the last:
    [while ((end_pos = line.find(',', start_pos)) < line.size())], and the
    [add_edge] for the last target after it. *)
Fixpoint hypernym_targets (fuel : nat) (line : string) (from : N)
    (start_pos : nat) (graph : Digraph) : outcome Digraph :=
  match find comma line start_pos with
  | Some end_pos =>
      match fuel with
      | O => OutOfFuel
      | S fuel' =>
          to_string ← view line start_pos (end_pos - start_pos);
          to ← string_view_to_unsigned to_string;
          graph' ← Digraph.add_edge graph from to;
          hypernym_targets fuel' line from (end_pos + 1) graph'
      end
  | None =>
      to_string ← view line start_pos (String.length line - start_pos);
      to ← string_view_to_unsigned to_string;
      Digraph.add_edge graph from to
  end.

(** The body of the loop over the lines of [hypernyms]. Without a comma
    [from_string.size()] is [npos], not below [line.size()], and the line
    is passed over. *)
Definition hypernym_line (graph : Digraph) (line : string) : outcome Digraph :=
  match find comma line 0 with
  | None => Ok graph
  | Some from_size =>
      from_string ← view line 0 from_size;
      from ← string_view_to_unsigned from_string;
      hypernym_targets (String.length line) line from (from_size + 1) graph
  end.

(** The lines the loops keep: [if (line.empty()) continue]. *)
Definition kept (lines : list string) : list string :=
  filter (λ line, line ≠ EmptyString) lines.

(** [WordNet::WordNet(synsets, hypernyms)] *)
Definition WordNet_WordNet (synsets hypernyms : list string) : outcome WordNet :=
  let source_lines := kept synsets in
  tables ← for_each synset_line source_lines (∅, ∅);
  graph ← for_each hypernym_line (kept hypernyms)
            (Digraph.reset_graph_size Digraph.empty (length source_lines));
  Ok (WordNet.mk tables.1 tables.2 graph).

(** *** Records and their text *)

(** The pieces with [sep] between them. *)
Fixpoint join (sep : string) (pieces : list string) : string :=
  match pieces with
  | [] => EmptyString
  | [piece] => piece
  | piece :: rest => piece ++ sep ++ join sep rest
  end.

(** A synset: its id, its words, its gloss. *)
Definition synset : Type := N * list string * string.

(** A hypernym record: an id and the ids of its hypernyms. *)
Definition hypernym : Type := N * list N.

Definition synset_text (s : synset) : string :=
  to_decimal s.1.1 ++ String comma (join (String space EmptyString) s.1.2)
  ++ String comma s.2.

Definition hypernym_text (h : hypernym) : string :=
  join (String comma EmptyString) (to_decimal <$> h.1 :: h.2).

(** A word of a synset holds no space and no comma. *)
Definition word_ok (word : string) : Prop :=
  find space word 0 = None ∧ find comma word 0 = None.

Definition synset_ok (s : synset) : Prop :=
  (s.1.1 ≤ UINT_MAX)%N ∧ s.1.2 ≠ [] ∧ Forall word_ok s.1.2.

Definition hypernym_ok (h : hypernym) : Prop :=
  (h.1 ≤ UINT_MAX)%N ∧ Forall (λ to, (to ≤ UINT_MAX)%N) h.2.

(** The edges of the hypernym records, in file order. *)
Definition hypernym_edges (hs : list hypernym) : list (N * N) :=
  hs ≫= λ h, (λ to, (h.1, to)) <$> h.2.

(** The ids of the synsets that list [word], one for each time it is
    listed, in file order. *)
Definition ids_of (ss : list synset) (word : string) : list N :=
  ss ≫= λ s, (λ _, s.1.1) <$> filter (λ w, w = word) s.1.2.

(** The gloss of the last synset with the id [id]. *)
Definition gloss_of (ss : list synset) (id : N) : option string :=
  snd <$> last (filter (λ s, s.1.1 = id) ss).

Local Close Scope string_scope.

(** ** Lengths of paths in the search *)

(** The dense index [j] is reached from a member of [S] by [n] edges. *)
Definition from_n (g : Digraph) (S : list N) (j : N) (n : nat) : Prop :=
  ∃ s i, s ∈ S ∧ Digraph.id_vert_map g !! s = Some i ∧ nsteps (dedge g) n i j.

(** The set a colour stands for. *)
Definition side (A B : list N) (c : N) : list N := if c =? 1 then A else B.

(** What [distance] and [min_distance] measure during the search. *)
Record measured (g : Digraph) (A B : list N) (st : SCA.locals) : Prop := {
  measured_distance : ∀ j c, coloured st j c → c ≠ 0 →
    ∃ n, SCA.distance st !! N.to_nat j = Some (N.of_nat n)
         ∧ (n + zeros (SCA.color st) < length (SCA.color st))%nat
         ∧ from_n g (side A B c) j n;
  measured_min :
    (SCA.min_distance st = UINT_MAX ∧ SCA.min_distance_ancestor st = 0)
    ∨ (∃ na nb, SCA.min_distance st = N.of_nat (na + nb)
                ∧ SCA.min_distance st < UINT_MAX
                ∧ from_n g A (SCA.min_distance_ancestor st) na
                ∧ from_n g B (SCA.min_distance_ancestor st) nb)
}.

(** The neighbour [v] of the vertex [u], coloured [cu], has been looked at:
    it is coloured, at most one level after [u], and if the colours differ
    a meeting is on record, no longer than the one through the edge from
    [u] to [v]. *)
Definition settled (st : SCA.locals) (u cu v : N) : Prop :=
  ∃ cv du dv, coloured st v cv ∧ cv ≠ 0
    ∧ SCA.distance st !! N.to_nat u = Some du
    ∧ SCA.distance st !! N.to_nat v = Some dv
    ∧ dv ≤ du + 1
    ∧ (cv ≠ cu → SCA.min_distance st < UINT_MAX
                 ∧ SCA.min_distance st ≤ du + dv + 1).

(** The search goes level by level: while the vertices of distance [lo]
    are expanded, no coloured vertex is further than [lo + 1], the
    expanded ones are no further than [lo], and the queue is in the order
    of the distances. *)
Record levelled (st : SCA.locals) (lo : N) : Prop := {
  levelled_all : ∀ j c d, coloured st j c → c ≠ 0 →
    SCA.distance st !! N.to_nat j = Some d → d ≤ lo + 1;
  levelled_done : ∀ j c d, coloured st j c → c ≠ 0 → j ∉ SCA.queue st →
    SCA.distance st !! N.to_nat j = Some d → d ≤ lo;
  levelled_queue : ∀ j d, j ∈ SCA.queue st →
    SCA.distance st !! N.to_nat j = Some d → lo ≤ d;
  levelled_sorted : ∀ i1 i2 j1 j2 d1 d2, (i1 ≤ i2)%nat →
    SCA.queue st !! i1 = Some j1 → SCA.queue st !! i2 = Some j2 →
    SCA.distance st !! N.to_nat j1 = Some d1 →
    SCA.distance st !! N.to_nat j2 = Some d2 → d1 ≤ d2
}.

(** Every coloured vertex waits in the queue or has all its neighbours
    settled. *)
Definition closed (g : Digraph) (st : SCA.locals) : Prop :=
  ∀ u cu, coloured st u cu → cu ≠ 0 →
          u ∈ SCA.queue st ∨ ∀ v, dedge g u v → settled st u cu v.

(** [st'] is a later state of the search than [st]: colours are kept, the
    minimum has not grown, the queue has lost nothing, and the distance of
    a coloured vertex is kept. *)
Definition extends (st st' : SCA.locals) : Prop :=
  (∀ j c, coloured st j c → c ≠ 0 → coloured st' j c)
  ∧ SCA.min_distance st' ≤ SCA.min_distance st
  ∧ (∀ v, v ∈ SCA.queue st → v ∈ SCA.queue st')
  ∧ (∀ j c d, coloured st j c → c ≠ 0 →
              SCA.distance st !! N.to_nat j = Some d →
              SCA.distance st' !! N.to_nat j = Some d).

(** [closed], but for the vertex being expanded. *)
Definition closed_but (g : Digraph) (st : SCA.locals) (vert : N) : Prop :=
  ∀ u cu, coloured st u cu → cu ≠ 0 →
          u ∈ SCA.queue st ∨ u = vert ∨ ∀ v, dedge g u v → settled st u cu v.

(** Every coloured vertex is in the queue. *)
Definition queued (st : SCA.locals) : Prop :=
  ∀ j c, coloured st j c → c ≠ 0 → j ∈ SCA.queue st.

(** The entry of a word after more ids were appended to it. *)
Definition extend (entry : option (list N)) (ids : list N) : option (list N) :=
  match ids with
  | [] => entry
  | _ => Some (default [] entry ++ ids)
  end.

(** The two tables after the synsets [ss] were read into [tables]. *)
Definition read_synsets (ss : list synset)
    (tables : gmap string (list N) * gmap N string)
  : gmap string (list N) * gmap N string :=
  fold_left
    (λ t s, (fold_left (λ m word, emplace_id m word s.1.1) s.1.2 t.1,
             <[s.1.1 := s.2]> t.2))
    ss tables.

(** The two vectors have the capacity [n]. *)
Definition reserved (g : Digraph) (n : nat) : Prop :=
  Digraph.graph_capacity g = n ∧ Digraph.vert_id_capacity g = n.

(** *** Example files *)

Definition text_of (synsets hypernyms : list string) : WordNet :=
  match WordNet_WordNet synsets hypernyms with
  | Ok wn => wn
  | _ => WordNet.mk ∅ ∅ Digraph.empty
  end.

(** Three synsets, the word "cat" in two of them. *)
Definition pets : WordNet :=
  text_of
    ["1,cat puss,a pet"; ""; "2,cat,a whip"; "3,animal,a living thing"]%string
    [""; "1,3"; "3"; "2,3,1"]%string.

(** The synset 4 occurs in no hypernym record with a hypernym. *)
Definition stones : WordNet :=
  text_of ["1,cat,a pet"; "4,stone,a rock"; "3,animal,a living thing"]%string
    ["1,3"; "4"]%string.

(** The rooted DAG [dag8] with one word for each synset. *)
Definition wordnet8 : WordNet :=
  text_of
    ["0,r,the root"; "1,a,a leaf"; "2,b,a leaf"; "3,c,above a";
     "4,d,above c"; "5,e,below the root"; "6,f,above b"; "7,g,above f"]%string
    ["1,0,3"; "3,4"; "4,5"; "2,6"; "6,7"; "7,5"; "5,0"]%string.

(** Two [unsigned] indices that differ address different cells. *)
Ltac distinct_index :=
  let H := fresh in intros H; apply N2Nat.inj in H; congruence.

(** *** Counting keys *)

Lemma NoDup_bounded_length (l : list N) (n : N) :
  NoDup l → (∀ x, x ∈ l → x < n) → (length l ≤ N.to_nat n)%nat.
Proof.
  intros Hnd Hlt.
  assert (Hsub : (N.to_nat <$> l) ⊆+ seq 0 (N.to_nat n)).
  { apply NoDup_submseteq.
    - apply NoDup_fmap_2; [intros x y; apply N2Nat.inj | exact Hnd].
    - intros k Hk. apply list_elem_of_fmap in Hk as (x & -> & Hx).
      apply elem_of_seq. specialize (Hlt x Hx). lia. }
  apply submseteq_length in Hsub.
  rewrite length_fmap, length_seq in Hsub. exact Hsub.
Qed.

Lemma fresh_key_size (m : gmap N N) (n v : N) :
  (∀ x i, m !! x = Some i → x < n) → m !! v = None → v < n →
  (size m < N.to_nat n)%nat.
Proof.
  intros Hlt Hv Hvn.
  pose proof (NoDup_bounded_length (v :: (map_to_list m).*1) n) as H.
  cbn [length] in H. rewrite length_fmap, length_map_to_list in H.
  apply H.
  - constructor; [| apply NoDup_fst_map_to_list].
    intros Hin. apply list_elem_of_fmap in Hin as ([x i] & -> & Hxi).
    apply elem_of_map_to_list in Hxi. cbn in Hv. congruence.
  - intros x Hx. apply elem_of_cons in Hx as [-> | Hx]; [exact Hvn |].
    apply list_elem_of_fmap in Hx as ([y i] & -> & Hyi).
    apply elem_of_map_to_list in Hyi. eapply Hlt; eauto.
Qed.

Lemma to_unsigned_small (n : N) : n < UINT_RANGE → to_unsigned n = n.
Proof. intros H. unfold to_unsigned. apply N.mod_small, H. Qed.

(** *** The invariant is kept by every operation *)

Lemma wf_empty : wf Digraph.empty.
Proof.
  split; cbn; try done.
Qed.

Lemma wf_reset_graph_size g n : wf g → wf (Digraph.reset_graph_size g n).
Proof. intros []. split; assumption. Qed.

(** A fresh id is registered under the index [length vert_id_map], which
    still fits an [unsigned]. *)
Lemma fresh_vert_index g v :
  wf g → Digraph.id_vert_map g !! v = None → v < UINT_RANGE →
  to_unsigned (N.of_nat (length (Digraph.vert_id_map g)))
  = N.of_nat (length (Digraph.vert_id_map g)).
Proof.
  intros Hwf Hv Hlt. apply to_unsigned_small.
  pose proof (fresh_key_size _ UINT_RANGE v (wf_ids g Hwf) Hv Hlt) as H.
  rewrite (wf_card g Hwf) in H. lia.
Qed.

Lemma wf_get_or_add_vert g v :
  wf g → v < UINT_RANGE → wf (Digraph.get_or_add_vert g v).2.
Proof.
  intros Hwf Hlt. unfold Digraph.get_or_add_vert.
  destruct (Digraph.id_vert_map g !! v) as [i|] eqn:Hv; [exact Hwf |].
  rewrite (fresh_vert_index g v Hwf Hv Hlt).
  destruct Hwf as [Hlen Hcard Hfwd Hbwd Hids Hadj].
  split; cbn.
  - rewrite !length_app. cbn. lia.
  - rewrite map_size_insert_None by exact Hv. rewrite length_app. cbn. lia.
  - intros x i Hx. apply lookup_insert_Some in Hx as [[<- <-] | [Hne Hx]].
    + rewrite Nat2N.id. apply list_lookup_middle. reflexivity.
    + apply lookup_app_l_Some. eauto.
  - intros k x Hk. apply lookup_snoc_Some in Hk as [[Hk Hx] | [-> ->]].
    + assert (x ≠ v) as Hne.
      { intros ->. apply Hbwd in Hx. congruence. }
      rewrite lookup_insert_ne by congruence. eauto.
    + apply lookup_insert_eq.
  - intros x i Hx. apply lookup_insert_Some in Hx as [[<- <-] | [Hne Hx]]; eauto.
  - intros k l j Hk Hj. rewrite length_app. cbn.
    apply lookup_snoc_Some in Hk as [[Hk Hl] | [-> <-]].
    + specialize (Hadj k l j Hl Hj). lia.
    + inversion Hj.
Qed.

(** The index returned by [get_or_add_vert] is the index of the id
    afterwards. *)
Lemma get_or_add_vert_lookup g v :
  wf g → v < UINT_RANGE →
  Digraph.id_vert_map (Digraph.get_or_add_vert g v).2 !! v
  = Some (Digraph.get_or_add_vert g v).1.
Proof.
  intros Hwf Hlt. unfold Digraph.get_or_add_vert.
  destruct (Digraph.id_vert_map g !! v) as [i|] eqn:Hv; cbn; [exact Hv |].
  apply lookup_insert_eq.
Qed.

(** Registered ids keep their index. *)
Lemma get_or_add_vert_mono g v x i :
  Digraph.id_vert_map g !! x = Some i →
  Digraph.id_vert_map (Digraph.get_or_add_vert g v).2 !! x = Some i.
Proof.
  intros Hx. unfold Digraph.get_or_add_vert.
  destruct (Digraph.id_vert_map g !! v) as [j|] eqn:Hv; cbn; [exact Hx |].
  rewrite lookup_insert_ne by congruence. exact Hx.
Qed.

Lemma wf_index_lt g x i :
  wf g → Digraph.id_vert_map g !! x = Some i →
  (N.to_nat i < length (Digraph.graph g))%nat.
Proof.
  intros Hwf Hx. rewrite (wf_len g Hwf).
  eapply lookup_lt_Some, wf_fwd; eauto.
Qed.

(** *** [add_edge] *)

(** [get_or_add_vert] only appends: at most one empty adjacency list and
    the new id. *)
Lemma get_or_add_vert_graph g v :
  Digraph.graph (Digraph.get_or_add_vert g v).2 = Digraph.graph g
  ∨ Digraph.graph (Digraph.get_or_add_vert g v).2 = Digraph.graph g ++ [[]].
Proof.
  unfold Digraph.get_or_add_vert.
  destruct (Digraph.id_vert_map g !! v); cbn; auto.
Qed.

Lemma get_or_add_vert_graph_lookup g v k l :
  Digraph.graph g !! k = Some l →
  Digraph.graph (Digraph.get_or_add_vert g v).2 !! k = Some l.
Proof.
  intros Hk. destruct (get_or_add_vert_graph g v) as [-> | ->]; [exact Hk |].
  apply lookup_app_l_Some, Hk.
Qed.

Lemma get_or_add_vert_ids_lookup g v k x :
  Digraph.vert_id_map g !! k = Some x →
  Digraph.vert_id_map (Digraph.get_or_add_vert g v).2 !! k = Some x.
Proof.
  intros Hk. unfold Digraph.get_or_add_vert.
  destruct (Digraph.id_vert_map g !! v); cbn; [exact Hk |].
  apply lookup_app_l_Some, Hk.
Qed.

(** The adjacency list found under the index of [v] after registering it:
    the old one, or the empty list of a new vertex. *)
Lemma get_or_add_vert_adjacency g v :
  wf g → v < UINT_RANGE →
  Digraph.graph (Digraph.get_or_add_vert g v).2
    !! N.to_nat (Digraph.get_or_add_vert g v).1
  = match Digraph.id_vert_map g !! v with
    | Some i => Digraph.graph g !! N.to_nat i
    | None => Some []
    end.
Proof.
  intros Hwf Hlt. unfold Digraph.get_or_add_vert.
  destruct (Digraph.id_vert_map g !! v) as [i|] eqn:Hv; cbn; [reflexivity |].
  rewrite (fresh_vert_index g v Hwf Hv Hlt), Nat2N.id, <- (wf_len g Hwf).
  apply list_lookup_middle. reflexivity.
Qed.

Lemma at_index_Ok {A} (v : list A) (i : N) (x : A) :
  at_index v i = Ok x ↔ v !! N.to_nat i = Some x.
Proof.
  unfold at_index. destruct (v !! N.to_nat i); split; congruence.
Qed.

Lemma at_index_lt {A} (v : list A) (i : N) :
  (N.to_nat i < length v)%nat → ∃ x, at_index v i = Ok x.
Proof.
  intros H. apply lookup_lt_is_Some_2 in H as [x Hx].
  exists x. apply at_index_Ok, Hx.
Qed.

Lemma at_index_insert_eq {A} (v : list A) (i : N) (x : A) :
  (N.to_nat i < length v)%nat → at_index (<[N.to_nat i := x]> v) i = Ok x.
Proof.
  intros H. apply at_index_Ok. apply list_lookup_insert_eq, H.
Qed.

Lemma at_index_insert_ne {A} (v : list A) (i j : N) (x : A) :
  i ≠ j → at_index (<[N.to_nat i := x]> v) j = at_index v j.
Proof.
  intros H. unfold at_index. rewrite list_lookup_insert_ne; [reflexivity |].
  distinct_index.
Qed.

Lemma add_edge_unfold g v w :
  Digraph.add_edge g v w =
  (neighbours ←
     at_index (Digraph.graph (Digraph.get_or_add_vert g v).2)
              (Digraph.get_or_add_vert g v).1;
   if Digraph.regrows (Digraph.get_or_add_vert g v).2 w then Undefined
   else Ok (added g v w neighbours)).
Proof.
  unfold Digraph.add_edge, added.
  destruct (Digraph.get_or_add_vert g v) as [from g1]. cbn.
  destruct (at_index (Digraph.graph g1) from) as [nb | | |]; try reflexivity.
  cbn. destruct (Digraph.get_or_add_vert g1 w) as [to g2]. reflexivity.
Qed.

(** On a well-formed graph [add_edge] fails in one way only: the rows
    move while the reference to the row of [v] is held. *)
Lemma add_edge_cases g v w :
  wf g → v < UINT_RANGE → w < UINT_RANGE →
  ∃ neighbours,
    Digraph.graph (Digraph.get_or_add_vert (Digraph.get_or_add_vert g v).2 w).2
      !! N.to_nat (Digraph.get_or_add_vert g v).1 = Some neighbours
    ∧ Digraph.add_edge g v w =
        if Digraph.regrows (Digraph.get_or_add_vert g v).2 w then Undefined
        else Ok (added g v w neighbours).
Proof.
  intros Hwf Hv Hw.
  pose proof (wf_get_or_add_vert g v Hwf Hv) as Hwf1.
  pose proof (get_or_add_vert_lookup g v Hwf Hv) as Hfrom.
  pose proof (wf_index_lt _ _ _ Hwf1 Hfrom) as Hlt.
  apply lookup_lt_is_Some_2 in Hlt as [nb Hnb].
  exists nb. split.
  - apply get_or_add_vert_graph_lookup, Hnb.
  - rewrite add_edge_unfold.
    apply at_index_Ok in Hnb. rewrite Hnb. reflexivity.
Qed.

(** What a returning [add_edge] returned. *)
Lemma add_edge_Ok g v w g' :
  wf g → v < UINT_RANGE → w < UINT_RANGE →
  Digraph.add_edge g v w = Ok g' →
  ∃ neighbours,
    Digraph.graph (Digraph.get_or_add_vert (Digraph.get_or_add_vert g v).2 w).2
      !! N.to_nat (Digraph.get_or_add_vert g v).1 = Some neighbours
    ∧ Digraph.add_edge g v w = Ok (added g v w neighbours).
Proof.
  intros Hwf Hv Hw Hadd.
  destruct (add_edge_cases g v w Hwf Hv Hw) as (nb & Hnb & Heq).
  exists nb. split; [exact Hnb |]. rewrite Heq. rewrite Heq in Hadd.
  destruct (Digraph.regrows _ w); [discriminate | reflexivity].
Qed.

(** [add_edge] returns when the rows stay where they are. *)
Lemma add_edge_stays g v w :
  wf g → v < UINT_RANGE → w < UINT_RANGE →
  Digraph.regrows (Digraph.get_or_add_vert g v).2 w = false →
  ∃ g', Digraph.add_edge g v w = Ok g'.
Proof.
  intros Hwf Hv Hw Hstay.
  destruct (add_edge_cases g v w Hwf Hv Hw) as (nb & _ & Heq).
  rewrite Hstay in Heq. eauto.
Qed.

Lemma wf_add_edge g v w g' :
  wf g → v < UINT_RANGE → w < UINT_RANGE →
  Digraph.add_edge g v w = Ok g' → wf g'.
Proof.
  intros Hwf Hv Hw Hadd.
  destruct (add_edge_Ok g v w g' Hwf Hv Hw Hadd) as (nb & Hnb & Heq).
  rewrite Heq in Hadd. injection Hadd as <-.
  pose proof (wf_get_or_add_vert g v Hwf Hv) as Hwf1.
  pose proof (wf_get_or_add_vert _ w Hwf1 Hw) as Hwf2.
  pose proof (get_or_add_vert_lookup _ w Hwf1 Hw) as Hto.
  set (g2 := (Digraph.get_or_add_vert (Digraph.get_or_add_vert g v).2 w).2) in *.
  destruct Hwf2 as [Hlen Hcard Hfwd Hbwd Hids Hadj].
  unfold added. fold g2. split; cbn; try assumption.
  - rewrite length_insert. exact Hlen.
  - intros k l j Hk Hj. rewrite length_insert.
    destruct (decide (k = N.to_nat (Digraph.get_or_add_vert g v).1)) as [-> | Hne].
    + rewrite list_lookup_insert_eq in Hk by (eapply lookup_lt_Some; eauto).
      injection Hk as <-. apply elem_of_app in Hj as [Hj | Hj].
      * eapply Hadj; eauto.
      * apply list_elem_of_singleton in Hj as ->.
        rewrite Hlen. eapply lookup_lt_Some, Hfwd, Hto.
    + rewrite list_lookup_insert_ne in Hk by congruence. eapply Hadj; eauto.
Qed.

Lemma reachable_wf g : reachable g → wf g.
Proof.
  induction 1 as [| g v w g' _ IH Hv Hw Hadd | g n _ IH].
  - apply wf_empty.
  - exact (wf_add_edge g v w g' IH Hv Hw Hadd).
  - apply wf_reset_graph_size, IH.
Qed.

(** *** [get_neighbours] *)

Lemma map_each_total {A B} (f : A → outcome B) (l : list A) :
  (∀ x, x ∈ l → ∃ y, f x = Ok y) → ∃ ys, map_each f l = Ok ys.
Proof.
  induction l as [| x l IH]; intros H; cbn.
  - eauto.
  - destruct (H x) as [y Hy]; [left |]. rewrite Hy. cbn.
    destruct IH as [ys Hys]; [intros; apply H; right; done |].
    rewrite Hys. cbn. eauto.
Qed.

Lemma map_each_ext {A B} (f f' : A → outcome B) (l : list A) :
  (∀ x, x ∈ l → f x = f' x) → map_each f l = map_each f' l.
Proof.
  induction l as [| x l IH]; intros H; cbn; [reflexivity |].
  rewrite (H x) by left. rewrite IH; [reflexivity |].
  intros; apply H; right; done.
Qed.

Lemma map_each_snoc {A B} (f : A → outcome B) (l : list A) x ys y :
  map_each f l = Ok ys → f x = Ok y → map_each f (l ++ [x]) = Ok (ys ++ [y]).
Proof.
  revert ys. induction l as [| a l IH]; intros ys Hl Hx; cbn in *.
  - injection Hl as <-. rewrite Hx. reflexivity.
  - destruct (f a) as [b | | |]; cbn in *; try discriminate.
    destruct (map_each f l) as [bs | | |]; cbn in *; try discriminate.
    injection Hl as <-. rewrite (IH bs eq_refl Hx). reflexivity.
Qed.

(** Members of the result are the ids of the members of the argument. *)
Lemma map_each_at_index_elem (ids : list N) (l ys : list N) y :
  map_each (at_index ids) l = Ok ys → y ∈ ys →
  ∃ n, n ∈ l ∧ ids !! N.to_nat n = Some y.
Proof.
  revert ys. induction l as [| a l IH]; intros ys Hl Hy; cbn in *.
  - injection Hl as <-. inversion Hy.
  - destruct (at_index ids a) as [b | | |] eqn:Ha; cbn in *; try discriminate.
    destruct (map_each (at_index ids) l) as [bs | | |]; cbn in *;
      try discriminate.
    injection Hl as <-. apply elem_of_cons in Hy as [-> | Hy].
    + exists a. split; [left | apply at_index_Ok, Ha].
    + destruct (IH bs eq_refl Hy) as (n & Hn & Hny).
      exists n. split; [right |]; done.
Qed.

Lemma map_each_at_index_elem_2 (ids : list N) (l ys : list N) n y :
  map_each (at_index ids) l = Ok ys → n ∈ l → ids !! N.to_nat n = Some y →
  y ∈ ys.
Proof.
  revert ys. induction l as [| a l IH]; intros ys Hl Hn Hy; cbn in *.
  - inversion Hn.
  - destruct (at_index ids a) as [b | | |] eqn:Ha; cbn in *; try discriminate.
    destruct (map_each (at_index ids) l) as [bs | | |]; cbn in *;
      try discriminate.
    injection Hl as <-. apply elem_of_cons in Hn as [-> | Hn].
    + apply at_index_Ok in Ha. rewrite Ha in Hy. injection Hy as ->. left.
    + right. eapply IH; eauto.
Qed.

(** On a well-formed graph every adjacency list translates back to ids. *)
Lemma neighbour_ids_total g k l :
  wf g → Digraph.graph g !! k = Some l →
  ∃ ys, map_each (at_index (Digraph.vert_id_map g)) l = Ok ys.
Proof.
  intros Hwf Hk. apply map_each_total. intros n Hn.
  apply at_index_lt. rewrite <- (wf_len g Hwf). eapply wf_adj; eauto.
Qed.

Lemma get_neighbours_total g v :
  wf g → ∃ l, Digraph.get_neighbours g v = Ok l.
Proof.
  intros Hwf. unfold Digraph.get_neighbours.
  destruct (Digraph.id_vert_map g !! v) as [i|] eqn:Hv; [| eauto].
  pose proof (wf_index_lt g v i Hwf Hv) as Hlt.
  apply lookup_lt_is_Some_2 in Hlt as [nb Hnb].
  pose proof Hnb as Hat. apply at_index_Ok in Hat. rewrite Hat. cbn.
  eapply neighbour_ids_total; eauto.
Qed.

(** [get_neighbours] after a returning [add_edge]. *)
Lemma get_neighbours_add_edge g v w g' :
  wf g → v < UINT_RANGE → w < UINT_RANGE →
  Digraph.add_edge g v w = Ok g' →
  ∃ old,
    Digraph.get_neighbours g v = Ok old
    ∧ Digraph.get_neighbours g' v = Ok (old ++ [w])
    ∧ registered g' v ∧ registered g' w.
Proof.
  intros Hwf Hv Hw Hadd.
  destruct (add_edge_Ok g v w g' Hwf Hv Hw Hadd) as (nb & Hnb & Heq).
  rewrite Heq in Hadd. injection Hadd as <-. clear Heq.
  destruct (get_neighbours_total g v Hwf) as [old Hold].
  exists old. split; [exact Hold |].
  pose proof (wf_get_or_add_vert g v Hwf Hv) as Hwf1.
  pose proof (get_or_add_vert_lookup g v Hwf Hv) as Hfrom.
  pose proof (get_or_add_vert_adjacency g v Hwf Hv) as Hadj1.
  set (g1 := (Digraph.get_or_add_vert g v).2) in *.
  set (from := (Digraph.get_or_add_vert g v).1) in *.
  pose proof (wf_get_or_add_vert g1 w Hwf1 Hw) as Hwf2.
  pose proof (get_or_add_vert_lookup g1 w Hwf1 Hw) as Hto.
  pose proof (get_or_add_vert_mono g1 w v from Hfrom) as Hfrom2.
  assert (Hids : ∀ k x, Digraph.vert_id_map g !! k = Some x →
            Digraph.vert_id_map (Digraph.get_or_add_vert g1 w).2 !! k = Some x).
  { intros k x Hk. apply get_or_add_vert_ids_lookup.
    apply get_or_add_vert_ids_lookup, Hk. }
  assert (Hnew : map_each
            (at_index (Digraph.vert_id_map (Digraph.get_or_add_vert g1 w).2)) nb
            = Ok old).
  { unfold Digraph.get_neighbours in Hold.
    destruct (Digraph.id_vert_map g !! v) as [i|] eqn:Hgv.
    - destruct (at_index (Digraph.graph g) i) as [nb0 | | |] eqn:Hnb0;
        cbn in Hold; try discriminate.
      apply at_index_Ok in Hnb0.
      assert (nb = nb0) as ->.
      { rewrite <- Hadj1 in Hnb0.
        apply (get_or_add_vert_graph_lookup g1 w) in Hnb0. congruence. }
      rewrite <- Hold. apply map_each_ext. intros n Hn.
      pose proof (wf_adj g Hwf _ _ _ Hnb0 Hn) as Hlt.
      rewrite (wf_len g Hwf) in Hlt.
      apply at_index_lt in Hlt as [y Hy]. rewrite Hy.
      apply at_index_Ok in Hy. apply at_index_Ok. auto.
    - injection Hold as <-.
      apply (get_or_add_vert_graph_lookup g1 w) in Hadj1.
      assert (nb = []) as -> by congruence. reflexivity. }
  split; [| split].
  - unfold Digraph.get_neighbours, added. cbn. fold g1 from.
    rewrite Hfrom2.
    rewrite at_index_insert_eq by (eapply lookup_lt_Some; eauto). cbn.
    apply map_each_snoc; [exact Hnew |].
    apply at_index_Ok. eapply wf_fwd; eauto.
  - unfold registered, added. cbn. fold g1. eauto.
  - unfold registered, added. cbn. fold g1. eauto.
Qed.

(** *** Graphs built from edge lists *)

Lemma add_edges_reachable g edges g' :
  reachable g → edges_bounded edges →
  add_edges g edges = Ok g' → reachable g'.
Proof.
  intros Hg Hb. revert g Hg.
  induction Hb as [| [v w] edges [Hv Hw] _ IH]; intros g Hg; cbn.
  - intros [= <-]. exact Hg.
  - destruct (Digraph.add_edge g v w) as [g1 | | |] eqn:Hadd; cbn;
      try discriminate.
    apply IH. exact (reachable_add_edge g v w _ Hg Hv Hw Hadd).
Qed.

Lemma reachable_graph_of edges : edges_bounded edges → reachable (graph_of edges).
Proof.
  intros Hb. unfold graph_of.
  destruct (add_edges _ edges) as [g | | |] eqn:Hg;
    try apply reachable_empty.
  eapply add_edges_reachable; [| exact Hb | exact Hg].
  apply reachable_reserve, reachable_empty.
Qed.

Lemma reachable_fork : reachable fork.
Proof. apply reachable_graph_of. repeat constructor. Qed.

Lemma reachable_chain : reachable chain.
Proof. apply reachable_graph_of. repeat constructor. Qed.

Lemma reachable_forest : reachable forest.
Proof. apply reachable_graph_of. repeat constructor. Qed.

Lemma reachable_dag8 : reachable dag8.
Proof. apply reachable_graph_of. repeat constructor. Qed.

(** *** Counting unvisited vertices *)

Lemma zeros_le_length (l : list N) : (zeros l ≤ length l)%nat.
Proof. apply length_filter. Qed.

Lemma zeros_insert (l : list N) (k : nat) (c : N) :
  l !! k = Some 0 → c ≠ 0 → S (zeros (<[k := c]> l)) = zeros l.
Proof.
  unfold zeros. revert k. induction l as [| x l IH]; intros k Hk Hc.
  - discriminate.
  - destruct k as [| k].
    + injection Hk as ->. change (<[0%nat := c]> (0 :: l)) with (c :: l).
      rewrite !filter_cons.
      destruct (decide (c = 0)); [contradiction |].
      destruct (decide (0 = 0)); [reflexivity | contradiction].
    + change (<[S k := c]> (x :: l)) with (x :: <[k := c]> l).
      rewrite !filter_cons. specialize (IH k Hk Hc).
      destruct (decide (x = 0)); cbn [length]; lia.
Qed.

(** *** The search *)

Lemma from_step g S i j : from g S i → dedge g i j → from g S j.
Proof.
  intros (s & k & Hs & Hk & Hr) He. exists s, k.
  split; [exact Hs |]. split; [exact Hk |]. eapply rtc_r; eauto.
Qed.

Lemma dedge_lt g i j :
  wf g → dedge g i j → (N.to_nat j < Digraph.size g)%nat.
Proof. intros Hwf (l & Hl & Hj). eapply wf_adj; eauto. Qed.

Section Search.

Context (g : Digraph) (A B : list N).
Hypothesis Hwf : wf g.

(** **** One neighbour *)

Lemma coloured_lt st j c :
  inv g A B st → coloured st j c → (N.to_nat j < Digraph.size g)%nat.
Proof.
  intros Hinv Hc. rewrite <- (inv_color_len _ _ _ _ Hinv).
  eapply lookup_lt_Some, Hc.
Qed.

Lemma visit_inv st vert to cv :
  inv g A B st → coloured st vert cv → cv ≠ 0 → dedge g vert to →
  ∃ st', SCA.visit vert st to = Ok st'
         ∧ inv g A B st' ∧ coloured st' vert cv ∧ measure st' = measure st.
Proof.
  intros Hinv Hvert Hcv Hedge.
  pose proof (dedge_lt g vert to Hwf Hedge) as Hto.
  pose proof (coloured_lt _ _ _ Hinv Hvert) as Hvlt.
  destruct Hinv as [Hcl Hdl Hq Hcol Hmin].
  assert (∃ cto, coloured st to cto) as [cto Hcto].
  { apply lookup_lt_is_Some_2. rewrite Hcl. exact Hto. }
  assert (∃ dv, SCA.distance st !! N.to_nat vert = Some dv) as [dv Hdv].
  { apply lookup_lt_is_Some_2. rewrite Hdl. exact Hvlt. }
  assert (∃ dto, SCA.distance st !! N.to_nat to = Some dto) as [dto Hdto].
  { apply lookup_lt_is_Some_2. rewrite Hdl. exact Hto. }
  unfold SCA.visit, SCA.assign.
  rewrite (proj2 (at_index_Ok _ _ _) Hcto). cbn.
  rewrite (proj2 (at_index_Ok _ _ _) Hvert). cbn.
  rewrite (proj2 (at_index_Ok _ _ _) Hdv), (proj2 (at_index_Ok _ _ _) Hdto).
  cbn.
  destruct (N.eqb_spec cto 0) as [-> | Hne].
  - (* an unvisited neighbour takes the colour of [vert] *)
    assert (to ≠ vert) as Hneq.
    { intros ->. unfold coloured in *. congruence. }
    eexists. split; [reflexivity |]. split; [split |]; cbn.
    + rewrite length_insert. exact Hcl.
    + rewrite length_insert. exact Hdl.
    + intros v Hv. apply elem_of_app in Hv as [Hv | Hv].
      * destruct (Hq v Hv) as (c & Hc & Hc0). exists c. split; [| exact Hc0].
        unfold coloured in *. cbn. rewrite list_lookup_insert_ne; [exact Hc |].
        intros Heq. apply N2Nat.inj in Heq. subst v. congruence.
      * apply list_elem_of_singleton in Hv as ->. exists cv.
        split; [| exact Hcv]. unfold coloured. cbn.
        apply list_lookup_insert_eq. rewrite Hcl. exact Hto.
    + intros j c Hj. unfold coloured in Hj. cbn in Hj.
      destruct (decide (j = to)) as [-> | Hjt].
      * rewrite list_lookup_insert_eq in Hj by (rewrite Hcl; exact Hto).
        injection Hj as <-.
        destruct (Hcol vert cv Hvert) as [? | [[-> Hf] | [-> Hf]]];
          [contradiction | |]; [right; left | right; right];
          (split; [reflexivity | eapply from_step; eauto]).
      * rewrite list_lookup_insert_ne in Hj; [exact (Hcol j c Hj) |].
        distinct_index.
    + exact Hmin.
    + split.
      * unfold coloured. cbn. rewrite list_lookup_insert_ne; [exact Hvert |].
        distinct_index.
      * unfold measure. cbn [SCA.queue SCA.color]. rewrite length_app.
        cbn [length].
        pose proof (zeros_insert (SCA.color st) (N.to_nat to) cv Hcto Hcv).
        unfold zeros in *. lia.
  - (* a visited neighbour *)
    destruct (N.eqb_spec cto cv) as [-> | Hdiff]; cbn.
    { exists st. repeat split; assumption. }
    match goal with |- context [if ?b then _ else _] => destruct b eqn:Hlt end.
    2: { exists st. repeat split; assumption. }
    eexists. split; [reflexivity |]. split; [split |]; cbn; try assumption.
    + right. apply N.ltb_lt in Hlt.
      assert (SCA.min_distance st ≤ UINT_MAX) as Hle.
      { destruct Hmin as [[-> _] | [? _]]; lia. }
      split; [lia |].
      destruct (Hcol to cto Hcto) as [? | [[-> Hfto] | [-> Hfto]]];
        [contradiction | |];
        (destruct (Hcol vert cv Hvert) as [? | [[-> Hfv] | [-> Hfv]]];
         [contradiction | |]); try contradiction;
        split; try assumption; eapply from_step; eauto.
    + split; [exact Hvert | reflexivity].
Qed.

(** **** The loops *)

Lemma visit_all_inv vert cv (l : list N) st :
  inv g A B st → coloured st vert cv → cv ≠ 0 →
  (∀ to, to ∈ l → dedge g vert to) →
  ∃ st', for_each (SCA.visit vert) l st = Ok st'
         ∧ inv g A B st' ∧ measure st' = measure st.
Proof.
  revert st.
  induction l as [| to l IH]; intros st Hinv Hvert Hcv Hl; cbn.
  - eauto.
  - destruct (visit_inv st vert to cv Hinv Hvert Hcv)
      as (st1 & Hvisit & Hinv1 & Hvert1 & Hm1); [apply Hl; left |].
    rewrite Hvisit. cbn.
    destruct (IH st1 Hinv1 Hvert1 Hcv) as (st' & Hrun & Hinv' & Hm');
      [intros; apply Hl; right; done |].
    exists st'. split; [exact Hrun |]. split; [exact Hinv' | congruence].
Qed.

(** With at least [measure st] iterations the [while] loop runs until the
    queue is empty. *)
Lemma bfs_inv fuel st :
  inv g A B st → (measure st ≤ fuel)%nat →
  ∃ st', SCA.bfs g fuel st = Ok st' ∧ inv g A B st' ∧ SCA.queue st' = [].
Proof.
  revert st.
  induction fuel as [| fuel IH]; intros st Hinv Hfuel;
    destruct st as [ds cs q md ma]; destruct q as [| vert rest];
    cbn [SCA.bfs SCA.queue SCA.distance SCA.color SCA.min_distance
         SCA.min_distance_ancestor].
  - eauto.
  - unfold measure in Hfuel. cbn in Hfuel. lia.
  - eauto.
  - destruct (inv_queue _ _ _ _ Hinv vert) as (cv & Hvert & Hcv); [left |].
    pose proof (coloured_lt _ _ _ Hinv Hvert) as Hlt.
    apply lookup_lt_is_Some_2 in Hlt as [nb Hnb].
    rewrite (proj2 (at_index_Ok _ _ _) Hnb). cbn.
    assert (inv g A B (SCA.mk ds cs rest md ma)) as Hinv0.
    { destruct Hinv as [Hcl Hdl Hq Hcol Hmin]. split; try assumption.
      intros v Hv. apply (Hq v). right. exact Hv. }
    destruct (visit_all_inv vert cv nb _ Hinv0 Hvert Hcv)
      as (st1 & Hrun & Hinv1 & Hm1).
    { intros to Hto. exists nb. split; assumption. }
    rewrite Hrun. cbn. apply IH; [exact Hinv1 |].
    rewrite Hm1. unfold measure in *. cbn in *. lia.
Qed.

Lemma bfs_fuel_enough st :
  inv g A B st → (measure st ≤ SCA.bfs_fuel g st)%nat.
Proof.
  intros Hinv. unfold measure, SCA.bfs_fuel.
  pose proof (zeros_le_length (SCA.color st)) as H.
  rewrite (inv_color_len _ _ _ _ Hinv) in H. lia.
Qed.

End Search.

(** *** From dense indices back to ids *)

Lemma dedge_edge g i j x :
  wf g → Digraph.vert_id_map g !! N.to_nat i = Some x → dedge g i j →
  ∃ y, Digraph.vert_id_map g !! N.to_nat j = Some y ∧ edge g x y.
Proof.
  intros Hwf Hx (l & Hl & Hj).
  pose proof (wf_adj g Hwf _ _ _ Hl Hj) as Hlt.
  rewrite (wf_len g Hwf) in Hlt.
  apply lookup_lt_is_Some_2 in Hlt as [y Hy].
  exists y. split; [exact Hy |].
  destruct (neighbour_ids_total g _ l Hwf Hl) as [ys Hys].
  exists ys. split.
  - unfold Digraph.get_neighbours.
    rewrite (wf_bwd g Hwf _ _ Hx), N2Nat.id.
    rewrite (proj2 (at_index_Ok _ _ _) Hl). cbn. exact Hys.
  - eapply map_each_at_index_elem_2; eauto.
Qed.

Lemma from_reaches g S j :
  wf g → from g S j →
  ∃ y, Digraph.vert_id_map g !! N.to_nat j = Some y ∧ reaches g S y.
Proof.
  intros Hwf (s & i & Hs & Hi & Hr).
  enough (∃ y, Digraph.vert_id_map g !! N.to_nat j = Some y ∧ rtc (edge g) s y)
    as (y & Hy & Hsy) by (exists y; split; [exact Hy | exists s; auto]).
  revert j Hr. apply rtc_ind_r.
  - exists s. split; [eapply wf_fwd; eauto | constructor].
  - intros j k Hjk Hlast (y & Hy & Hsy).
    destruct (dedge_edge g j k y Hwf Hy Hlast) as (z & Hz & Hyz).
    exists z. split; [exact Hz | eapply rtc_r; eauto].
Qed.

(** *** Seeding *)

Lemma seeded_initial g : seeded g [] [] (SCA.initial g).
Proof.
  split; cbn.
  - apply length_replicate.
  - apply length_replicate.
  - intros v Hv. inversion Hv.
  - intros j c Hj. unfold coloured in Hj. cbn in Hj.
    apply lookup_replicate in Hj as [-> _]. left. reflexivity.
  - intros a Ha. inversion Ha.
  - split; reflexivity.
Qed.

Lemma seed_a_step g SA SB st a j :
  wf g → seeded g SA SB st → Digraph.id_vert_map g !! a = Some j →
  ∃ st', SCA.seed_a g st a = Ok st' ∧ seeded g (SA ++ [a]) SB st'.
Proof.
  intros Hwf [Hcl Hdl Hq Hcol Ha Hmin] Hj.
  pose proof (wf_index_lt g a j Hwf Hj) as Hlt.
  assert (N.to_nat j < length (SCA.color st))%nat as Hlt' by (rewrite Hcl; exact Hlt).
  destruct (at_index_lt _ _ Hlt') as [c0 Hc0].
  unfold SCA.seed_a, SCA.vert_at, SCA.assign. rewrite Hj. cbn.
  rewrite Hc0. cbn. eexists. split; [reflexivity |]. split; cbn.
  - rewrite length_insert. exact Hcl.
  - exact Hdl.
  - intros v Hv. destruct (decide (v = j)) as [-> | Hne].
    + exists 1. split; [| discriminate]. unfold coloured. cbn.
      apply list_lookup_insert_eq, Hlt'.
    + apply elem_of_app in Hv as [Hv | Hv].
      * destruct (Hq v Hv) as (c & Hc & Hcne). exists c. split; [| exact Hcne].
        unfold coloured in *. cbn. rewrite list_lookup_insert_ne; [exact Hc |].
        distinct_index.
      * apply list_elem_of_singleton in Hv. contradiction.
  - intros k c Hk. unfold coloured in Hk. cbn in Hk.
    destruct (decide (k = j)) as [-> | Hne].
    + rewrite list_lookup_insert_eq in Hk by exact Hlt'. injection Hk as <-.
      right. left. split; [reflexivity |]. exists a.
      split; [apply elem_of_app; right; left | exact Hj].
    + rewrite list_lookup_insert_ne in Hk.
      2: { distinct_index. }
      destruct (Hcol k c Hk) as [? | [[-> (a' & Ha' & Hk')] | ?]]; auto.
      right. left. split; [reflexivity |]. exists a'.
      split; [apply elem_of_app; left; exact Ha' | exact Hk'].
  - intros a' Ha'. apply elem_of_app in Ha' as [Ha' | Ha'].
    + destruct (Ha a' Ha') as (k & Hk & Hck). exists k. split; [exact Hk |].
      unfold coloured in *. cbn. destruct (decide (k = j)) as [-> | Hne].
      * apply list_lookup_insert_eq, Hlt'.
      * rewrite list_lookup_insert_ne; [exact Hck |].
        distinct_index.
    + apply list_elem_of_singleton in Ha' as ->. exists j. split; [exact Hj |].
      unfold coloured. cbn. apply list_lookup_insert_eq, Hlt'.
  - exact Hmin.
Qed.

Lemma seed_a_all g SA SB (l : list N) st :
  wf g → seeded g SA SB st → Forall (registered g) l →
  ∃ st', for_each (SCA.seed_a g) l st = Ok st' ∧ seeded g (SA ++ l) SB st'.
Proof.
  intros Hwf Hs Hl. revert SA st Hs.
  induction Hl as [| a l [j Hj] _ IH]; intros SA st Hs; cbn.
  - exists st. rewrite app_nil_r. auto.
  - destruct (seed_a_step g SA SB st a j Hwf Hs Hj) as (st1 & Hst1 & Hs1).
    rewrite Hst1. cbn. destruct (IH _ _ Hs1) as (st' & Hst' & Hs').
    exists st'. split; [exact Hst' |].
    rewrite <- app_assoc in Hs'. exact Hs'.
Qed.

(** An id of [subset_b] that is registered and not in [subset_a] is
    coloured 2 and queued. *)
Lemma seed_b_step g A SB st b rest :
  wf g → seeded g A SB st → registered g b → b ∉ A →
  ∃ st', SCA.seed_b g (b :: rest) st = SCA.seed_b g rest st'
         ∧ seeded g A (SB ++ [b]) st'.
Proof.
  intros Hwf [Hcl Hdl Hq Hcol Ha Hmin] [j Hj] Hb.
  pose proof (wf_index_lt g b j Hwf Hj) as Hlt.
  assert (N.to_nat j < length (SCA.color st))%nat as Hlt' by (rewrite Hcl; exact Hlt).
  destruct (lookup_lt_is_Some_2 _ _ Hlt') as [c Hc].
  assert (c ≠ 1) as Hc1.
  { intros ->. destruct (Hcol j 1 Hc) as [? | [[_ (a & Ha' & Haj)] | [? _]]];
      try discriminate.
    apply (wf_fwd g Hwf) in Haj. apply (wf_fwd g Hwf) in Hj.
    assert (a = b) by congruence. subst a. contradiction. }
  cbn [SCA.seed_b]. unfold SCA.vert_at, SCA.assign. rewrite Hj. cbn.
  rewrite (proj2 (at_index_Ok _ _ _) Hc). cbn.
  destruct (N.eqb_spec c 1) as [? | _]; [contradiction |].
  eexists. split; [reflexivity |]. split; cbn.
  - rewrite length_insert. exact Hcl.
  - exact Hdl.
  - intros v Hv. destruct (decide (v = j)) as [-> | Hne].
    + exists 2. split; [| discriminate]. unfold coloured. cbn.
      apply list_lookup_insert_eq, Hlt'.
    + apply elem_of_app in Hv as [Hv | Hv].
      * destruct (Hq v Hv) as (c' & Hc' & Hcne). exists c'.
        split; [| exact Hcne].
        unfold coloured in *. cbn. rewrite list_lookup_insert_ne; [exact Hc' |].
        distinct_index.
      * apply list_elem_of_singleton in Hv. contradiction.
  - intros k c' Hk. unfold coloured in Hk. cbn in Hk.
    destruct (decide (k = j)) as [-> | Hne].
    + rewrite list_lookup_insert_eq in Hk by exact Hlt'. injection Hk as <-.
      right. right. split; [reflexivity |]. exists b.
      split; [apply elem_of_app; right; left | exact Hj].
    + rewrite list_lookup_insert_ne in Hk.
      2: { distinct_index. }
      destruct (Hcol k c' Hk) as [? | [? | [-> (b' & Hb' & Hk')]]]; auto.
      right. right. split; [reflexivity |]. exists b'.
      split; [apply elem_of_app; left; exact Hb' | exact Hk'].
  - intros a Ha'. destruct (Ha a Ha') as (k & Hk & Hck).
    exists k. split; [exact Hk |]. unfold coloured in *. cbn.
    rewrite list_lookup_insert_ne; [exact Hck |].
    intros Heq. apply N2Nat.inj in Heq. subst k. congruence.
  - exact Hmin.
Qed.

Lemma seed_b_prefix g A SB (l1 rest : list N) st :
  wf g → seeded g A SB st → (∀ x, x ∈ l1 → registered g x ∧ x ∉ A) →
  ∃ st', SCA.seed_b g (l1 ++ rest) st = SCA.seed_b g rest st'
         ∧ seeded g A (SB ++ l1) st'.
Proof.
  intros Hwf. revert SB st.
  induction l1 as [| b l1 IH]; intros SB st Hs Hl.
  - exists st. rewrite app_nil_r. auto.
  - destruct (Hl b) as [Hreg Hnot]; [left |].
    destruct (seed_b_step g A SB st b (l1 ++ rest) Hwf Hs Hreg Hnot)
      as (st1 & Hst1 & Hs1).
    destruct (IH _ _ Hs1) as (st' & Hst' & Hs');
      [intros; apply Hl; right; done |].
    exists st'. split.
    + cbn [app]. rewrite Hst1. exact Hst'.
    + rewrite <- app_assoc in Hs'. exact Hs'.
Qed.

(** An id of [subset_b] that also is in [subset_a] ends the query. *)
Lemma seed_b_hit g A SB st x rest :
  seeded g A SB st → x ∈ A →
  SCA.seed_b g (x :: rest) st = Ok (inl (x, 0)).
Proof.
  intros Hs Hx. destruct (seeded_a _ _ _ _ Hs x Hx) as (j & Hj & Hc).
  cbn [SCA.seed_b]. unfold SCA.vert_at. rewrite Hj. cbn.
  rewrite (proj2 (at_index_Ok _ _ _) Hc). reflexivity.
Qed.

Lemma seed_b_unknown g st u rest :
  ¬ registered g u → SCA.seed_b g (u :: rest) st = OutOfRange.
Proof.
  intros Hu. cbn [SCA.seed_b]. unfold SCA.vert_at.
  destruct (Digraph.id_vert_map g !! u) eqn:E; [| reflexivity].
  exfalso. apply Hu. eexists. exact E.
Qed.

Lemma seeded_inv g A B st : seeded g A B st → inv g A B st.
Proof.
  intros [Hcl Hdl Hq Hcol Ha Hmin]. split; try assumption.
  - intros j c Hj.
    destruct (Hcol j c Hj) as [? | [[-> (a & Ha' & Haj)] | [-> (b & Hb & Hbj)]]];
      [left; assumption | right; left | right; right];
      (split; [reflexivity |]).
    + exists a, j. repeat split; auto. constructor.
    + exists b, j. repeat split; auto. constructor.
  - left. exact Hmin.
Qed.

(** *** The query as a whole *)

Lemma for_each_app {A S} (body : S → A → outcome S) (l1 l2 : list A) st :
  for_each body (l1 ++ l2) st = (st' ← for_each body l1 st; for_each body l2 st').
Proof.
  revert st. induction l1 as [| x l1 IH]; intros st; cbn; [reflexivity |].
  destruct (body st x); cbn; auto.
Qed.

(** The first element of a list with a decidable property. *)
Lemma first_such {A} (P : A → Prop) `{∀ x, Decision (P x)} (l : list A) :
  (∃ x, x ∈ l ∧ P x) →
  ∃ l1 x l2, l = l1 ++ x :: l2 ∧ P x ∧ ∀ y, y ∈ l1 → ¬ P y.
Proof.
  induction l as [| a l IH]; intros (x & Hx & HP).
  - inversion Hx.
  - destruct (decide (P a)) as [Ha | Ha].
    + exists [], a, l. repeat split; [exact Ha |]. intros y Hy. inversion Hy.
    + destruct IH as (l1 & z & l2 & -> & Hz & Hl1).
      { exists x. split; [| exact HP].
        apply elem_of_cons in Hx as [-> | Hx]; [contradiction | exact Hx]. }
      exists (a :: l1), z, l2. repeat split; [exact Hz |].
      intros y Hy. apply elem_of_cons in Hy as [-> | Hy]; auto.
Qed.

Lemma seeded_after_a g (A : list N) :
  wf g → Forall (registered g) A →
  ∃ st, for_each (SCA.seed_a g) A (SCA.initial g) = Ok st ∧ seeded g A [] st.
Proof.
  intros Hwf HA.
  exact (seed_a_all g [] [] A _ Hwf (seeded_initial g) HA).
Qed.

Lemma seed_a_unknown g st u :
  ¬ registered g u → SCA.seed_a g st u = OutOfRange.
Proof.
  intros Hu. unfold SCA.seed_a, SCA.vert_at.
  destruct (Digraph.id_vert_map g !! u) eqn:E; [| reflexivity].
  exfalso. apply Hu. eexists. exact E.
Qed.

Lemma ancestor_length_unknown_a g (A1 A2 B : list N) u :
  wf g → Forall (registered g) A1 → ¬ registered g u →
  SCA.ancestor_length g (A1 ++ u :: A2) B = OutOfRange.
Proof.
  intros Hwf HA1 Hu. unfold SCA.ancestor_length.
  destruct (seeded_after_a g A1 Hwf HA1) as (st & Hst & _).
  rewrite for_each_app, Hst. cbn [mbind outcome_bind for_each].
  rewrite (seed_a_unknown g st u Hu). reflexivity.
Qed.

Lemma ancestor_length_unknown_b g (A B1 B2 : list N) u :
  wf g → Forall (registered g) A →
  (∀ y, y ∈ B1 → registered g y ∧ y ∉ A) → ¬ registered g u →
  SCA.ancestor_length g A (B1 ++ u :: B2) = OutOfRange.
Proof.
  intros Hwf HA HB1 Hu. unfold SCA.ancestor_length.
  destruct (seeded_after_a g A Hwf HA) as (st & Hst & Hs).
  rewrite Hst. cbn.
  destruct (seed_b_prefix g A [] B1 (u :: B2) st Hwf Hs HB1) as (st' & -> & _).
  rewrite seed_b_unknown by exact Hu. reflexivity.
Qed.

Lemma ancestor_length_overlap g (A B1 B2 : list N) x :
  wf g → Forall (registered g) A →
  (∀ y, y ∈ B1 → registered g y ∧ y ∉ A) → x ∈ A →
  SCA.ancestor_length g A (B1 ++ x :: B2) = Ok (x, 0)
  ∧ ∃ st, for_each (SCA.seed_a g) A (SCA.initial g) = Ok st
          ∧ SCA.seed_b g (B1 ++ x :: B2) st = Ok (inl (x, 0)).
Proof.
  intros Hwf HA HB1 Hx. unfold SCA.ancestor_length.
  destruct (seeded_after_a g A Hwf HA) as (st & Hst & Hs).
  rewrite Hst. cbn.
  destruct (seed_b_prefix g A [] B1 (x :: B2) st Hwf Hs HB1) as (st' & Hpre & Hs').
  rewrite Hpre, (seed_b_hit g A _ st' x B2 Hs' Hx). cbn.
  split; [reflexivity |]. exists st. split; [reflexivity |].
  rewrite Hpre. apply (seed_b_hit g A _ st' x B2 Hs' Hx).
Qed.

(** Disjoint registered sets: the search runs to the end and returns either
    the initial pair or a vertex reachable from both sets. *)
Lemma ancestor_length_disjoint g (A B : list N) :
  wf g → A ≠ [] → Forall (registered g) A → Forall (registered g) B →
  (∀ y, y ∈ B → y ∉ A) →
  ∃ x d, SCA.ancestor_length g A B = Ok (x, d)
         ∧ ((d = UINT_MAX ∧ Digraph.vert_id_map g !! 0%nat = Some x)
            ∨ (d < UINT_MAX ∧ common_ancestor g A B x)).
Proof.
  intros Hwf Hne HA HB Hdisj. unfold SCA.ancestor_length.
  destruct (seeded_after_a g A Hwf HA) as (st & Hst & Hs).
  rewrite Hst. cbn.
  destruct (seed_b_prefix g A [] B [] st Hwf Hs) as (st2 & Hpre & Hs2).
  { intros y Hy. split; [| apply Hdisj, Hy].
    eapply Forall_forall in HB; eauto. }
  rewrite app_nil_r in Hpre. rewrite Hpre. cbn. cbn in Hs2.
  pose proof (seeded_inv g A B st2 Hs2) as Hinv2.
  destruct (bfs_inv g A B Hwf (SCA.bfs_fuel g st2) st2 Hinv2
              (bfs_fuel_enough g A B st2 Hinv2)) as (st3 & Hbfs & Hinv3 & _).
  rewrite Hbfs. cbn.
  destruct (inv_min _ _ _ _ Hinv3) as [[Hmd Hma] | (Hmd & HfA & HfB)].
  - rewrite Hma, Hmd.
    destruct A as [| a A']; [contradiction |].
    apply Forall_cons in HA as [[j Hj] _].
    pose proof (wf_index_lt g a j Hwf Hj) as Hlt. rewrite (wf_len g Hwf) in Hlt.
    assert (0 < length (Digraph.vert_id_map g))%nat as H0 by lia.
    apply lookup_lt_is_Some_2 in H0 as [x0 Hx0].
    exists x0, UINT_MAX. split; [| left; auto].
    assert (at_index (Digraph.vert_id_map g) 0 = Ok x0) as ->
      by (apply at_index_Ok; exact Hx0).
    reflexivity.
  - destruct (from_reaches g A _ Hwf HfA) as (x & Hx & HrA).
    destruct (from_reaches g B _ Hwf HfB) as (x' & Hx' & HrB).
    assert (x' = x) as -> by congruence.
    exists x, (SCA.min_distance st3). split; [| right; split; [exact Hmd | split; assumption]].
    rewrite (proj2 (at_index_Ok _ _ _) Hx). reflexivity.
Qed.

(** On registered sets the query always returns a pair: the loop bound of
    [bfs] is never reached. *)
Lemma ancestor_length_returns g (A B : list N) :
  wf g → A ≠ [] → Forall (registered g) A → Forall (registered g) B →
  ∃ x d, SCA.ancestor_length g A B = Ok (x, d).
Proof.
  intros Hwf Hne HA HB.
  destruct (decide (Exists (λ y, y ∈ A) B)) as [Hex | Hnone].
  - apply Exists_exists in Hex.
    destruct (first_such (λ y, y ∈ A) B Hex) as (B1 & z & B2 & -> & Hz & HB1).
    destruct (ancestor_length_overlap g A B1 B2 z Hwf HA) as [Hres _].
    + intros y Hy. split; [| apply HB1, Hy].
      eapply Forall_forall in HB; [exact HB |]. apply elem_of_app. auto.
    + exact Hz.
    + eauto.
  - destruct (ancestor_length_disjoint g A B Hwf Hne HA HB)
      as (x & d & Hres & _); [| eauto].
    intros y HyB HyA. apply Hnone, Exists_exists. eauto.
Qed.

(** *** Small scenarios *)

Example scenario_fork :
  SCA.ancestor fork 1 2 = Ok 0 ∧ SCA.length fork 1 2 = Ok 2.
Proof. split; reflexivity. Qed.

Example scenario_singletons :
  SCA.length_subset dag8 [1] [2] = SCA.length dag8 1 2
  ∧ SCA.ancestor_subset dag8 [1] [2] = SCA.ancestor dag8 1 2.
Proof. split; reflexivity. Qed.

Example scenario_chain :
  SCA.ancestor chain 1 2 = Ok 1 ∧ SCA.length chain 1 2 = Ok 1.
Proof. split; reflexivity. Qed.

Example scenario_forest :
  SCA.ancestor_length forest [1] [3] = Ok (1, UINT_MAX).
Proof. reflexivity. Qed.

Example scenario_neighbours :
  Digraph.get_neighbours dag8 1 = Ok [0; 3]
  ∧ Digraph.get_neighbours dag8 9 = Ok [].
Proof. split; reflexivity. Qed.

(** *** Reachability in the example graphs *)

Lemma rtc_closed {A} (R : relation A) (P : A → Prop) (s y : A) :
  (∀ u v, P u → R u v → P v) → P s → rtc R s y → P y.
Proof. intros Hstep Hs Hr. induction Hr; eauto. Qed.

Lemma edge_inv (g : Digraph) (u v : N) (l : list N) :
  Digraph.get_neighbours g u = Ok l → edge g u v → v ∈ l.
Proof. intros Hl (l' & Hl' & Hv). congruence. Qed.

Lemma edge_intro (g : Digraph) (u v : N) (l : list N) :
  Digraph.get_neighbours g u = Ok l → v ∈ l → edge g u v.
Proof. intros Hl Hv. exists l. auto. Qed.

Lemma forest_from_1 y : rtc (edge forest) 1 y → y = 1 ∨ y = 0.
Proof.
  apply (rtc_closed _ (λ y, y = 1 ∨ y = 0)); [| left; reflexivity].
  intros u v [-> | ->] He.
  - apply (edge_inv forest 1 v [0] eq_refl) in He.
    apply list_elem_of_singleton in He. auto.
  - apply (edge_inv forest 0 v [] eq_refl) in He. inversion He.
Qed.

Lemma forest_from_3 y : rtc (edge forest) 3 y → y = 3 ∨ y = 2.
Proof.
  apply (rtc_closed _ (λ y, y = 3 ∨ y = 2)); [| left; reflexivity].
  intros u v [-> | ->] He.
  - apply (edge_inv forest 3 v [2] eq_refl) in He.
    apply list_elem_of_singleton in He. auto.
  - apply (edge_inv forest 2 v [] eq_refl) in He. inversion He.
Qed.

Lemma forest_no_common y : ¬ common_ancestor forest [1] [3] y.
Proof.
  intros [(a & Ha & Hay) (b & Hb & Hby)].
  apply list_elem_of_singleton in Ha as ->.
  apply list_elem_of_singleton in Hb as ->.
  apply forest_from_1 in Hay. apply forest_from_3 in Hby.
  destruct Hay as [-> | ->], Hby as [? | ?]; discriminate.
Qed.

Lemma registered_lookup g v i :
  Digraph.id_vert_map g !! v = Some i → registered g v.
Proof. intros H. exists i. exact H. Qed.

Lemma unregistered_lookup g v :
  Digraph.id_vert_map g !! v = None → ¬ registered g v.
Proof. intros H [i Hi]. congruence. Qed.

(** *** Only the three tables are read *)

Lemma get_or_add_vert_same g1 g2 v :
  same_tables g1 g2 →
  (Digraph.get_or_add_vert g1 v).1 = (Digraph.get_or_add_vert g2 v).1
  ∧ same_tables (Digraph.get_or_add_vert g1 v).2 (Digraph.get_or_add_vert g2 v).2.
Proof.
  intros (Hg & Hm & Hv). unfold Digraph.get_or_add_vert. rewrite Hm.
  destruct (Digraph.id_vert_map g2 !! v); cbn.
  - repeat split; assumption.
  - rewrite Hv. repeat split; cbn; congruence.
Qed.

(** Two returning calls of [add_edge] on equal tables leave equal tables. *)
Lemma add_edge_same g1 g2 v w g1' g2' :
  same_tables g1 g2 →
  Digraph.add_edge g1 v w = Ok g1' → Digraph.add_edge g2 v w = Ok g2' →
  same_tables g1' g2'.
Proof.
  intros Hs. rewrite !add_edge_unfold.
  destruct (get_or_add_vert_same g1 g2 v Hs) as [Hfrom Hs1].
  destruct (get_or_add_vert_same _ _ w Hs1) as [Hto Hs2].
  pose proof Hs1 as (Hg1 & _). destruct Hs2 as (Hg & Hm & Hv).
  rewrite Hfrom, Hg1.
  destruct (at_index _ _) as [nb | | |]; cbn; try discriminate.
  destruct (Digraph.regrows _ w); [discriminate |].
  destruct (Digraph.regrows _ w); [discriminate |].
  intros [= <-] [= <-]. unfold added, same_tables. cbn.
  rewrite Hfrom, Hto, Hg, Hm, Hv. repeat split.
Qed.

Lemma get_neighbours_same g1 g2 v :
  same_tables g1 g2 → Digraph.get_neighbours g1 v = Digraph.get_neighbours g2 v.
Proof.
  intros (Hg & Hm & Hv). unfold Digraph.get_neighbours.
  rewrite Hg, Hm, Hv. reflexivity.
Qed.

Lemma for_each_ext {A S} (f f' : S → A → outcome S) (l : list A) st :
  (∀ st x, f st x = f' st x) → for_each f l st = for_each f' l st.
Proof.
  intros H. revert st. induction l as [| x l IH]; intros st; cbn; [reflexivity |].
  rewrite H. destruct (f' st x); cbn; auto.
Qed.

Lemma seed_b_same g1 g2 (l : list N) st :
  same_tables g1 g2 → SCA.seed_b g1 l st = SCA.seed_b g2 l st.
Proof.
  intros (Hg & Hm & Hv). revert st.
  induction l as [| id l IH]; intros st; cbn; [reflexivity |].
  unfold SCA.vert_at. rewrite Hm.
  destruct (Digraph.id_vert_map g2 !! id); cbn; [| reflexivity].
  destruct (at_index _ _); cbn; try reflexivity.
  destruct (_ =? _); [reflexivity |].
  destruct (SCA.assign _ _ _); cbn; auto.
Qed.

Lemma bfs_same g1 g2 fuel st :
  same_tables g1 g2 → SCA.bfs g1 fuel st = SCA.bfs g2 fuel st.
Proof.
  intros (Hg & Hm & Hv). revert st.
  induction fuel as [| fuel IH]; intros st; cbn; rewrite ?Hg;
    destruct (SCA.queue st); try reflexivity.
  destruct (at_index _ _); cbn; try reflexivity.
  destruct (for_each _ _ _); cbn; auto.
Qed.

Lemma ancestor_length_same g1 g2 A B :
  same_tables g1 g2 → SCA.ancestor_length g1 A B = SCA.ancestor_length g2 A B.
Proof.
  intros Hs. pose proof Hs as (Hg & Hm & Hv). unfold SCA.ancestor_length.
  assert (SCA.initial g1 = SCA.initial g2) as ->.
  { unfold SCA.initial, Digraph.size. rewrite Hg. reflexivity. }
  rewrite (for_each_ext (SCA.seed_a g1) (SCA.seed_a g2)).
  2: { intros st x. unfold SCA.seed_a, SCA.vert_at. rewrite Hm. reflexivity. }
  destruct (for_each _ _ _) as [st1 | | |]; cbn; try reflexivity.
  rewrite (seed_b_same g1 g2 B st1 Hs).
  destruct (SCA.seed_b _ _ _) as [[early | st2] | | |]; cbn; try reflexivity.
  rewrite (bfs_same g1 g2 _ st2 Hs).
  unfold SCA.bfs_fuel, Digraph.size. rewrite Hg, Hv. reflexivity.
Qed.

Lemma perform_same g1 g2 c step1 step2 :
  same_tables g1 g2 →
  perform g1 c = Ok step1 → perform g2 c = Ok step2 →
  step1.2 = step2.2 ∧ same_tables step1.1 step2.1.
Proof.
  intros Hs. destruct c as [v w | n | v | | A B]; cbn.
  - destruct (Digraph.add_edge g1 v w) as [g1' | | |] eqn:H1; cbn;
      try discriminate.
    destruct (Digraph.add_edge g2 v w) as [g2' | | |] eqn:H2; cbn;
      try discriminate.
    intros [= <-] [= <-]. split; [reflexivity |].
    exact (add_edge_same g1 g2 v w _ _ Hs H1 H2).
  - intros [= <-] [= <-]. split; [reflexivity | exact Hs].
  - rewrite (get_neighbours_same g1 g2 v Hs).
    destruct (Digraph.get_neighbours g2 v); cbn; try discriminate.
    intros [= <-] [= <-]. split; [reflexivity | exact Hs].
  - intros [= <-] [= <-]. cbn. unfold Digraph.size. split; [| exact Hs].
    destruct Hs as (-> & _). reflexivity.
  - rewrite (ancestor_length_same g1 g2 A B Hs).
    destruct (SCA.ancestor_length g2 A B); cbn; try discriminate.
    intros [= <-] [= <-]. split; [reflexivity | exact Hs].
Qed.

Lemma run_same g1 g2 calls responses1 responses2 :
  same_tables g1 g2 →
  run g1 calls = Ok responses1 → run g2 calls = Ok responses2 →
  responses1 = responses2.
Proof.
  revert g1 g2 responses1 responses2.
  induction calls as [| c calls IH]; intros g1 g2 r1 r2 Hs; cbn.
  - congruence.
  - destruct (perform g1 c) as [step1 | | |] eqn:H1; cbn; try discriminate.
    destruct (perform g2 c) as [step2 | | |] eqn:H2; cbn; try discriminate.
    destruct (perform_same g1 g2 c step1 step2 Hs H1 H2) as [Hr Hs'].
    destruct (run step1.1 calls) as [rs1 | | |] eqn:Hrun1; cbn;
      try discriminate.
    destruct (run step2.1 calls) as [rs2 | | |] eqn:Hrun2; cbn;
      try discriminate.
    intros [= <-] [= <-]. rewrite Hr. f_equal.
    exact (IH _ _ _ _ Hs' Hrun1 Hrun2).
Qed.

(** A read-side call returns the same on equal tables. *)
Lemma perform_read_side g1 g2 c :
  same_tables g1 g2 → read_side c = true →
  match perform g1 c, perform g2 c with
  | Ok step1, Ok step2 => step1.2 = step2.2 ∧ same_tables step1.1 step2.1
  | OutOfRange, OutOfRange | Undefined, Undefined | OutOfFuel, OutOfFuel => True
  | _, _ => False
  end.
Proof.
  intros Hs Hc. destruct c as [v w | n | v | | A B]; try discriminate; cbn.
  - split; [reflexivity | exact Hs].
  - rewrite (get_neighbours_same g1 g2 v Hs).
    destruct (Digraph.get_neighbours g2 v); cbn; auto.
  - unfold Digraph.size. split; [| exact Hs].
    destruct Hs as (-> & _). reflexivity.
  - rewrite (ancestor_length_same g1 g2 A B Hs).
    destruct (SCA.ancestor_length g2 A B); cbn; auto.
Qed.

Lemma run_read_side g1 g2 calls :
  same_tables g1 g2 → forallb read_side calls = true →
  run g1 calls = run g2 calls.
Proof.
  revert g1 g2. induction calls as [| c calls IH]; intros g1 g2 Hs Hc; cbn;
    [reflexivity |].
  cbn in Hc. apply andb_true_iff in Hc as [Hc Hcs].
  pose proof (perform_read_side g1 g2 c Hs Hc) as H.
  destruct (perform g1 c) as [step1 | | |], (perform g2 c) as [step2 | | |];
    cbn; try contradiction; try reflexivity.
  destruct H as [-> Hs']. rewrite (IH _ _ Hs' Hcs). reflexivity.
Qed.

(** *** The loops of [outcast] *)


Lemma at_pos_Ok (v : list N) (pos : nat) (x : N) :
  v !! pos = Some x → Outcast.at_pos v pos = Ok x.
Proof. intros H. unfold Outcast.at_pos. rewrite H. reflexivity. Qed.





(** *** Sums of [unsigned] values *)







(** *** The totals, position by position *)





(** *** The running maximum *)




(** * Further lemmas *)

(** ** The digraph as a whole *)

Lemma get_or_add_vert_lookup_ne g v x :
  x ≠ v →
  Digraph.id_vert_map (Digraph.get_or_add_vert g v).2 !! x
  = Digraph.id_vert_map g !! x.
Proof.
  intros Hne. unfold Digraph.get_or_add_vert.
  destruct (Digraph.id_vert_map g !! v); cbn; [reflexivity |].
  apply lookup_insert_ne. congruence.
Qed.

Lemma wf_registered_elem g x :
  wf g → registered g x ↔ x ∈ Digraph.vert_id_map g.
Proof.
  intros Hwf. split.
  - intros [i Hi]. eapply list_elem_of_lookup_2, wf_fwd; eauto.
  - intros Hx. apply list_elem_of_lookup in Hx as [k Hk].
    eexists. eapply wf_bwd; eauto.
Qed.

Lemma get_or_add_vert_ids g v :
  wf g →
  Digraph.vert_id_map (Digraph.get_or_add_vert g v).2
  = Digraph.vert_id_map g ++ first_seen (Digraph.vert_id_map g) [v].
Proof.
  intros Hwf. unfold Digraph.get_or_add_vert. cbn [first_seen].
  destruct (Digraph.id_vert_map g !! v) as [i|] eqn:Hv; cbn.
  - rewrite decide_True; [rewrite app_nil_r; reflexivity |].
    apply (wf_registered_elem g v Hwf). exists i. exact Hv.
  - rewrite decide_False; [reflexivity |].
    intros Hin. apply (wf_registered_elem g v Hwf) in Hin as [i Hi]. congruence.
Qed.

Lemma first_seen_app seen l1 l2 :
  first_seen seen (l1 ++ l2)
  = first_seen seen l1 ++ first_seen (seen ++ first_seen seen l1) l2.
Proof.
  revert seen. induction l1 as [| x l1 IH]; intros seen; cbn.
  - rewrite app_nil_r. reflexivity.
  - destruct (decide (x ∈ seen)); [apply IH |].
    rewrite IH. cbn. rewrite <- app_assoc. reflexivity.
Qed.

Lemma elem_of_first_seen seen l x :
  x ∈ seen ++ first_seen seen l ↔ x ∈ seen ∨ x ∈ l.
Proof.
  revert seen. induction l as [| y l IH]; intros seen; cbn.
  - rewrite app_nil_r. split; [auto | intros [? | H]; [assumption | inversion H]].
  - destruct (decide (y ∈ seen)) as [Hy | Hy].
    + rewrite IH. rewrite elem_of_cons. split; [tauto |].
      intros [? | [-> | ?]]; auto.
    + replace (seen ++ y :: first_seen (seen ++ [y]) l)
        with ((seen ++ [y]) ++ first_seen (seen ++ [y]) l)
        by (rewrite <- app_assoc; reflexivity).
      rewrite IH, (elem_of_app seen [y]), (list_elem_of_singleton x y).
      rewrite (elem_of_cons l x y). tauto.
Qed.

Lemma NoDup_first_seen seen l :
  NoDup seen → NoDup (seen ++ first_seen seen l).
Proof.
  revert seen. induction l as [| y l IH]; intros seen Hnd; cbn.
  - rewrite app_nil_r. exact Hnd.
  - destruct (decide (y ∈ seen)) as [Hy | Hy]; [apply IH, Hnd |].
    replace (seen ++ y :: first_seen (seen ++ [y]) l)
      with ((seen ++ [y]) ++ first_seen (seen ++ [y]) l)
      by (rewrite <- app_assoc; reflexivity).
    apply IH. apply NoDup_app. split; [exact Hnd |]. split.
    + intros x Hx Hx'. apply list_elem_of_singleton in Hx'. congruence.
    + apply NoDup_singleton.
Qed.

(** What [add_edge] does to the three tables. *)
Lemma add_edge_tables g v w g' :
  wf g → v < UINT_RANGE → w < UINT_RANGE →
  Digraph.add_edge g v w = Ok g' →
  Digraph.vert_id_map g'
  = Digraph.vert_id_map g ++ first_seen (Digraph.vert_id_map g) [v; w]
  ∧ (∀ x, x ≠ v → x ≠ w →
          Digraph.id_vert_map g' !! x = Digraph.id_vert_map g !! x)
  ∧ (∀ x i, Digraph.id_vert_map g !! x = Some i →
            Digraph.id_vert_map g' !! x = Some i).
Proof.
  intros Hwf Hv Hw Hadd.
  destruct (add_edge_Ok g v w g' Hwf Hv Hw Hadd) as (nb & _ & Heq).
  rewrite Heq in Hadd. injection Hadd as <-.
  pose proof (wf_get_or_add_vert g v Hwf Hv) as Hwf1.
  unfold added. cbn. split; [| split].
  - rewrite (get_or_add_vert_ids _ w Hwf1), (get_or_add_vert_ids g v Hwf).
    rewrite <- app_assoc. f_equal.
    exact (eq_sym (first_seen_app (Digraph.vert_id_map g) [v] [w])).
  - intros x Hxv Hxw.
    rewrite !get_or_add_vert_lookup_ne by assumption. reflexivity.
  - intros x i Hx. apply get_or_add_vert_mono, get_or_add_vert_mono, Hx.
Qed.

(** [add_edge a b] leaves the neighbours of every other id as they were. *)
Lemma get_neighbours_add_edge_other g a b g' v :
  wf g → a < UINT_RANGE → b < UINT_RANGE →
  Digraph.add_edge g a b = Ok g' → v ≠ a →
  Digraph.get_neighbours g' v = Digraph.get_neighbours g v.
Proof.
  intros Hwf Ha Hb Hadd Hva.
  pose proof (wf_add_edge g a b g' Hwf Ha Hb Hadd) as Hwf'.
  destruct (add_edge_Ok g a b g' Hwf Ha Hb Hadd) as (nb & Hnb & Heq).
  rewrite Heq in Hadd. injection Hadd as <-.
  pose proof (wf_get_or_add_vert g a Hwf Ha) as Hwf1.
  pose proof (get_or_add_vert_lookup g a Hwf Ha) as Hfrom.
  set (g1 := (Digraph.get_or_add_vert g a).2) in *.
  set (from := (Digraph.get_or_add_vert g a).1) in *.
  pose proof (wf_get_or_add_vert g1 b Hwf1 Hb) as Hwf2.
  pose proof (get_or_add_vert_lookup g1 b Hwf1 Hb) as Hto.
  pose proof (get_or_add_vert_mono g1 b a from Hfrom) as Hfrom2.
  set (g2 := (Digraph.get_or_add_vert g1 b).2) in *.
  assert (Hids : ∀ k x, Digraph.vert_id_map g !! k = Some x →
                        Digraph.vert_id_map g2 !! k = Some x).
  { intros k x Hk. apply get_or_add_vert_ids_lookup.
    apply get_or_add_vert_ids_lookup, Hk. }
  assert (Hgr : ∀ k l, Digraph.graph g !! k = Some l →
                       Digraph.graph g2 !! k = Some l).
  { intros k l Hk. apply get_or_add_vert_graph_lookup.
    apply get_or_add_vert_graph_lookup, Hk. }
  unfold Digraph.get_neighbours at 1. unfold added. cbn. fold g1 from g2.
  destruct (Digraph.id_vert_map g2 !! v) as [i|] eqn:Hv2.
  - (* [v] is registered afterwards *)
    assert (i ≠ from) as Hne.
    { intros ->. apply (wf_fwd g2 Hwf2) in Hv2. apply (wf_fwd g2 Hwf2) in Hfrom2.
      congruence. }
    rewrite at_index_insert_ne by congruence.
    unfold Digraph.get_neighbours.
    destruct (Digraph.id_vert_map g !! v) as [i'|] eqn:Hv.
    + assert (i' = i) as ->.
      { apply (get_or_add_vert_mono g a) in Hv. fold g1 in Hv.
        apply (get_or_add_vert_mono g1 b) in Hv. fold g2 in Hv. congruence. }
      pose proof (wf_index_lt g v i Hwf Hv) as Hlt.
      apply lookup_lt_is_Some_2 in Hlt as [l Hl].
      rewrite (proj2 (at_index_Ok _ _ _) Hl).
      rewrite (proj2 (at_index_Ok _ _ _) (Hgr _ _ Hl)). cbn.
      apply map_each_ext. intros n Hn.
      pose proof (wf_adj g Hwf _ _ _ Hl Hn) as Hlt.
      rewrite (wf_len g Hwf) in Hlt.
      apply lookup_lt_is_Some_2 in Hlt as [y Hy].
      rewrite (proj2 (at_index_Ok _ _ _) Hy).
      apply at_index_Ok, Hids, Hy.
    + (* newly registered: it is [b], a vertex without edges *)
      assert (v = b) as ->.
      { destruct (decide (v = b)) as [? | Hvb]; [assumption |].
        unfold g2 in Hv2. rewrite get_or_add_vert_lookup_ne in Hv2 by exact Hvb.
        unfold g1 in Hv2. rewrite get_or_add_vert_lookup_ne in Hv2 by exact Hva.
        congruence. }
      assert (i = (Digraph.get_or_add_vert g1 b).1) as -> by (fold g2 in Hto; congruence).
      assert (Digraph.id_vert_map g1 !! b = None) as Hb1.
      { unfold g1. rewrite get_or_add_vert_lookup_ne by exact Hva. exact Hv. }
      pose proof (get_or_add_vert_adjacency g1 b Hwf1 Hb) as Hadj.
      rewrite Hb1 in Hadj. fold g2 in Hadj.
      rewrite (proj2 (at_index_Ok _ _ _) Hadj). reflexivity.
  - unfold Digraph.get_neighbours.
    destruct (Digraph.id_vert_map g !! v) as [i'|] eqn:Hv; [| reflexivity].
    apply (get_or_add_vert_mono g a) in Hv. fold g1 in Hv.
    apply (get_or_add_vert_mono g1 b) in Hv. fold g2 in Hv. congruence.
Qed.

Lemma targets_cons_eq a b rest : targets ((a, b) :: rest) a = b :: targets rest a.
Proof. unfold targets. rewrite filter_cons_True by reflexivity. reflexivity. Qed.

Lemma targets_cons_ne a b rest v :
  v ≠ a → targets ((a, b) :: rest) v = targets rest v.
Proof.
  intros Hne. unfold targets. rewrite filter_cons_False; [reflexivity |].
  cbn. congruence.
Qed.

(** A list of edges inserted into a well-formed graph. *)
Lemma add_edges_spec g edges g' :
  wf g → edges_bounded edges → add_edges g edges = Ok g' →
  wf g'
  ∧ Digraph.vert_id_map g'
    = Digraph.vert_id_map g
      ++ first_seen (Digraph.vert_id_map g) (endpoints edges)
  ∧ ∀ v old, Digraph.get_neighbours g v = Ok old →
             Digraph.get_neighbours g' v = Ok (old ++ targets edges v).
Proof.
  intros Hwf Hb. revert g Hwf.
  induction Hb as [| [a b] rest [Ha Hb'] _ IH]; intros g Hwf Hrun.
  - cbn in Hrun. injection Hrun as <-. cbn. rewrite app_nil_r.
    split; [exact Hwf |]. split; [reflexivity |].
    intros v old Hold. unfold targets. cbn. rewrite app_nil_r. exact Hold.
  - cbn in Ha, Hb'. cbn [add_edges] in Hrun.
    destruct (Digraph.add_edge g a b) as [g1 | | |] eqn:Hadd;
      cbn [mbind outcome_bind] in Hrun; try discriminate.
    destruct (get_neighbours_add_edge g a b g1 Hwf Ha Hb' Hadd)
      as (olda & Holda & Hnewa & _).
    pose proof (wf_add_edge g a b g1 Hwf Ha Hb' Hadd) as Hwf1.
    destruct (add_edge_tables g a b g1 Hwf Ha Hb' Hadd) as (Hids1 & _ & _).
    destruct (IH g1 Hwf1 Hrun) as (Hwf' & Hids & Hnb).
    split; [exact Hwf' |]. split.
    + rewrite Hids, Hids1, <- app_assoc. f_equal.
      exact (eq_sym (first_seen_app (Digraph.vert_id_map g) [a; b]
                       (endpoints rest))).
    + intros v old Hold. destruct (decide (v = a)) as [-> | Hne].
      * assert (old = olda) as -> by congruence.
        rewrite (Hnb a _ Hnewa), targets_cons_eq, <- app_assoc. reflexivity.
      * rewrite targets_cons_ne by exact Hne. apply Hnb.
        rewrite (get_neighbours_add_edge_other g a b g1 v Hwf Ha Hb' Hadd Hne).
        exact Hold.
Qed.

(** *** Reserved capacity *)

Lemma get_or_add_vert_reserved g v n :
  wf g → reserved g n →
  (length (Digraph.vert_id_map g ++ first_seen (Digraph.vert_id_map g) [v]) ≤ n)%nat →
  reserved (Digraph.get_or_add_vert g v).2 n.
Proof.
  intros Hwf (Hg & Hv) Hlen. unfold Digraph.get_or_add_vert.
  destruct (Digraph.id_vert_map g !! v) as [i |] eqn:E;
    [split; assumption |].
  assert (v ∉ Digraph.vert_id_map g) as Hnew.
  { intros Hin. apply (wf_registered_elem g v Hwf) in Hin as [i Hi']. congruence. }
  cbn [first_seen] in Hlen. rewrite decide_False in Hlen by exact Hnew.
  rewrite length_app in Hlen. cbn [length] in Hlen.
  unfold reserved, Digraph.grow. cbn [snd Digraph.graph_capacity
    Digraph.vert_id_capacity].
  rewrite (wf_len g Hwf), Hg, Hv.
  destruct (Nat.ltb_spec (length (Digraph.vert_id_map g)) n) as [_ | ?]; [| lia].
  split; reflexivity.
Qed.

(** With room for the ids of the edge, the rows stay where they are. *)
Lemma add_edge_room g v w n :
  wf g → v < UINT_RANGE → w < UINT_RANGE → reserved g n →
  (length (Digraph.vert_id_map g ++ first_seen (Digraph.vert_id_map g) [v; w]) ≤ n)%nat →
  Digraph.regrows (Digraph.get_or_add_vert g v).2 w = false.
Proof.
  intros Hwf Hv Hw Hres Hlen.
  change [v; w] with ([v] ++ [w]) in Hlen.
  rewrite first_seen_app, app_assoc in Hlen.
  rewrite <- (get_or_add_vert_ids g v Hwf) in Hlen.
  assert (reserved (Digraph.get_or_add_vert g v).2 n) as [Hres1 _].
  { apply get_or_add_vert_reserved; [exact Hwf | exact Hres |].
    rewrite <- get_or_add_vert_ids by exact Hwf.
    rewrite length_app in Hlen. lia. }
  pose proof (wf_get_or_add_vert g v Hwf Hv) as Hwf1.
  set (g1 := (Digraph.get_or_add_vert g v).2) in *.
  unfold Digraph.regrows.
  destruct (Digraph.id_vert_map g1 !! w) as [i |] eqn:E; [reflexivity |].
  assert (w ∉ Digraph.vert_id_map g1) as Hnew.
  { intros Hin. apply (wf_registered_elem g1 w Hwf1) in Hin as [i Hi']. congruence. }
  cbn [first_seen] in Hlen. rewrite decide_False in Hlen by exact Hnew.
  rewrite length_app in Hlen. cbn [length] in Hlen.
  rewrite (wf_len g1 Hwf1), Hres1.
  apply negb_false_iff, Nat.ltb_lt. lia.
Qed.

Lemma add_edge_reserved g v w g' n :
  wf g → v < UINT_RANGE → w < UINT_RANGE → reserved g n →
  (length (Digraph.vert_id_map g ++ first_seen (Digraph.vert_id_map g) [v; w]) ≤ n)%nat →
  Digraph.add_edge g v w = Ok g' → reserved g' n.
Proof.
  intros Hwf Hv Hw Hres Hlen Hadd.
  destruct (add_edge_Ok g v w g' Hwf Hv Hw Hadd) as (nb & _ & Heq).
  rewrite Heq in Hadd. injection Hadd as <-.
  change [v; w] with ([v] ++ [w]) in Hlen.
  rewrite first_seen_app, app_assoc in Hlen.
  rewrite <- (get_or_add_vert_ids g v Hwf) in Hlen.
  assert (reserved (Digraph.get_or_add_vert g v).2 n) as Hres1.
  { apply get_or_add_vert_reserved; [exact Hwf | exact Hres |].
    rewrite <- get_or_add_vert_ids by exact Hwf.
    rewrite length_app in Hlen. lia. }
  pose proof (get_or_add_vert_reserved _ w n (wf_get_or_add_vert g v Hwf Hv)
                Hres1 Hlen) as Hres2.
  exact Hres2.
Qed.

Lemma endpoints_app (l1 l2 : list (N * N)) :
  endpoints (l1 ++ l2) = endpoints l1 ++ endpoints l2.
Proof.
  induction l1 as [| [v w] l1 IH]; [reflexivity |].
  cbn [app endpoints]. rewrite IH. reflexivity.
Qed.

(** With room for every id of the edges, every [add_edge] returns and no
    vector is reallocated. *)
Lemma add_edges_reserved n (edges : list (N * N)) g :
  wf g → reserved g n → edges_bounded edges →
  (length (Digraph.vert_id_map g
           ++ first_seen (Digraph.vert_id_map g) (endpoints edges)) ≤ n)%nat →
  ∃ g', add_edges g edges = Ok g' ∧ reserved g' n.
Proof.
  intros Hwf Hres Hb. revert g Hwf Hres.
  induction Hb as [| [v w] edges [Hv Hw] _ IH]; intros g Hwf Hres Hlen;
    [exists g; split; [reflexivity | exact Hres] |].
  cbn [fst snd] in *. cbn [add_edges endpoints] in *.
  change (v :: w :: endpoints edges) with ([v; w] ++ endpoints edges) in Hlen.
  rewrite first_seen_app, app_assoc in Hlen.
  assert (length (Digraph.vert_id_map g
                  ++ first_seen (Digraph.vert_id_map g) [v; w]) ≤ n)%nat
    as Hlen1 by (rewrite length_app in Hlen; lia).
  destruct (add_edge_stays g v w Hwf Hv Hw
              (add_edge_room g v w n Hwf Hv Hw Hres Hlen1)) as [g1 Hadd].
  rewrite Hadd. cbn [mbind outcome_bind].
  destruct (add_edge_tables g v w _ Hwf Hv Hw Hadd) as (Hids & _).
  rewrite <- Hids in Hlen.
  apply IH.
  - exact (wf_add_edge g v w _ Hwf Hv Hw Hadd).
  - exact (add_edge_reserved g v w _ n Hwf Hv Hw Hres Hlen1 Hadd).
  - exact Hlen.
Qed.

Lemma reserved_reset n : reserved (Digraph.reset_graph_size Digraph.empty n) n.
Proof. split; reflexivity. Qed.

(** The graph of a client that reserves [n] rows, at least one for each
    id of [edges], and adds the edges. *)
Lemma add_edges_reset n edges :
  edges_bounded edges → (vertices_of edges ≤ n)%nat →
  ∃ g, add_edges (Digraph.reset_graph_size Digraph.empty n) edges = Ok g
    ∧ reachable g ∧ reserved g n
    ∧ Digraph.vert_id_map g = first_seen [] (endpoints edges)
    ∧ ∀ v, Digraph.get_neighbours g v = Ok (targets edges v).
Proof.
  intros Hb Hn.
  set (g0 := Digraph.reset_graph_size Digraph.empty n).
  assert (reachable g0) as Hg0 by (apply reachable_reserve, reachable_empty).
  destruct (add_edges_reserved n edges g0 (reachable_wf g0 Hg0)
              (reserved_reset n) Hb Hn) as (g & Hg & Hres).
  destruct (add_edges_spec g0 edges g (reachable_wf g0 Hg0) Hb Hg)
    as (_ & Hids & Hnb).
  exists g. split; [exact Hg |].
  split; [exact (add_edges_reachable g0 edges g Hg0 Hb Hg) |].
  split; [exact Hres |]. split; [exact Hids |].
  intros v. apply (Hnb v []). reflexivity.
Qed.

Lemma first_seen_set (l : list N) :
  length (first_seen [] l) = size (list_to_set l : gset N).
Proof.
  pose proof (NoDup_first_seen [] l (NoDup_nil_2)) as Hnd. cbn in Hnd.
  rewrite <- (size_list_to_set (C := gset N) (first_seen [] l) Hnd).
  f_equal. apply set_eq. intros x. rewrite !elem_of_list_to_set.
  pose proof (elem_of_first_seen [] l x) as H. cbn in H. rewrite H.
  split; [intros [Hx | Hx]; [inversion Hx | exact Hx] | auto].
Qed.

(** ** Decimal text *)

Lemma append_assoc (a b c : string) :
  String.append (String.append a b) c = String.append a (String.append b c).
Proof.
  induction a as [| x a IH]; [reflexivity |].
  change (String x (String.append (String.append a b) c)
          = String x (String.append a (String.append b c))).
  f_equal. exact IH.
Qed.

Lemma append_empty_r (a : string) : String.append a EmptyString = a.
Proof.
  induction a as [| x a IH]; [reflexivity |].
  change (String x (String.append a EmptyString) = String x a).
  f_equal. exact IH.
Qed.

Lemma append_cons (c : Ascii.ascii) (s rest : string) :
  String.append (String c s) rest = String c (String.append s rest).
Proof. reflexivity. Qed.

Lemma leading_digits_decimal (d : Decimal.uint) (rest : string) :
  leading_digits (String.append (DecimalString.NilEmpty.string_of_uint d) rest)
  = digits_of d ++ leading_digits rest.
Proof.
  induction d as [| d IH | d IH | d IH | d IH | d IH | d IH | d IH | d IH
                  | d IH | d IH]; cbn [DecimalString.NilEmpty.string_of_uint
                                         digits_of app];
    [reflexivity | ..];
    rewrite append_cons; cbn; rewrite IH; reflexivity.
Qed.

(** The digits read from the left give the value of the numeral. *)
Lemma digits_of_value (d d' : Decimal.uint) :
  fold_left (λ acc x, 10 * acc + x) (digits_of d) (DecimalPos.Unsigned.of_lu d')
  = DecimalPos.Unsigned.of_lu (Decimal.revapp d d').
Proof.
  revert d'.
  induction d as [| d IH | d IH | d IH | d IH | d IH | d IH | d IH | d IH
                  | d IH | d IH]; intros d'; cbn [digits_of fold_left Decimal.revapp];
    [reflexivity | ..];
    rewrite <- IH; f_equal; cbn [DecimalPos.Unsigned.of_lu]; lia.
Qed.

Lemma digits_of_to_uint (n : N) :
  fold_left (λ acc x, 10 * acc + x) (digits_of (N.to_uint n)) 0 = n.
Proof.
  pose proof (digits_of_value (N.to_uint n) Decimal.Nil) as H.
  cbn [DecimalPos.Unsigned.of_lu] in H. rewrite H.
  change (Decimal.revapp (N.to_uint n) Decimal.Nil)
    with (Decimal.rev (N.to_uint n)).
  rewrite <- DecimalPos.Unsigned.of_uint_alt.
  apply DecimalN.Unsigned.of_to.
Qed.

Lemma to_uint_nonnil (n : N) : N.to_uint n ≠ Decimal.Nil.
Proof.
  destruct n as [| p]; cbn; [discriminate |].
  apply DecimalPos.Unsigned.to_uint_nonnil.
Qed.

Lemma to_decimal_digits (n : N) (rest : string) :
  leading_digits (String.append (to_decimal n) rest)
  = digits_of (N.to_uint n) ++ leading_digits rest.
Proof.
  unfold to_decimal, DecimalString.NilZero.string_of_uint.
  pose proof (to_uint_nonnil n) as Hn.
  destruct (N.to_uint n) eqn:E; try contradiction;
    rewrite <- E; apply leading_digits_decimal.
Qed.

Lemma digits_of_nonnil (d : Decimal.uint) : d ≠ Decimal.Nil → digits_of d ≠ [].
Proof. destruct d; cbn; congruence. Qed.

Lemma from_chars_decimal (n : N) (rest : string) :
  leading_digits rest = [] →
  from_chars (String.append (to_decimal n) rest)
  = if n <=? UINT_MAX then Some n else None.
Proof.
  intros Hrest. unfold from_chars.
  rewrite to_decimal_digits, Hrest, app_nil_r.
  pose proof (digits_of_nonnil _ (to_uint_nonnil n)) as Hne.
  pose proof (digits_of_to_uint n) as Hval.
  destruct (digits_of (N.to_uint n)) as [| x l]; [contradiction |].
  rewrite Hval. reflexivity.
Qed.

(** ** The dump *)

Lemma print_neighbours_spec g (row names : list N) (out : string) :
  map_each (at_index (Digraph.vert_id_map g)) row = Ok names →
  for_each (print_neighbour g) row out
  = Ok (out +:+ flatten ((λ n, to_decimal n +:+ " ") <$> names)).
Proof.
  revert names out. induction row as [| n row IH]; intros names out Hnames.
  - injection Hnames as <-. cbn. rewrite append_empty_r. reflexivity.
  - cbn in Hnames.
    destruct (at_index (Digraph.vert_id_map g) n) as [id | | |] eqn:Hid;
      cbn in Hnames; try discriminate.
    destruct (map_each (at_index (Digraph.vert_id_map g)) row) as [ids | | |];
      cbn in Hnames; try discriminate.
    injection Hnames as <-.
    cbn [for_each].
    assert (print_neighbour g out n = Ok (out +:+ to_decimal id +:+ " ")) as ->
      by (unfold print_neighbour; rewrite Hid; reflexivity).
    cbn [mbind outcome_bind]. rewrite (IH ids _ eq_refl).
    cbn [fmap list_fmap flatten foldr]. rewrite !append_assoc. reflexivity.
Qed.

Lemma print_row_spec g (out : string) (i : nat) (id : N) :
  wf g → Digraph.vert_id_map g !! i = Some id →
  ∃ names, Digraph.get_neighbours g id = Ok names
           ∧ print_row g out i = Ok (out +:+ render_row id names).
Proof.
  intros Hwf Hid.
  pose proof (wf_bwd g Hwf i id Hid) as Hmap.
  pose proof (lookup_lt_Some _ _ _ Hid) as Hlt. rewrite <- (wf_len g Hwf) in Hlt.
  apply lookup_lt_is_Some_2 in Hlt as [row Hrow].
  destruct (neighbour_ids_total g i row Hwf Hrow) as [names Hnames].
  assert (at_index (Digraph.graph g) (N.of_nat i) = Ok row) as Hat
    by (apply at_index_Ok; rewrite Nat2N.id; exact Hrow).
  exists names. split.
  - unfold Digraph.get_neighbours. rewrite Hmap, Hat. exact Hnames.
  - unfold print_row.
    assert (at_index (Digraph.vert_id_map g) (N.of_nat i) = Ok id) as ->
      by (apply at_index_Ok; rewrite Nat2N.id; exact Hid).
    rewrite Hat. cbn [mbind outcome_bind].
    rewrite (print_neighbours_spec g row names _ Hnames).
    cbn [mbind outcome_bind]. unfold render_row.
    rewrite !append_assoc. reflexivity.
Qed.

Lemma print_rows_spec g (ids : list N) (k : nat) (out : string) :
  wf g → drop k (Digraph.vert_id_map g) = ids →
  ∃ rows, Forall2 (λ id row, Digraph.get_neighbours g id = Ok row) ids rows
          ∧ for_each (print_row g) (seq k (length ids)) out
            = Ok (out +:+ flatten (zip_with render_row ids rows)).
Proof.
  intros Hwf. revert k out. induction ids as [| id ids IH]; intros k out Hdrop.
  - exists []. split; [constructor |]. cbn. rewrite append_empty_r. reflexivity.
  - assert (Digraph.vert_id_map g !! k = Some id) as Hid.
    { rewrite <- (Nat.add_0_r k), <- lookup_drop, Hdrop. reflexivity. }
    assert (drop (S k) (Digraph.vert_id_map g) = ids) as Hdrop'.
    { rewrite (drop_S _ _ _ Hid) in Hdrop. congruence. }
    destruct (print_row_spec g out k id Hwf Hid) as (names & Hnames & Hrow).
    destruct (IH (S k) (out +:+ render_row id names) Hdrop')
      as (rows & Hrows & Hrun).
    exists (names :: rows). split; [constructor; assumption |].
    cbn [length seq for_each]. rewrite Hrow. cbn [mbind outcome_bind].
    rewrite Hrun. cbn [zip_with flatten foldr]. rewrite append_assoc.
    reflexivity.
Qed.

(** ** The search, with lengths *)

(** The three ways a neighbour is handled. *)
Lemma visit_cases vert st to st' :
  SCA.visit vert st to = Ok st' →
  ∃ cto cv, coloured st to cto ∧ coloured st vert cv
    ∧ ((cto = 0
        ∧ ∃ dv, SCA.distance st !! N.to_nat vert = Some dv
          ∧ (N.to_nat to < length (SCA.distance st))%nat
          ∧ st' = SCA.mk (<[N.to_nat to := to_unsigned (dv + 1)]> (SCA.distance st))
                    (<[N.to_nat to := cv]> (SCA.color st))
                    (SCA.queue st ++ [to])
                    (SCA.min_distance st) (SCA.min_distance_ancestor st))
       ∨ (cto ≠ 0 ∧ cto ≠ cv
          ∧ ∃ dto dv, SCA.distance st !! N.to_nat to = Some dto
            ∧ SCA.distance st !! N.to_nat vert = Some dv
            ∧ let current := to_unsigned (to_unsigned (dto + dv) + 1) in
              (current < SCA.min_distance st
               ∧ st' = SCA.mk (SCA.distance st) (SCA.color st) (SCA.queue st)
                         current to)
              ∨ (SCA.min_distance st ≤ current ∧ st' = st))
       ∨ (cto ≠ 0 ∧ cto = cv ∧ st' = st)).
Proof.
  unfold SCA.visit, SCA.assign. intros H.
  destruct (at_index (SCA.color st) to) as [cto | | |] eqn:Hcto;
    cbn in H; try discriminate.
  apply at_index_Ok in Hcto.
  destruct (N.eqb_spec cto 0) as [-> | Hne].
  - destruct (at_index (SCA.color st) vert) as [cv | | |] eqn:Hcv;
      cbn in H; try discriminate.
    apply at_index_Ok in Hcv.
    destruct (at_index (SCA.distance st) vert) as [dv | | |] eqn:Hdv;
      cbn in H; try discriminate.
    destruct (at_index (SCA.distance st) to) as [dto | | |] eqn:Hdto;
      cbn in H; try discriminate.
    apply at_index_Ok in Hdv. apply at_index_Ok in Hdto.
    injection H as <-. exists 0, cv. split; [exact Hcto |]. split; [exact Hcv |].
    left. split; [reflexivity |]. exists dv. split; [exact Hdv |].
    split; [eapply lookup_lt_Some; eauto | reflexivity].
  - destruct (at_index (SCA.color st) vert) as [cv | | |] eqn:Hcv;
      cbn in H; try discriminate.
    apply at_index_Ok in Hcv.
    exists cto, cv. split; [exact Hcto |]. split; [exact Hcv |]. right.
    destruct (N.eqb_spec cto cv) as [-> | Hdiff]; cbn in H.
    + right. injection H as <-. auto.
    + left. split; [exact Hne |]. split; [exact Hdiff |].
      destruct (at_index (SCA.distance st) to) as [dto | | |] eqn:Hdto;
        cbn in H; try discriminate.
      destruct (at_index (SCA.distance st) vert) as [dv | | |] eqn:Hdv;
        cbn in H; try discriminate.
      apply at_index_Ok in Hdto. apply at_index_Ok in Hdv.
      exists dto, dv. split; [exact Hdto |]. split; [exact Hdv |]. cbn.
      destruct (N.ltb_spec (to_unsigned (to_unsigned (dto + dv) + 1))
                  (SCA.min_distance st)) as [Hlt | Hge];
        injection H as <-; [left | right]; auto.
Qed.

Lemma zeros_lt_length (l : list N) (k : nat) (c : N) :
  l !! k = Some c → c ≠ 0 → (zeros l < length l)%nat.
Proof.
  unfold zeros. revert k. induction l as [| x l IH]; intros k Hk Hc.
  - discriminate.
  - rewrite filter_cons. destruct k as [| k]; cbn in Hk.
    + injection Hk as ->. rewrite decide_False by exact Hc.
      pose proof (length_filter (λ c : N, c = 0) l). cbn. lia.
    + specialize (IH k Hk Hc). destruct (decide (x = 0)); cbn; lia.
Qed.

Lemma extends_refl st : extends st st.
Proof. split; [auto | split; [reflexivity | split; auto]]. Qed.

Lemma extends_trans st1 st2 st3 :
  extends st1 st2 → extends st2 st3 → extends st1 st3.
Proof.
  intros (Hc1 & Hm1 & Hq1 & Hd1) (Hc2 & Hm2 & Hq2 & Hd2).
  split; [auto |]. split; [etransitivity; eauto |]. split; [auto |].
  intros j c d Hj Hc Hd. apply (Hd2 j c); auto. apply (Hd1 j c); auto.
Qed.

Lemma settled_extends st st' u cu v :
  extends st st' → coloured st u cu → cu ≠ 0 →
  settled st u cu v → settled st' u cu v.
Proof.
  intros (Hc & Hm & _ & Hd) Hu Hcu
         (cv & du & dv & Hcv & Hne & Hdu & Hdv & Hle & Hmin).
  exists cv, du, dv. split; [apply Hc; assumption |]. split; [exact Hne |].
  split; [apply (Hd u cu); assumption |].
  split; [apply (Hd v cv); assumption |]. split; [exact Hle |].
  intros Hdiff. specialize (Hmin Hdiff). lia.
Qed.

Lemma visit_extends vert st to st' :
  SCA.visit vert st to = Ok st' → extends st st'.
Proof.
  intros H. apply visit_cases in H as (cto & cv & Hcto & Hcv & Hcase).
  destruct Hcase as [(-> & dv & Hdv & Hlt & ->)
                    | [(Hne & Hdiff & dto & dv & Hdto & Hdv & Hcur)
                      | (_ & _ & ->)]].
  - assert (∀ j c, coloured st j c → c ≠ 0 → N.to_nat to ≠ N.to_nat j) as Hfar.
    { intros j c Hj Hc Heq. apply N2Nat.inj in Heq. subst j.
      unfold coloured in *. congruence. }
    split; [| split; [reflexivity | split]]; cbn.
    + intros j c Hj Hc. unfold coloured in *. cbn.
      rewrite list_lookup_insert_ne; [exact Hj | eapply Hfar; eauto].
    + intros; apply elem_of_app; auto.
    + intros j c d Hj Hc Hd.
      rewrite list_lookup_insert_ne; [exact Hd | eapply Hfar; eauto].
  - cbn in Hcur. destruct Hcur as [[Hlt ->] | [_ ->]]; [| apply extends_refl].
    split; [auto |]. split; [cbn; lia |]. split; auto.
  - apply extends_refl.
Qed.

Lemma visit_all_extends vert (l : list N) st st' :
  for_each (SCA.visit vert) l st = Ok st' → extends st st'.
Proof.
  revert st. induction l as [| to l IH]; intros st H; cbn in H.
  - injection H as <-. apply extends_refl.
  - destruct (SCA.visit vert st to) as [st1 | | |] eqn:Hv; cbn in H;
      try discriminate.
    eapply extends_trans; [eapply visit_extends; eauto | apply IH, H].
Qed.

Section Lengths.

Context (g : Digraph) (A B : list N).
Hypothesis Hwf : wf g.
Hypothesis Hsize : 2 * N.of_nat (Digraph.size g) < UINT_RANGE.

Lemma measured_min_le st :
  measured g A B st → SCA.min_distance st ≤ UINT_MAX.
Proof. intros [_ [[-> _] | (na & nb & _ & Hlt & _)]]; lia. Qed.

Lemma from_n_step X i j n : from_n g X i n → dedge g i j → from_n g X j (S n).
Proof.
  intros (s & k & Hs & Hk & Hr) He. exists s, k.
  split; [exact Hs |]. split; [exact Hk |]. eapply nsteps_r; eauto.
Qed.

(** The length recorded at a meeting, without wrap-around. *)
Lemma current_distance_exact st (n1 n2 : nat) :
  inv g A B st →
  (n1 + zeros (SCA.color st) < length (SCA.color st))%nat →
  (n2 + zeros (SCA.color st) < length (SCA.color st))%nat →
  to_unsigned (to_unsigned (N.of_nat n1 + N.of_nat n2) + 1)
  = N.of_nat (n1 + n2 + 1)
  ∧ N.of_nat (n1 + n2 + 1) < UINT_MAX.
Proof.
  intros Hinv H1 H2. rewrite (inv_color_len _ _ _ _ Hinv) in H1, H2.
  unfold UINT_RANGE, UINT_MAX in *.
  rewrite (to_unsigned_small (N.of_nat n1 + N.of_nat n2))
    by (unfold UINT_RANGE; lia).
  rewrite to_unsigned_small by (unfold UINT_RANGE; lia).
  split; lia.
Qed.

Lemma visit_measured st vert to cv st' :
  inv g A B st → measured g A B st → coloured st vert cv → cv ≠ 0 →
  dedge g vert to → SCA.visit vert st to = Ok st' → measured g A B st'.
Proof.
  intros Hinv Hm Hvert Hcv Hedge H.
  pose proof (measured_min_le st Hm) as Hle.
  destruct Hm as [Hdist Hmin].
  apply visit_cases in H as (cto & cv' & Hcto & Hcv' & Hcase).
  assert (cv' = cv) as -> by (unfold coloured in *; congruence).
  destruct (Hdist vert cv Hvert Hcv) as (nv & Hnv & Hbv & Hfv).
  destruct Hcase as [(-> & dv & Hdv & Hlt & ->)
                    | [(Hne & Hdiff & dto & dv & Hdto & Hdv & Hcur)
                      | (_ & _ & ->)]].
  - (* the neighbour is coloured *)
    assert (dv = N.of_nat nv) as -> by congruence.
    pose proof (zeros_insert (SCA.color st) (N.to_nat to) cv Hcto Hcv) as Hz.
    split; cbn; [| exact Hmin].
    intros j c Hj Hc. unfold coloured in Hj. cbn in Hj.
    rewrite length_insert. destruct (decide (j = to)) as [-> | Hjt].
    + rewrite list_lookup_insert_eq in Hj by (eapply lookup_lt_Some; eauto).
      injection Hj as <-. exists (S nv). split; [| split].
      * rewrite list_lookup_insert_eq by exact Hlt. f_equal.
        rewrite to_unsigned_small; [lia |].
        rewrite (inv_color_len _ _ _ _ Hinv) in Hbv.
        unfold UINT_RANGE in *. lia.
      * unfold zeros in *. lia.
      * apply (from_n_step _ vert); assumption.
    + rewrite list_lookup_insert_ne in Hj by distinct_index.
      destruct (Hdist j c Hj Hc) as (n & Hn & Hb & Hf).
      exists n. split; [| split; [unfold zeros in *; lia | exact Hf]].
      rewrite list_lookup_insert_ne by distinct_index. exact Hn.
  - (* a meeting *)
    cbn in Hcur. destruct Hcur as [[Hlt ->] | [_ ->]];
      [| split; assumption].
    split; cbn; [exact Hdist |]. right.
    destruct (Hdist to cto Hcto Hne) as (nt & Hnt & Hbt & Hft).
    assert (dto = N.of_nat nt) as -> by congruence.
    assert (dv = N.of_nat nv) as -> by congruence.
    destruct (current_distance_exact st nt nv Hinv Hbt Hbv) as [Heq Hmax].
    rewrite Heq in *.
    destruct (inv_color _ _ _ _ Hinv to cto Hcto) as [? | [[-> _] | [-> _]]];
      [contradiction | |];
      (destruct (inv_color _ _ _ _ Hinv vert cv Hvert) as [? | [[-> _] | [-> _]]];
       [contradiction | |]); try contradiction.
    + exists nt, (S nv). split; [f_equal; lia |]. split; [exact Hmax |].
      split; [exact Hft | apply (from_n_step _ vert); assumption].
    + exists (S nv), nt. split; [f_equal; lia |]. split; [exact Hmax |].
      split; [apply (from_n_step _ vert); assumption | exact Hft].
  - split; assumption.
Qed.

Lemma visit_settled st vert to cv lo st' :
  inv g A B st → measured g A B st → levelled st lo →
  SCA.distance st !! N.to_nat vert = Some lo →
  coloured st vert cv → cv ≠ 0 →
  dedge g vert to → SCA.visit vert st to = Ok st' → settled st' vert cv to.
Proof.
  intros Hinv Hm Hlev Hlo Hvert Hcv Hedge H.
  pose proof (measured_min_le st Hm) as Hle.
  destruct Hm as [Hdist Hmin].
  apply visit_cases in H as (cto & cv' & Hcto & Hcv' & Hcase).
  assert (cv' = cv) as -> by (unfold coloured in *; congruence).
  destruct (Hdist vert cv Hvert Hcv) as (nv & Hnv & Hbv & _).
  assert (lo = N.of_nat nv) as -> by congruence.
  destruct Hcase as [(-> & dv & Hdv & Hlt & ->)
                    | [(Hne & Hdiff & dto & dv & Hdto & Hdv & Hcur)
                      | (Hne & -> & ->)]].
  - exists cv, dv, (to_unsigned (dv + 1)).
    split; [unfold coloured; cbn; apply list_lookup_insert_eq;
            eapply lookup_lt_Some; eauto |].
    split; [exact Hcv |]. cbn.
    split; [| split; [| split; [apply N.Div0.mod_le | congruence]]].
    + rewrite list_lookup_insert_ne; [exact Hdv |]. intros Heq.
      apply N2Nat.inj in Heq. subst vert. unfold coloured in *. congruence.
    + apply list_lookup_insert_eq, Hlt.
  - destruct (Hdist to cto Hcto Hne) as (nt & Hnt & Hbt & _).
    assert (dto = N.of_nat nt) as -> by congruence.
    assert (dv = N.of_nat nv) as -> by congruence.
    destruct (current_distance_exact st nt nv Hinv Hbt Hbv) as [Heq Hmax].
    pose proof (levelled_all _ _ Hlev to cto _ Hcto Hne Hnt) as Hnear.
    cbn in Hcur. rewrite Heq in Hcur.
    exists cto, (N.of_nat nv), (N.of_nat nt).
    destruct Hcur as [[Hlt ->] | [Hge ->]];
      (split; [exact Hcto |]); (split; [exact Hne |]);
      (split; [exact Hnv |]); (split; [exact Hnt |]);
      (split; [exact Hnear |]); intros _; cbn; lia.
  - destruct (Hdist to cv Hcto Hcv) as (nt & Hnt & _).
    exists cv, (N.of_nat nv), (N.of_nat nt).
    split; [exact Hcto |]. split; [exact Hcv |].
    split; [exact Hnv |]. split; [exact Hnt |].
    split; [exact (levelled_all _ _ Hlev to cv _ Hcto Hcv Hnt) | congruence].
Qed.

Lemma visit_levelled st vert to cv lo st' :
  inv g A B st → measured g A B st → levelled st lo →
  SCA.distance st !! N.to_nat vert = Some lo →
  coloured st vert cv → cv ≠ 0 →
  SCA.visit vert st to = Ok st' → levelled st' lo.
Proof.
  intros Hinv Hm Hlev Hlo Hvert Hcv H.
  destruct (measured_distance _ _ _ _ Hm vert cv Hvert Hcv)
    as (nv & Hnv & Hbv & _).
  assert (lo = N.of_nat nv) as Elo by congruence.
  apply visit_cases in H as (cto & cv' & Hcto & Hcv' & Hcase).
  assert (cv' = cv) as -> by (unfold coloured in *; congruence).
  destruct Hcase as [(-> & dv & Hdv & Hlt & ->)
                    | [(Hne & Hdiff & dto & dv & Hdto & Hdv & Hcur)
                      | (_ & _ & ->)]]; [| | exact Hlev].
  - assert (dv = lo) as -> by congruence.
    assert (to_unsigned (lo + 1) = lo + 1) as Hnext.
    { apply to_unsigned_small. rewrite (inv_color_len _ _ _ _ Hinv) in Hbv.
      unfold UINT_RANGE in *. lia. }
    rewrite Hnext.
    assert (∀ j c, coloured st j c → c ≠ 0 → N.to_nat to ≠ N.to_nat j) as Hfar.
    { intros j c Hj Hc Heq. apply N2Nat.inj in Heq. subst j.
      unfold coloured in *. congruence. }
    assert (∀ j, j ∈ SCA.queue st → N.to_nat to ≠ N.to_nat j) as Hfarq.
    { intros j Hj. destruct (inv_queue _ _ _ _ Hinv j Hj) as (c & Hc & Hc0).
      eapply Hfar; eauto. }
    destruct Hlev as [Hall Hdone Hqueue Hsorted].
    assert (∀ j c d, c ≠ 0 →
              <[N.to_nat to := cv]> (SCA.color st) !! N.to_nat j = Some c →
              <[N.to_nat to := lo + 1]> (SCA.distance st) !! N.to_nat j = Some d →
              (j = to ∧ d = lo + 1)
              ∨ (j ≠ to ∧ coloured st j c
                 ∧ SCA.distance st !! N.to_nat j = Some d)) as Hsplit.
    { intros j c d Hc Hj Hd. destruct (decide (j = to)) as [-> | Hjt].
      - left. split; [reflexivity |].
        rewrite list_lookup_insert_eq in Hd by exact Hlt. congruence.
      - right. rewrite list_lookup_insert_ne in Hj by distinct_index.
        rewrite list_lookup_insert_ne in Hd by distinct_index. auto. }
    split; unfold coloured; cbn.
    + intros j c d Hj Hc Hd.
      destruct (Hsplit j c d Hc Hj Hd) as [[_ ->] | (_ & Hj' & Hd')];
        [lia | eauto].
    + intros j c d Hj Hc Hnq Hd.
      destruct (Hsplit j c d Hc Hj Hd) as [[-> _] | (_ & Hj' & Hd')].
      * destruct Hnq. apply elem_of_app. right. left.
      * apply (Hdone j c d Hj' Hc); [| exact Hd'].
        intros Hq. apply Hnq, elem_of_app. auto.
    + intros j d Hj Hd. apply elem_of_app in Hj as [Hj | Hj].
      * rewrite list_lookup_insert_ne in Hd by (apply Hfarq, Hj). eauto.
      * apply list_elem_of_singleton in Hj as ->.
        rewrite list_lookup_insert_eq in Hd by exact Hlt.
        injection Hd as <-. lia.
    + intros i1 i2 j1 j2 d1 d2 Hi H1 H2 Hd1 Hd2.
      assert (d1 ≤ lo + 1) as Hd1le.
      { apply lookup_app_Some in H1 as [H1 | [_ H1]].
        - apply list_elem_of_lookup_2 in H1.
          rewrite list_lookup_insert_ne in Hd1 by (apply Hfarq, H1).
          destruct (inv_queue _ _ _ _ Hinv j1 H1) as (c & Hc & Hc0). eauto.
        - apply list_lookup_singleton_Some in H1 as [_ <-].
          rewrite list_lookup_insert_eq in Hd1 by exact Hlt.
          injection Hd1 as <-. lia. }
      apply lookup_app_Some in H2 as [H2 | [Hlen H2]].
      * pose proof (lookup_lt_Some _ _ _ H2) as Hi2.
        rewrite lookup_app_l in H1 by lia.
        pose proof (list_elem_of_lookup_2 _ _ _ H1) as Hq1.
        pose proof (list_elem_of_lookup_2 _ _ _ H2) as Hq2.
        rewrite list_lookup_insert_ne in Hd1 by (apply Hfarq, Hq1).
        rewrite list_lookup_insert_ne in Hd2 by (apply Hfarq, Hq2).
        eauto.
      * apply list_lookup_singleton_Some in H2 as [_ <-].
        rewrite list_lookup_insert_eq in Hd2 by exact Hlt.
        injection Hd2 as <-. exact Hd1le.
  - cbn in Hcur. destruct Hcur as [[_ ->] | [_ ->]]; [| exact Hlev].
    destruct Hlev as [Hall Hdone Hqueue Hsorted]. split; assumption.
Qed.

Lemma visit_closed_but st vert to st' :
  closed_but g st vert → SCA.visit vert st to = Ok st' →
  closed_but g st' vert.
Proof.
  intros Hclosed H. pose proof (visit_extends vert st to st' H) as Hext.
  pose proof H as Hcases.
  apply visit_cases in Hcases as (cto & cv & Hcto & Hcv & Hcase).
  intros u cu Hu Hcu.
  assert (coloured st u cu ∨ u ∈ SCA.queue st') as [Hold | Hnew].
  { destruct Hcase as [(-> & dv & Hdv & Hlt & ->)
                      | [(Hne & Hdiff & dto & dv & Hdto & Hdv & Hcur)
                        | (_ & _ & ->)]].
    - destruct (decide (u = to)) as [-> | Hne].
      + right. cbn. apply elem_of_app. right. left.
      + left. unfold coloured in *. cbn in Hu.
        rewrite list_lookup_insert_ne in Hu by distinct_index. exact Hu.
    - cbn in Hcur. destruct Hcur as [[_ ->] | [_ ->]]; left; exact Hu.
    - left. exact Hu. }
  - destruct (Hclosed u cu Hold Hcu) as [Hq | [-> | Hexp]].
    + left. apply Hext, Hq.
    + right. left. reflexivity.
    + right. right. intros v Hv. eapply settled_extends; eauto.
  - left. exact Hnew.
Qed.

Lemma visit_all_lengths vert cv lo (l : list N) st st' :
  inv g A B st → measured g A B st → closed_but g st vert →
  levelled st lo → SCA.distance st !! N.to_nat vert = Some lo →
  coloured st vert cv → cv ≠ 0 → (∀ to, to ∈ l → dedge g vert to) →
  for_each (SCA.visit vert) l st = Ok st' →
  inv g A B st' ∧ measured g A B st' ∧ closed_but g st' vert
  ∧ levelled st' lo
  ∧ coloured st' vert cv ∧ ∀ v, v ∈ l → settled st' vert cv v.
Proof.
  revert st. induction l as [| to l IH];
    intros st Hinv Hm Hcl Hlev Hlo Hvert Hcv Hl H; cbn in H.
  - injection H as <-.
    split; [exact Hinv |]. split; [exact Hm |]. split; [exact Hcl |].
    split; [exact Hlev |].
    split; [exact Hvert |]. intros v Hv. inversion Hv.
  - destruct (visit_inv g A B Hwf st vert to cv Hinv Hvert Hcv)
      as (st1 & Hvisit & Hinv1 & Hvert1 & _); [apply Hl; left |].
    rewrite Hvisit in H. cbn in H.
    assert (dedge g vert to) as Hedge by (apply Hl; left).
    pose proof (visit_measured st vert to cv st1 Hinv Hm Hvert Hcv Hedge Hvisit)
      as Hm1.
    pose proof (visit_settled st vert to cv lo st1 Hinv Hm Hlev Hlo Hvert Hcv
                  Hedge Hvisit) as Hset.
    pose proof (visit_levelled st vert to cv lo st1 Hinv Hm Hlev Hlo Hvert Hcv
                  Hvisit) as Hlev1.
    pose proof (visit_closed_but st vert to st1 Hcl Hvisit) as Hcl1.
    assert (SCA.distance st1 !! N.to_nat vert = Some lo) as Hlo1.
    { destruct (visit_extends vert st to st1 Hvisit) as (_ & _ & _ & Hkeep).
      apply (Hkeep vert cv); assumption. }
    destruct (IH st1 Hinv1 Hm1 Hcl1 Hlev1 Hlo1 Hvert1 Hcv)
      as (Hi & Hm' & Hc' & Hl' & Hv' & Hs');
      [intros; apply Hl; right; done | exact H |].
    split; [exact Hi |]. split; [exact Hm' |]. split; [exact Hc' |].
    split; [exact Hl' |]. split; [exact Hv' |].
    intros v Hv. apply elem_of_cons in Hv as [-> | Hv]; [| apply Hs', Hv].
    eapply settled_extends;
      [eapply visit_all_extends; eauto | exact Hvert1 | exact Hcv | exact Hset].
Qed.

Lemma levelled_pop ds cs vert rest md ma lo lo' :
  levelled (SCA.mk ds cs (vert :: rest) md ma) lo →
  ds !! N.to_nat vert = Some lo' →
  levelled (SCA.mk ds cs rest md ma) lo'.
Proof.
  intros [Hall Hdone Hqueue Hsorted] Hlo'. unfold coloured in *. cbn in *.
  assert (lo ≤ lo') as Hle by (apply (Hqueue vert lo'); [left | exact Hlo']).
  split; unfold coloured; cbn.
  - intros j c d Hj Hc Hd. specialize (Hall j c d Hj Hc Hd). lia.
  - intros j c d Hj Hc Hnq Hd. destruct (decide (j = vert)) as [-> | Hne].
    + assert (d = lo') as -> by congruence. reflexivity.
    + assert (d ≤ lo); [| lia]. apply (Hdone j c d Hj Hc); [| exact Hd].
      intros Hin. apply elem_of_cons in Hin as [? | ?]; contradiction.
  - intros j d Hj Hd. apply list_elem_of_lookup in Hj as [i Hi].
    apply (Hsorted 0%nat (S i) vert j lo' d); [lia | reflexivity | | |];
      assumption.
  - intros i1 i2 j1 j2 d1 d2 Hi H1 H2 Hd1 Hd2.
    apply (Hsorted (S i1) (S i2) j1 j2 d1 d2); [lia | | | |]; assumption.
Qed.

Lemma bfs_lengths fuel st st' :
  inv g A B st → measured g A B st → closed g st →
  (∃ lo, levelled st lo) →
  SCA.bfs g fuel st = Ok st' →
  inv g A B st' ∧ measured g A B st' ∧ closed g st'
  ∧ SCA.queue st' = []
  ∧ ∀ j c, coloured st j c → c ≠ 0 →
           coloured st' j c
           ∧ ∀ d, SCA.distance st !! N.to_nat j = Some d →
                  SCA.distance st' !! N.to_nat j = Some d.
Proof.
  revert st. induction fuel as [| fuel IH]; intros st Hinv Hm Hcl [lo Hlev] H;
    destruct st as [ds cs q md ma]; destruct q as [| vert rest];
    cbn [SCA.bfs SCA.queue SCA.distance SCA.color SCA.min_distance
         SCA.min_distance_ancestor] in H; try discriminate.
  - injection H as <-.
    split; [exact Hinv |]. split; [exact Hm |]. split; [exact Hcl |]. auto.
  - injection H as <-.
    split; [exact Hinv |]. split; [exact Hm |]. split; [exact Hcl |]. auto.
  - destruct (inv_queue _ _ _ _ Hinv vert) as (cv & Hvert & Hcv); [left |].
    destruct (at_index (Digraph.graph g) vert) as [nb | | |] eqn:Hnb;
      cbn in H; try discriminate.
    apply at_index_Ok in Hnb.
    destruct (for_each (SCA.visit vert) nb (SCA.mk ds cs rest md ma))
      as [st1 | | |] eqn:Hrun; cbn in H; try discriminate.
    assert (inv g A B (SCA.mk ds cs rest md ma)) as Hinv0.
    { destruct Hinv as [Hcl0 Hdl Hq Hcol Hmin]. split; try assumption.
      intros v Hv. apply (Hq v). right. exact Hv. }
    assert (measured g A B (SCA.mk ds cs rest md ma)) as Hm0.
    { destruct Hm as [Hd Hmin]. split; assumption. }
    assert (closed_but g (SCA.mk ds cs rest md ma) vert) as Hcl0.
    { intros u cu Hu Hcu. destruct (Hcl u cu Hu Hcu) as [Hq | Hexp].
      - cbn in Hq. apply elem_of_cons in Hq as [-> | Hq]; auto.
      - right. right. exact Hexp. }
    destruct (measured_distance _ _ _ _ Hm vert cv Hvert Hcv)
      as (nv & Hnv & _).
    cbn [SCA.distance] in Hnv.
    pose proof (levelled_pop ds cs vert rest md ma lo _ Hlev Hnv) as Hlev0.
    destruct (visit_all_lengths vert cv (N.of_nat nv) nb _ st1 Hinv0 Hm0 Hcl0
                Hlev0 Hnv Hvert Hcv)
      as (Hinv1 & Hm1 & Hcl1 & Hlev1 & Hvert1 & Hset); [| exact Hrun |].
    { intros to Hto. exists nb. split; assumption. }
    assert (closed g st1) as Hclosed1.
    { intros u cu Hu Hcu. destruct (Hcl1 u cu Hu Hcu) as [Hq | [-> | Hexp]];
        [left; exact Hq | | right; exact Hexp].
      right. assert (cu = cv) as -> by (unfold coloured in *; congruence).
      intros v (l & Hl & Hv). apply Hset.
      assert (l = nb) as -> by congruence. exact Hv. }
    destruct (IH st1 Hinv1 Hm1 Hclosed1 (ex_intro _ _ Hlev1) H)
      as (Hi & Hm' & Hc' & Hq' & He').
    split; [exact Hi |]. split; [exact Hm' |]. split; [exact Hc' |].
    split; [exact Hq' |].
    pose proof (visit_all_extends vert nb _ st1 Hrun) as (Hc1 & _ & _ & Hd1).
    intros j c Hj Hc.
    assert (coloured st1 j c) as Hj1 by (apply Hc1; assumption).
    destruct (He' j c Hj1 Hc) as [Hcol Hdis]. split; [exact Hcol |].
    intros d Hd. apply Hdis. apply (Hd1 j c); assumption.
Qed.

End Lengths.

(** *** Seeding, once more *)

Lemma queued_initial g : queued (SCA.initial g).
Proof.
  intros j c Hj Hc. unfold coloured in Hj. cbn in Hj.
  apply lookup_replicate in Hj as [-> _]. contradiction.
Qed.

Lemma seed_a_facts g st a st' :
  SCA.seed_a g st a = Ok st' → queued st →
  queued st' ∧ SCA.distance st' = SCA.distance st.
Proof.
  unfold SCA.seed_a, SCA.vert_at, SCA.assign. intros H Hq.
  destruct (Digraph.id_vert_map g !! a) as [j|]; cbn in H; try discriminate.
  destruct (at_index (SCA.color st) j) as [c0 | | |] eqn:Hc0; cbn in H;
    try discriminate.
  injection H as <-. split; [| reflexivity].
  intros k c Hk Hc. cbn. apply elem_of_app.
  destruct (decide (k = j)) as [-> | Hne]; [right; left |].
  left. apply (Hq k c); [| exact Hc]. unfold coloured in *. cbn in Hk.
  rewrite list_lookup_insert_ne in Hk by distinct_index. exact Hk.
Qed.

Lemma seed_a_all_facts g (l : list N) st st' :
  for_each (SCA.seed_a g) l st = Ok st' → queued st →
  queued st' ∧ SCA.distance st' = SCA.distance st.
Proof.
  revert st. induction l as [| a l IH]; intros st H Hq; cbn in H.
  - injection H as <-. auto.
  - destruct (SCA.seed_a g st a) as [st1 | | |] eqn:Ha; cbn in H;
      try discriminate.
    destruct (seed_a_facts g st a st1 Ha Hq) as [Hq1 Hd1].
    destruct (IH st1 H Hq1) as [Hq' Hd']. split; [exact Hq' | congruence].
Qed.

Lemma seed_b_facts g (l : list N) st st' :
  SCA.seed_b g l st = Ok (inr st') → queued st →
  queued st' ∧ SCA.distance st' = SCA.distance st
  ∧ (∀ j, coloured st j 2 → coloured st' j 2)
  ∧ (∀ b, b ∈ l → ∃ j, Digraph.id_vert_map g !! b = Some j ∧ coloured st' j 2).
Proof.
  revert st. induction l as [| b l IH]; intros st H Hq; cbn in H.
  - injection H as <-. repeat split; auto. intros b Hb. inversion Hb.
  - unfold SCA.vert_at, SCA.assign in H.
    destruct (Digraph.id_vert_map g !! b) as [j|] eqn:Hj; cbn in H;
      try discriminate.
    destruct (at_index (SCA.color st) j) as [c | | |] eqn:Hc; cbn in H;
      try discriminate.
    destruct (c =? 1); [discriminate |].
    apply at_index_Ok in Hc. pose proof (lookup_lt_Some _ _ _ Hc) as Hlt.
    match type of H with SCA.seed_b g l ?s = _ => set (st1 := s) in * end.
    assert (queued st1) as Hq1.
    { intros k c' Hk Hc'. unfold st1. cbn. apply elem_of_app.
      destruct (decide (k = j)) as [-> | Hne]; [right; left |].
      left. apply (Hq k c'); [| exact Hc']. unfold coloured, st1 in *. cbn in Hk.
      rewrite list_lookup_insert_ne in Hk by distinct_index. exact Hk. }
    assert (coloured st1 j 2) as Hj2.
    { unfold coloured, st1. cbn. apply list_lookup_insert_eq, Hlt. }
    assert (∀ k, coloured st k 2 → coloured st1 k 2) as Hkeep.
    { intros k Hk. destruct (decide (k = j)) as [-> | Hne]; [exact Hj2 |].
      unfold coloured, st1 in *. cbn.
      rewrite list_lookup_insert_ne by distinct_index. exact Hk. }
    destruct (IH st1 H Hq1) as (Hq' & Hd' & Hkeep' & Hb').
    split; [exact Hq' |]. split; [exact Hd' |]. split; [auto |].
    intros b' Hin. apply elem_of_cons in Hin as [-> | Hin]; [| auto].
    exists j. auto.
Qed.

(** *** Between ids and dense indices *)

Lemma from_n_total g X j n :
  wf g → from_n g X j n →
  ∃ y s, Digraph.vert_id_map g !! N.to_nat j = Some y ∧ s ∈ X
         ∧ nsteps (edge g) n s y.
Proof.
  intros Hwf (s & i & Hs & Hi & Hr).
  enough (∃ y, Digraph.vert_id_map g !! N.to_nat j = Some y
               ∧ nsteps (edge g) n s y) as (y & Hy & Hsy) by eauto.
  revert j Hr. induction n as [| n IH]; intros j Hr.
  - inversion Hr; subst. exists s. split; [eapply wf_fwd; eauto | constructor].
  - apply nsteps_inv_r in Hr as (k & Hk & Hkj).
    destruct (IH k Hk) as (y & Hy & Hsy).
    destruct (dedge_edge g k j y Hwf Hy Hkj) as (z & Hz & Hyz).
    exists z. split; [exact Hz | eapply nsteps_r; eauto].
Qed.

Lemma edge_dedge g u v :
  wf g → edge g u v →
  ∃ i j, Digraph.id_vert_map g !! u = Some i
         ∧ Digraph.id_vert_map g !! v = Some j ∧ dedge g i j.
Proof.
  intros Hwf (l & Hl & Hv). unfold Digraph.get_neighbours in Hl.
  destruct (Digraph.id_vert_map g !! u) as [i|];
    [| injection Hl as <-; inversion Hv].
  destruct (at_index (Digraph.graph g) i) as [nb | | |] eqn:Hnb; cbn in Hl;
    try discriminate.
  apply at_index_Ok in Hnb.
  destruct (map_each_at_index_elem _ nb l v Hl Hv) as (n & Hn & Hnv).
  exists i, n. split; [reflexivity |]. split.
  - rewrite <- (N2Nat.id n). eapply wf_bwd; eauto.
  - exists nb. auto.
Qed.

Lemma rtc_edge_dedge g s y i :
  wf g → Digraph.id_vert_map g !! s = Some i → rtc (edge g) s y →
  ∃ j, Digraph.id_vert_map g !! y = Some j ∧ rtc (dedge g) i j.
Proof.
  intros Hwf Hi Hr. revert i Hi.
  induction Hr as [s | s s' y Hedge _ IH]; intros i Hi.
  - exists i. split; [exact Hi | constructor].
  - destruct (edge_dedge g s s' Hwf Hedge) as (i' & j' & Hi' & Hj' & Hd).
    assert (i' = i) as -> by congruence.
    destruct (IH j' Hj') as (j & Hj & Hrj).
    exists j. split; [exact Hj | econstructor; eauto].
Qed.

(** When every coloured vertex has its neighbours settled, a path from a
    coloured vertex leads to coloured vertices, and a change of colour on
    the way has been recorded. *)
Lemma path_settled g st i j ci :
  (∀ u cu, coloured st u cu → cu ≠ 0 → ∀ v, dedge g u v → settled st u cu v) →
  rtc (dedge g) i j → coloured st i ci → ci ≠ 0 →
  ∃ cj, coloured st j cj ∧ cj ≠ 0
        ∧ (cj ≠ ci → SCA.min_distance st < UINT_MAX).
Proof.
  intros Hall Hr. revert ci.
  induction Hr as [i | i k j Hik _ IH]; intros ci Hi Hci.
  - exists ci. split; [exact Hi |]. split; [exact Hci | congruence].
  - destruct (Hall i ci Hi Hci k Hik)
      as (ck & du & dv & Hk & Hck & _ & _ & _ & Hmin).
    destruct (IH ck Hk Hck) as (cj & Hj & Hcj & Hmin').
    exists cj. split; [exact Hj |]. split; [exact Hcj |].
    intros Hne. destruct (decide (ck = ci)) as [-> | Hd]; [auto |].
    apply Hmin, Hd.
Qed.

(** *** The search on disjoint sets *)

Lemma measured_after_seeding g A B st :
  seeded g A B st → SCA.distance st = replicate (Digraph.size g) 0 →
  measured g A B st.
Proof.
  intros Hs Hd. split; [| left; exact (seeded_min _ _ _ _ Hs)].
  intros j c Hj Hc. exists 0%nat.
  pose proof (lookup_lt_Some _ _ _ Hj) as Hlt.
  split; [| split].
  - rewrite Hd. apply lookup_replicate. split; [reflexivity |].
    rewrite <- (seeded_color_len _ _ _ _ Hs). exact Hlt.
  - cbn. eapply zeros_lt_length; eauto.
  - destruct (seeded_color _ _ _ _ Hs j c Hj)
      as [? | [[-> (a & Ha & Haj)] | [-> (b & Hb & Hbj)]]];
      [contradiction | exists a, j | exists b, j];
      (split; [assumption |]); (split; [assumption | constructor]).
Qed.

Lemma search_result g (A B : list N) :
  wf g → 2 * N.of_nat (Digraph.size g) < UINT_RANGE →
  Forall (registered g) A → Forall (registered g) B →
  (∀ y, y ∈ B → y ∉ A) →
  ∃ st,
    SCA.ancestor_length g A B
    = (x ← at_index (Digraph.vert_id_map g) (SCA.min_distance_ancestor st);
       Ok (x, SCA.min_distance st))
    ∧ inv g A B st ∧ measured g A B st
    ∧ (∀ u cu, coloured st u cu → cu ≠ 0 →
               ∀ v, dedge g u v → settled st u cu v)
    ∧ (∀ a, a ∈ A → ∃ j, Digraph.id_vert_map g !! a = Some j
                         ∧ coloured st j 1
                         ∧ SCA.distance st !! N.to_nat j = Some 0)
    ∧ (∀ b, b ∈ B → ∃ j, Digraph.id_vert_map g !! b = Some j
                         ∧ coloured st j 2
                         ∧ SCA.distance st !! N.to_nat j = Some 0).
Proof.
  intros Hwf Hsize HA HB Hdisj. unfold SCA.ancestor_length.
  destruct (seeded_after_a g A Hwf HA) as (st1 & Hst1 & Hs1).
  rewrite Hst1. cbn [mbind outcome_bind].
  destruct (seed_a_all_facts g A _ st1 Hst1 (queued_initial g)) as [Hq1 Hd1].
  destruct (seed_b_prefix g A [] B [] st1 Hwf Hs1) as (st2 & Hpre & Hs2).
  { intros y Hy. split; [| apply Hdisj, Hy].
    eapply Forall_forall in HB; eauto. }
  rewrite app_nil_r in Hpre. cbn in Hpre, Hs2. rewrite Hpre.
  cbn [mbind outcome_bind].
  destruct (seed_b_facts g B st1 st2 Hpre Hq1) as (Hq2 & Hd2 & _ & HB2).
  pose proof (seeded_inv g A B st2 Hs2) as Hinv2.
  assert (measured g A B st2) as Hm2.
  { apply measured_after_seeding; [exact Hs2 |]. rewrite Hd2, Hd1. reflexivity. }
  assert (closed g st2) as Hc2.
  { intros u cu Hu Hcu. left. eapply Hq2; eauto. }
  destruct (bfs_inv g A B Hwf (SCA.bfs_fuel g st2) st2 Hinv2
              (bfs_fuel_enough g A B st2 Hinv2)) as (st3 & Hbfs & _ & _).
  rewrite Hbfs. cbn [mbind outcome_bind].
  assert (levelled st2 0) as Hlev2.
  { assert (∀ j d, SCA.distance st2 !! N.to_nat j = Some d → d = 0) as Hzero.
    { intros j d Hd. rewrite Hd2, Hd1 in Hd. cbn in Hd.
      apply lookup_replicate in Hd as [-> _]. reflexivity. }
    split.
    - intros j c d _ _ Hd. rewrite (Hzero j d Hd). lia.
    - intros j c d _ _ _ Hd. rewrite (Hzero j d Hd). lia.
    - intros j d _ Hd. rewrite (Hzero j d Hd). lia.
    - intros i1 i2 j1 j2 d1 d2 _ _ _ H1' H2'.
      rewrite (Hzero j1 d1 H1'), (Hzero j2 d2 H2'). lia. }
  destruct (bfs_lengths g A B Hwf Hsize _ st2 st3 Hinv2 Hm2 Hc2
              (ex_intro _ 0 Hlev2) Hbfs)
    as (Hinv3 & Hm3 & Hc3 & Hq3 & Hkeep).
  assert (∀ j c, coloured st2 j c → c ≠ 0 →
                 coloured st3 j c ∧ SCA.distance st3 !! N.to_nat j = Some 0)
    as Hseed.
  { intros j c Hj Hc. destruct (Hkeep j c Hj Hc) as [Hcol Hdis].
    split; [exact Hcol |]. apply Hdis. rewrite Hd2, Hd1. cbn.
    apply lookup_replicate. split; [reflexivity |].
    rewrite <- (seeded_color_len _ _ _ _ Hs2). eapply lookup_lt_Some, Hj. }
  exists st3. split; [reflexivity |]. split; [exact Hinv3 |].
  split; [exact Hm3 |]. split; [| split].
  - intros u cu Hu Hcu. destruct (Hc3 u cu Hu Hcu) as [Hin | Hexp];
      [| exact Hexp]. rewrite Hq3 in Hin. inversion Hin.
  - intros a Ha. destruct (seeded_a _ _ _ _ Hs2 a Ha) as (j & Hj & Hc).
    exists j. split; [exact Hj |]. apply Hseed; [exact Hc | discriminate].
  - intros b Hb. destruct (HB2 b Hb) as (j & Hj & Hc).
    exists j. split; [exact Hj |]. apply Hseed; [exact Hc | discriminate].
Qed.

(** Two seeds of different colours joined by two edges. *)
Lemma chain_met g st i p j ci cj :
  (∀ u cu, coloured st u cu → cu ≠ 0 → ∀ v, dedge g u v → settled st u cu v) →
  coloured st i ci → ci ≠ 0 → SCA.distance st !! N.to_nat i = Some 0 →
  coloured st j cj → cj ≠ 0 → SCA.distance st !! N.to_nat j = Some 0 →
  ci ≠ cj → dedge g i p → dedge g p j →
  SCA.min_distance st ≤ 2.
Proof.
  intros Hall Hi Hci Hdi Hj Hcj Hdj Hdiff Hip Hpj.
  destruct (Hall i ci Hi Hci p Hip)
    as (cp & du & dp & Hp & Hcp & Hdu & Hdp & Hle & Hmin).
  assert (du = 0) as -> by congruence.
  destruct (decide (cp = ci)) as [-> | Hne].
  - destruct (Hall p ci Hp Hci j Hpj)
      as (cj' & dp' & dj & Hj' & _ & Hdp' & Hdj' & _ & Hmin').
    assert (cj' = cj) as -> by (unfold coloured in *; congruence).
    assert (dp' = dp) as -> by congruence.
    assert (dj = 0) as -> by congruence.
    destruct Hmin' as [_ Hmin']; [congruence | lia].
  - destruct (Hmin Hne) as [_ Hmin']. lia.
Qed.

Lemma fork_met g st i j x ci cj :
  (∀ u cu, coloured st u cu → cu ≠ 0 → ∀ v, dedge g u v → settled st u cu v) →
  coloured st i ci → ci ≠ 0 → SCA.distance st !! N.to_nat i = Some 0 →
  coloured st j cj → cj ≠ 0 → SCA.distance st !! N.to_nat j = Some 0 →
  ci ≠ cj → dedge g i x → dedge g j x →
  SCA.min_distance st ≤ 2.
Proof.
  intros Hall Hi Hci Hdi Hj Hcj Hdj Hdiff Hix Hjx.
  destruct (Hall i ci Hi Hci x Hix)
    as (cx & du & dx & Hx & Hcx & Hdu & Hdx & Hle & Hmin).
  assert (du = 0) as -> by congruence.
  destruct (decide (cx = ci)) as [-> | Hne].
  - destruct (Hall j cj Hj Hcj x Hjx)
      as (cx' & dj & dx' & Hx' & _ & Hdj' & Hdx' & _ & Hmin').
    assert (cx' = ci) as -> by (unfold coloured in *; congruence).
    assert (dx' = dx) as -> by congruence.
    assert (dj = 0) as -> by congruence.
    destruct Hmin' as [_ Hmin']; [exact Hdiff | lia].
  - destruct (Hmin Hne) as [_ Hmin']. lia.
Qed.

(** The result on disjoint sets, with what it means. *)
Lemma ancestor_length_disjoint_exact g (A B : list N) :
  wf g → 2 * N.of_nat (Digraph.size g) < UINT_RANGE → A ≠ [] →
  Forall (registered g) A → Forall (registered g) B →
  (∀ y, y ∈ B → y ∉ A) →
  ∃ x d, SCA.ancestor_length g A B = Ok (x, d)
    ∧ ((d = UINT_MAX ∧ Digraph.vert_id_map g !! 0%nat = Some x
        ∧ ∀ y, ¬ common_ancestor g A B y)
       ∨ (d < UINT_MAX ∧ common_total g A B x (N.to_nat d)))
    ∧ (∀ a b, a ∈ A → b ∈ B → edge g a b ∨ edge g b a → d ≤ 1)
    ∧ (∀ y, common_total g A B y 2 → d ≤ 2).
Proof.
  intros Hwf Hsize Hne HA HB Hdisj.
  destruct (search_result g A B Hwf Hsize HA HB Hdisj)
    as (st & Hres & Hinv & Hm & Hall & HcA & HcB).
  rewrite Hres.
  assert (∀ a b, a ∈ A → b ∈ B → edge g a b ∨ edge g b a →
                 SCA.min_distance st ≤ 1) as Hnear.
  { intros a b Ha Hb Hab.
    destruct (HcA a Ha) as (ia & Hia & Hca & Hda).
    destruct (HcB b Hb) as (ib & Hib & Hcb & Hdb).
    destruct Hab as [Hab | Hba].
    - destruct (edge_dedge g a b Hwf Hab) as (i & j & Hi & Hj & Hij).
      assert (i = ia) as -> by congruence. assert (j = ib) as -> by congruence.
      destruct (Hall ia 1 Hca ltac:(discriminate) ib Hij)
        as (cv & du & dv & Hcv & _ & Hdu & Hdv & _ & Hmin).
      assert (cv = 2) as Ecv by (unfold coloured in *; congruence).
      assert (du = 0) as Edu by congruence.
      assert (dv = 0) as Edv by congruence. subst cv du dv.
      destruct Hmin as [_ Hmin]; [discriminate | exact Hmin].
    - destruct (edge_dedge g b a Hwf Hba) as (i & j & Hi & Hj & Hij).
      assert (i = ib) as -> by congruence. assert (j = ia) as -> by congruence.
      destruct (Hall ib 2 Hcb ltac:(discriminate) ia Hij)
        as (cv & du & dv & Hcv & _ & Hdu & Hdv & _ & Hmin).
      assert (cv = 1) as Ecv by (unfold coloured in *; congruence).
      assert (du = 0) as Edu by congruence.
      assert (dv = 0) as Edv by congruence. subst cv du dv.
      destruct Hmin as [_ Hmin]; [discriminate | exact Hmin]. }
  assert (∀ y, common_total g A B y 2 → SCA.min_distance st ≤ 2) as Hnear2.
  { intros y (a & b & na & nb & Ha & Hb & Hay & Hby & Hsum).
    destruct (HcA a Ha) as (ia & Hia & Hca & Hda).
    destruct (HcB b Hb) as (ib & Hib & Hcb & Hdb).
    assert (∀ u v iu, edge g u v → Digraph.id_vert_map g !! u = Some iu →
              ∃ iv, Digraph.id_vert_map g !! v = Some iv ∧ dedge g iu iv)
      as Hdense.
    { intros u v iu Huv Hu.
      destruct (edge_dedge g u v Hwf Huv) as (i & j & Hi & Hj & Hij).
      assert (i = iu) as -> by congruence. eauto. }
    destruct na as [| [| [| na]]]; [| | | lia].
    - assert (nb = 2%nat) as -> by lia. inversion Hay; subst.
      inversion Hby as [| ? ? p ? Hbp Hrest]; subst.
      apply nsteps_once_inv in Hrest.
      destruct (Hdense b p ib Hbp Hib) as (ip & Hip & Hbp').
      destruct (Hdense p y ip Hrest Hip) as (iy & Hiy & Hpy').
      assert (iy = ia) as -> by congruence.
      apply (chain_met g st ib ip ia 2 1 Hall Hcb ltac:(discriminate) Hdb
               Hca ltac:(discriminate) Hda ltac:(discriminate) Hbp' Hpy').
    - assert (nb = 1%nat) as -> by lia.
      apply nsteps_once_inv in Hay, Hby.
      destruct (Hdense a y ia Hay Hia) as (iy & Hiy & Hay').
      destruct (Hdense b y ib Hby Hib) as (iy' & Hiy' & Hby').
      assert (iy' = iy) as -> by congruence.
      apply (fork_met g st ia ib iy 1 2 Hall Hca ltac:(discriminate) Hda
               Hcb ltac:(discriminate) Hdb ltac:(discriminate) Hay' Hby').
    - assert (nb = 0%nat) as -> by lia. inversion Hby; subst.
      inversion Hay as [| ? ? p ? Hap Hrest]; subst.
      apply nsteps_once_inv in Hrest.
      destruct (Hdense a p ia Hap Hia) as (ip & Hip & Hap').
      destruct (Hdense p y ip Hrest Hip) as (iy & Hiy & Hpy').
      assert (iy = ib) as -> by congruence.
      apply (chain_met g st ia ip ib 1 2 Hall Hca ltac:(discriminate) Hda
               Hcb ltac:(discriminate) Hdb ltac:(discriminate) Hap' Hpy'). }
  destruct (measured_min _ _ _ _ Hm) as [[Hmd Hma] | (na & nb & Hmd & Hlt & HfA & HfB)].
  - rewrite Hma, Hmd. rewrite Hmd in Hnear, Hnear2.
    destruct A as [| a A']; [contradiction |].
    pose proof HA as HA'. apply Forall_cons in HA' as [[j Hj] _].
    pose proof (wf_index_lt g a j Hwf Hj) as Hlen. rewrite (wf_len g Hwf) in Hlen.
    assert (0 < length (Digraph.vert_id_map g))%nat as H0 by lia.
    apply lookup_lt_is_Some_2 in H0 as [x0 Hx0].
    exists x0, UINT_MAX.
    assert (at_index (Digraph.vert_id_map g) 0 = Ok x0) as ->
      by (apply at_index_Ok; exact Hx0).
    split; [reflexivity |]. split; [| split; [exact Hnear | exact Hnear2]].
    left. split; [reflexivity |]. split; [exact Hx0 |].
    intros y [(s & Hs & Hsy) (t & Ht & Hty)].
    destruct (HcA s Hs) as (ia & His & Hcs & _).
    destruct (HcB t Ht) as (ib & Hit & Hct & _).
    destruct (rtc_edge_dedge g s y ia Hwf His Hsy) as (jy & Hjy & Hry).
    destruct (rtc_edge_dedge g t y ib Hwf Hit Hty) as (jy' & Hjy' & Hry').
    assert (jy' = jy) as -> by congruence.
    destruct (path_settled g st ia jy 1 Hall Hry Hcs) as (c1 & Hc1 & _ & Hmin1);
      [discriminate |].
    destruct (path_settled g st ib jy 2 Hall Hry' Hct) as (c2 & Hc2 & _ & Hmin2);
      [discriminate |].
    assert (c2 = c1) as -> by (unfold coloured in *; congruence).
    destruct (decide (c1 = 1)) as [-> | Hd].
    + assert (SCA.min_distance st < UINT_MAX) by (apply Hmin2; discriminate). lia.
    + specialize (Hmin1 Hd). lia.
  - destruct (from_n_total g A _ na Hwf HfA) as (x & s & Hx & Hs & Hsx).
    destruct (from_n_total g B _ nb Hwf HfB) as (x' & t & Hx' & Ht & Htx).
    assert (x' = x) as -> by congruence.
    exists x, (SCA.min_distance st).
    rewrite (proj2 (at_index_Ok _ _ _) Hx). split; [reflexivity |].
    split; [| split; [exact Hnear | exact Hnear2]]. right. split; [exact Hlt |].
    exists s, t, na, nb. rewrite Hmd, Nat2N.id. repeat split; assumption.
Qed.

Lemma common_total_ancestor g A B x t :
  common_total g A B x t → common_ancestor g A B x.
Proof.
  intros (a & b & na & nb & Ha & Hb & Hax & Hbx & _).
  split; [exists a | exists b]; (split; [assumption |]);
    eapply rtc_nsteps_2; eauto.
Qed.

(** *** Adjacent sets *)

Lemma adjacent_sets_exact g (A B : list N) :
  wf g → 2 * N.of_nat (Digraph.size g) < UINT_RANGE →
  Forall (registered g) A → Forall (registered g) B →
  (∀ y, y ∈ B → y ∉ A) →
  (∃ a b, a ∈ A ∧ b ∈ B ∧ (edge g a b ∨ edge g b a)) →
  ∃ x, SCA.ancestor_length g A B = Ok (x, 1)
       ∧ ((x ∈ B ∧ ∃ a, a ∈ A ∧ edge g a x)
          ∨ (x ∈ A ∧ ∃ b, b ∈ B ∧ edge g b x))
       ∧ sca_distance g A B 1.
Proof.
  intros Hwf Hsize HA HB Hdisj (a0 & b0 & Ha0 & Hb0 & Hedge).
  assert (A ≠ []) as Hne by (intros ->; inversion Ha0).
  destruct (ancestor_length_disjoint_exact g A B Hwf Hsize Hne HA HB Hdisj)
    as (x & d & Hres & Hcase & Hnear & _).
  specialize (Hnear a0 b0 Ha0 Hb0 Hedge).
  assert (∀ y t, common_total g A B y t → (1 ≤ t)%nat) as Hlow.
  { intros y t (a & b & na & nb & Ha & Hb & Hay & Hby & ->).
    destruct na as [| na]; [| lia]. destruct nb as [| nb]; [| lia].
    inversion Hay; subst. inversion Hby; subst. destruct (Hdisj y Hb Ha). }
  destruct Hcase as [(-> & _) | (_ & Hct)];
    [unfold UINT_MAX, UINT_RANGE in Hnear; lia |].
  pose proof (Hlow _ _ Hct) as Hd.
  assert (d = 1) as -> by lia.
  exists x. split; [exact Hres |]. split; [| split; [eauto | exact Hlow]].
  destruct Hct as (a & b & na & nb & Ha & Hb & Hay & Hby & Hsum).
  change (N.to_nat 1) with 1%nat in Hsum.
  destruct na as [| [| na]]; [| | lia].
  - assert (nb = 1%nat) as -> by lia. inversion Hay; subst.
    right. split; [exact Ha |]. exists b. split; [exact Hb |].
    apply nsteps_once_inv in Hby. exact Hby.
  - assert (nb = 0%nat) as -> by lia. inversion Hby; subst.
    left. split; [exact Hb |]. exists a. split; [exact Ha |].
    apply nsteps_once_inv in Hay. exact Hay.
Qed.

Lemma edge_registered g u v :
  wf g → edge g u v → registered g u ∧ registered g v.
Proof.
  intros Hwf He. destruct (edge_dedge g u v Hwf He) as (i & j & Hi & Hj & _).
  split; eapply registered_lookup; eauto.
Qed.

(** *** What a query can end in *)

Lemma ancestor_length_outcomes g (A B : list N) :
  wf g → A ≠ [] →
  (∃ r, SCA.ancestor_length g A B = Ok r)
  ∨ SCA.ancestor_length g A B = OutOfRange.
Proof.
  intros Hwf Hne.
  destruct (decide (Exists (λ y, ¬ registered g y) A)) as [Hex | HA].
  - right. apply Exists_exists in Hex.
    destruct (first_such (λ y, ¬ registered g y) A Hex)
      as (A1 & z & A2 & -> & Hz & HA1).
    apply ancestor_length_unknown_a; [exact Hwf | | exact Hz].
    apply Forall_forall. intros y Hy.
    destruct (decide (registered g y)) as [H | H]; [exact H |].
    destruct (HA1 y Hy H).
  - assert (Forall (registered g) A) as HA'.
    { apply Forall_forall. intros y Hy.
      destruct (decide (registered g y)) as [H | H]; [exact H |].
      destruct HA. apply Exists_exists. eauto. }
    destruct (decide (Exists (λ y, ¬ registered g y ∨ y ∈ A) B)) as [Hex | HB].
    + apply Exists_exists in Hex.
      destruct (first_such (λ y, ¬ registered g y ∨ y ∈ A) B Hex)
        as (B1 & z & B2 & -> & Hz & HB1).
      assert (∀ y, y ∈ B1 → registered g y ∧ y ∉ A) as HB1'.
      { intros y Hy. specialize (HB1 y Hy).
        destruct (decide (registered g y)); [| tauto]. split; tauto. }
      destruct (decide (z ∈ A)) as [HzA | HzA].
      * left. exists (z, 0).
        apply (ancestor_length_overlap g A B1 B2 z Hwf HA' HB1' HzA).
      * right. apply ancestor_length_unknown_b; try assumption. tauto.
    + left.
      destruct (ancestor_length_returns g A B Hwf Hne HA') as (x & d & H).
      * apply Forall_forall. intros y Hy.
        destruct (decide (registered g y)) as [H | H]; [exact H |].
        destruct HB. apply Exists_exists. eauto.
      * eauto.
Qed.

Lemma is_noun_false wn word :
  WordNet.is_noun wn word = false → WordNet.ids_at wn word = OutOfRange.
Proof.
  unfold WordNet.is_noun, WordNet.ids_at. intros H.
  apply bool_decide_eq_false in H.
  destruct (WordNet.word_ids wn !! word); [destruct H; eauto | reflexivity].
Qed.

Lemma find_sca_distance_not_noun wn noun1 noun2 :
  WordNet.is_noun wn noun1 = false ∨ WordNet.is_noun wn noun2 = false →
  WordNet.find_sca_distance wn noun1 noun2 = OutOfRange.
Proof.
  unfold WordNet.find_sca_distance. intros [H | H].
  - rewrite (is_noun_false wn noun1 H). reflexivity.
  - rewrite (is_noun_false wn noun2 H). unfold WordNet.ids_at.
    destruct (WordNet.word_ids wn !! noun1); reflexivity.
Qed.

Lemma distance_not_noun wn noun1 noun2 :
  WordNet.is_noun wn noun1 = false ∨ WordNet.is_noun wn noun2 = false →
  WordNet.distance wn noun1 noun2 = OutOfRange.
Proof.
  intros H. unfold WordNet.distance.
  rewrite (find_sca_distance_not_noun wn noun1 noun2 H). reflexivity.
Qed.

Lemma distance_outcomes wn noun1 noun2 :
  wf (WordNet.graph wn) →
  (∀ word ids, WordNet.word_ids wn !! word = Some ids → ids ≠ []) →
  (∃ d, WordNet.distance wn noun1 noun2 = Ok d)
  ∨ WordNet.distance wn noun1 noun2 = OutOfRange.
Proof.
  intros Hwf Hids.
  unfold WordNet.distance, WordNet.find_sca_distance, WordNet.ids_at.
  destruct (WordNet.word_ids wn !! noun1) as [ids1|] eqn:H1; [| right; reflexivity].
  destruct (WordNet.word_ids wn !! noun2) as [ids2|] eqn:H2; [| right; reflexivity].
  cbn [mbind outcome_bind].
  destruct (ancestor_length_outcomes (WordNet.graph wn) ids1 ids2 Hwf
              (Hids noun1 ids1 H1)) as [[r ->] | ->];
    [left; exists r.2 | right]; reflexivity.
Qed.

(** The inner loop of [outcast] stops at the first lookup that fails. *)
Lemma inner_not_noun wn i first_pos (js : list string) second_pos
    (distances : list N) :
  wf (WordNet.graph wn) →
  (∀ word ids, WordNet.word_ids wn !! word = Some ids → ids ≠ []) →
  (first_pos < length distances)%nat →
  (second_pos + length js ≤ length distances)%nat →
  (WordNet.is_noun wn i = false ∧ js ≠ [])
  ∨ (∃ w, w ∈ js ∧ WordNet.is_noun wn w = false) →
  Outcast.inner wn i first_pos js second_pos distances = OutOfRange.
Proof.
  intros Hwf Hids. revert second_pos distances.
  induction js as [| j js IH]; intros second_pos distances Hf Hs Hbad.
  - destruct Hbad as [[_ Hne] | (w & Hw & _)];
      [contradiction | inversion Hw].
  - cbn [Outcast.inner].
    destruct (distance_outcomes wn i j Hwf Hids) as [[d Hd] | ->];
      [| reflexivity].
    rewrite Hd. cbn [mbind outcome_bind]. cbn [length] in Hs.
    destruct (lookup_lt_is_Some_2 distances first_pos Hf) as [x Hx].
    assert (Outcast.add_at distances first_pos d
            = Ok (<[first_pos := to_unsigned (x + d)]> distances)) as ->
      by (unfold Outcast.add_at; rewrite (at_pos_Ok _ _ _ Hx); reflexivity).
    cbn [mbind outcome_bind].
    destruct (lookup_lt_is_Some_2
                (<[first_pos := to_unsigned (x + d)]> distances) second_pos)
      as [y Hy]; [rewrite length_insert; lia |].
    match goal with
    | |- Outcast.add_at ?v _ _ ≫= _ = _ =>
        assert (Outcast.add_at v second_pos d
                = Ok (<[second_pos := to_unsigned (y + d)]> v)) as ->
          by (unfold Outcast.add_at; rewrite (at_pos_Ok _ _ _ Hy); reflexivity)
    end.
    cbn [mbind outcome_bind].
    apply IH.
    + rewrite !length_insert. exact Hf.
    + rewrite !length_insert. lia.
    + destruct Hbad as [[Hi _] | (w & Hw & Hbad)].
      * rewrite (distance_not_noun wn i j (or_introl Hi)) in Hd. discriminate.
      * apply elem_of_cons in Hw as [-> | Hw]; [| eauto].
        rewrite (distance_not_noun wn i j (or_intror Hbad)) in Hd.
        discriminate.
Qed.

(** ** Reading the files *)

(** *** Positions in a text *)

Lemma length_append (a b : string) :
  String.length (String.append a b) = (String.length a + String.length b)%nat.
Proof.
  induction a as [| x a IH]; [reflexivity |].
  rewrite append_cons. cbn [String.length Nat.add]. f_equal. exact IH.
Qed.

Lemma find_shift c (a b : string) (k : nat) :
  find c (String.append a b) (String.length a + k)
  = (λ p, String.length a + p)%nat <$> find c b k.
Proof.
  induction a as [| x a IH].
  - change (find c b k = (λ p, p) <$> find c b k).
    destruct (find c b k); reflexivity.
  - rewrite append_cons. cbn [String.length Nat.add find]. rewrite IH.
    destruct (find c b k); reflexivity.
Qed.

Lemma find_end c (a b : string) :
  find c (String.append a b) (String.length a)
  = (λ p, String.length a + p)%nat <$> find c b 0.
Proof. rewrite <- find_shift, Nat.add_0_r. reflexivity. Qed.

Lemma find_avoid c (w b : string) :
  find c w 0 = None →
  find c (String.append w b) 0 = (λ p, String.length w + p)%nat <$> find c b 0.
Proof.
  induction w as [| x w IH]; intros Hw.
  - change (find c b 0 = (λ p, p) <$> find c b 0).
    destruct (find c b 0); reflexivity.
  - rewrite append_cons. cbn [find String.length Nat.add] in *.
    destruct (Ascii.eqb x c); [discriminate |].
    destruct (find c w 0) eqn:E; [discriminate |].
    rewrite IH by reflexivity. destruct (find c b 0); reflexivity.
Qed.

Lemma find_here c (b : string) : find c (String c b) 0 = Some 0%nat.
Proof. cbn [find]. rewrite Ascii.eqb_refl. reflexivity. Qed.

(** The next [c] after a piece that holds none. *)
Lemma find_next c (pre w rest : string) :
  find c w 0 = None →
  find c (String.append pre (String.append w (String c rest)))
    (String.length pre)
  = Some (String.length pre + String.length w)%nat.
Proof.
  intros Hw. rewrite find_end, (find_avoid c w _ Hw), find_here.
  cbn. f_equal. lia.
Qed.

Lemma find_last c (pre w : string) :
  find c w 0 = None →
  find c (String.append pre w) (String.length pre) = None.
Proof. intros Hw. rewrite find_end, Hw. reflexivity. Qed.

Lemma substring_prefix (w rest : string) :
  substring 0 (String.length w) (String.append w rest) = w.
Proof.
  induction w as [| x w IH].
  - change (substring 0 0 rest = EmptyString). destruct rest; reflexivity.
  - rewrite append_cons. cbn [String.length substring]. f_equal. exact IH.
Qed.

Lemma substring_skip (pre s : string) (m : nat) :
  substring (String.length pre) m (String.append pre s) = substring 0 m s.
Proof.
  induction pre as [| x pre IH]; [reflexivity |].
  rewrite append_cons. cbn [String.length substring]. exact IH.
Qed.

Lemma view_middle (pre w rest : string) :
  view (String.append pre (String.append w rest))
    (String.length pre) (String.length w) = Ok w.
Proof.
  unfold view. rewrite !length_append.
  destruct (Nat.leb_spec (String.length pre + String.length w)
              (String.length pre + (String.length w + String.length rest)))
    as [_ | ?]; [| lia].
  rewrite substring_skip, substring_prefix. reflexivity.
Qed.

Lemma view_rest (pre w : string) (len : nat) :
  len = String.length w →
  view (String.append pre w) (String.length pre) len = Ok w.
Proof.
  intros ->. rewrite <- (append_empty_r w) at 1.
  apply (view_middle pre w EmptyString).
Qed.

(** *** Numbers in a text *)

Lemma digit_chars_avoid c (d : Decimal.uint) :
  digit c = None → find c (DecimalString.NilEmpty.string_of_uint d) 0 = None.
Proof.
  intros Hc.
  induction d as [| d IH | d IH | d IH | d IH | d IH | d IH | d IH | d IH
                  | d IH | d IH];
    cbn [DecimalString.NilEmpty.string_of_uint find]; [reflexivity | ..];
    rewrite IH;
    (match goal with
     | |- context [Ascii.eqb ?x c] =>
         destruct (Ascii.eqb_spec x c) as [<- | _];
           [cbn in Hc; discriminate | reflexivity]
     end).
Qed.

Lemma to_decimal_avoid c (n : N) :
  digit c = None → find c (to_decimal n) 0 = None.
Proof.
  intros Hc. unfold to_decimal, DecimalString.NilZero.string_of_uint.
  pose proof (to_uint_nonnil n) as Hn.
  destruct (N.to_uint n) eqn:E; try contradiction;
    rewrite <- E; apply digit_chars_avoid, Hc.
Qed.

Lemma string_view_to_unsigned_exact (n : N) :
  n ≤ UINT_MAX → string_view_to_unsigned (to_decimal n) = Ok n.
Proof.
  intros Hn. unfold string_view_to_unsigned.
  rewrite <- (append_empty_r (to_decimal n)).
  rewrite from_chars_decimal by reflexivity.
  destruct (N.leb_spec n UINT_MAX) as [_ | ?]; [reflexivity | lia].
Qed.

Lemma bind_Ok {A} (m : outcome A) : (m ≫= Ok) = m.
Proof. destruct m; reflexivity. Qed.

(** *** A hypernym line *)

Lemma join_cons (sep x y : string) (rest : list string) :
  join sep (x :: y :: rest)
  = String.append x (String.append sep (join sep (y :: rest))).
Proof. reflexivity. Qed.

Lemma length_join c (x : string) (rest : list string) :
  (length rest ≤ String.length (join (String c EmptyString) (x :: rest)))%nat.
Proof.
  revert x. induction rest as [| y rest IH]; intros x; [cbn; lia |].
  rewrite join_cons, !length_append. specialize (IH y).
  cbn [length String.length]. lia.
Qed.

Lemma hypernym_targets_unfold fuel line from start_pos graph :
  hypernym_targets fuel line from start_pos graph
  = match find comma line start_pos with
    | Some end_pos =>
        match fuel with
        | O => OutOfFuel
        | S fuel' =>
            to_string ← view line start_pos (end_pos - start_pos);
            to ← string_view_to_unsigned to_string;
            graph' ← Digraph.add_edge graph from to;
            hypernym_targets fuel' line from (end_pos + 1) graph'
        end
    | None =>
        to_string ← view line start_pos (String.length line - start_pos);
        to ← string_view_to_unsigned to_string;
        Digraph.add_edge graph from to
    end.
Proof. destruct fuel; reflexivity. Qed.

Lemma comma_no_digit : digit comma = None.
Proof. reflexivity. Qed.

Lemma hypernym_targets_text fuel (pre : string) from t (ts : list N) g :
  Forall (λ to, to ≤ UINT_MAX) (t :: ts) → (length ts ≤ fuel)%nat →
  hypernym_targets fuel
    (String.append pre (join (String comma EmptyString) (to_decimal <$> t :: ts)))
    from (String.length pre) g
  = add_edges g ((λ to, (from, to)) <$> t :: ts).
Proof.
  revert fuel pre t g. induction ts as [| t2 ts IH]; intros fuel pre t g Hok Hfuel;
    apply Forall_cons in Hok as [Ht Hok]; rewrite hypernym_targets_unfold.
  - cbn [fmap list_fmap join].
    rewrite (find_last comma pre _ (to_decimal_avoid comma t comma_no_digit)).
    rewrite view_rest by (rewrite length_append; lia).
    cbn [mbind outcome_bind]. rewrite (string_view_to_unsigned_exact t Ht).
    cbn [mbind outcome_bind add_edges]. symmetry. apply bind_Ok.
  - change (to_decimal <$> t :: t2 :: ts)
      with (to_decimal t :: to_decimal t2 :: (to_decimal <$> ts)).
    rewrite join_cons. rewrite append_cons.
    change (String.append EmptyString ?s) with s.
    rewrite (find_next comma pre _ _ (to_decimal_avoid comma t comma_no_digit)).
    destruct fuel as [| fuel]; [cbn in Hfuel; lia |].
    replace (String.length pre + String.length (to_decimal t)
             - String.length pre)%nat
      with (String.length (to_decimal t)) by lia.
    rewrite view_middle. cbn [mbind outcome_bind].
    rewrite (string_view_to_unsigned_exact t Ht).
    cbn [mbind outcome_bind fmap list_fmap add_edges].
    destruct (Digraph.add_edge g from t) as [g' | | |]; cbn [mbind outcome_bind];
      try reflexivity.
    rewrite <- append_assoc.
    change (String comma ?s) with (String.append (String comma EmptyString) s).
    rewrite <- append_assoc.
    replace (String.length pre + String.length (to_decimal t) + 1)%nat
      with (String.length
              (String.append (String.append pre (to_decimal t))
                 (String comma EmptyString)))
      by (rewrite !length_append; cbn; lia).
    apply (IH fuel _ t2 g' Hok). cbn in Hfuel. lia.
Qed.

Lemma hypernym_line_text (h : hypernym) g :
  hypernym_ok h →
  hypernym_line g (hypernym_text h)
  = add_edges g ((λ to, (h.1, to)) <$> h.2).
Proof.
  destruct h as [from ts]. intros [Hfrom Hts]. cbn [fst snd] in *.
  unfold hypernym_line, hypernym_text. cbn [fst snd fmap list_fmap].
  destruct ts as [| t ts].
  - cbn [join fmap list_fmap add_edges].
    rewrite (to_decimal_avoid comma from comma_no_digit). reflexivity.
  - change (to_decimal <$> t :: ts) with (to_decimal t :: (to_decimal <$> ts)).
    rewrite join_cons. rewrite append_cons.
    change (String.append EmptyString ?s) with s.
    pose proof (find_next comma EmptyString (to_decimal from)
                  (join (String comma EmptyString)
                     (to_decimal t :: (to_decimal <$> ts)))
                  (to_decimal_avoid comma from comma_no_digit)) as Hfind.
    change (String.append EmptyString ?s) with s in Hfind.
    cbn [String.length Nat.add] in Hfind. rewrite Hfind.
    pose proof (view_middle EmptyString (to_decimal from)
                  (String comma (join (String comma EmptyString)
                     (to_decimal t :: (to_decimal <$> ts))))) as Hview.
    change (String.append EmptyString ?s) with s in Hview.
    cbn [String.length] in Hview. rewrite Hview.
    cbn [mbind outcome_bind]. rewrite (string_view_to_unsigned_exact from Hfrom).
    cbn [mbind outcome_bind].
    change (String comma ?s) with (String.append (String comma EmptyString) s).
    rewrite <- append_assoc.
    replace (String.length (to_decimal from) + 1)%nat
      with (String.length (String.append (to_decimal from)
                             (String comma EmptyString)))
      by (rewrite length_append; cbn; lia).
    apply hypernym_targets_text; [exact Hts |].
    rewrite length_append.
    pose proof (length_join comma (to_decimal t) (to_decimal <$> ts)) as Hlen.
    rewrite length_fmap in Hlen. lia.
Qed.

(** *** A synset line *)

Lemma synset_words_unfold fuel source_line id gloss_start start_pos word_ids :
  synset_words fuel source_line id gloss_start start_pos word_ids
  = match find space source_line start_pos with
    | Some end_pos =>
        if (end_pos <? gloss_start)%nat then
          match fuel with
          | O => OutOfFuel
          | S fuel' =>
              word ← view source_line start_pos (end_pos - start_pos);
              synset_words fuel' source_line id gloss_start (end_pos + 1)
                (emplace_id word_ids word id)
          end
        else Ok (word_ids, start_pos)
    | None => Ok (word_ids, start_pos)
    end.
Proof. destruct fuel; reflexivity. Qed.

Lemma join_snoc (sep x : string) (init : list string) (z : string) :
  join sep (x :: init ++ [z])
  = String.append x (String.append sep (join sep (init ++ [z]))).
Proof. destruct init; reflexivity. Qed.

Lemma join_avoid c (sep : string) (pieces : list string) :
  find c sep 0 = None → Forall (λ p, find c p 0 = None) pieces →
  find c (join sep pieces) 0 = None.
Proof.
  intros Hsep Hall. induction Hall as [| x rest Hx Hrest IH]; [reflexivity |].
  destruct rest as [| y rest]; [exact Hx |].
  rewrite join_cons, (find_avoid c x _ Hx), (find_avoid c sep _ Hsep), IH.
  reflexivity.
Qed.

Lemma length_join_snoc c (init : list string) (z : string) :
  (length init ≤ String.length (join (String c EmptyString) (init ++ [z])))%nat.
Proof.
  destruct init as [| x init]; [cbn; lia |].
  pose proof (length_join c x (init ++ [z])) as H.
  rewrite length_app in H. cbn [length app] in *. lia.
Qed.

Lemma synset_words_text (gloss : string) id (init : list string) (z : string) :
  ∀ fuel (pre line : string) gloss_start word_ids,
  Forall word_ok init → word_ok z → (length init ≤ fuel)%nat →
  line = String.append pre
           (String.append (join (String space EmptyString) (init ++ [z]))
              (String comma gloss)) →
  gloss_start
  = (String.length pre
     + String.length (join (String space EmptyString) (init ++ [z])) + 1)%nat →
  ∃ pre',
    String.append pre (join (String space EmptyString) (init ++ [z]))
    = String.append pre' z
    ∧ synset_words fuel line id gloss_start (String.length pre) word_ids
      = Ok (fold_left (λ m word, emplace_id m word id) init word_ids,
            String.length pre').
Proof.
  induction init as [| x init IH];
    intros fuel pre line gloss_start word_ids Hinit Hz Hfuel Hline Hstart;
    rewrite synset_words_unfold.
  - exists pre. split; [reflexivity |]. cbn [app join] in *. subst line.
    rewrite find_end, (find_avoid space z _ (proj1 Hz)). cbn [find].
    change (Ascii.eqb comma space) with false. cbn iota.
    destruct (find space gloss 0) as [k |]; [| reflexivity].
    cbn [fmap option_fmap option_map].
    destruct (Nat.ltb_spec (String.length pre + (String.length z + S k))
                gloss_start) as [? | _]; [lia | reflexivity].
  - apply Forall_cons in Hinit as [Hx Hinit].
    change ((x :: init) ++ [z]) with (x :: init ++ [z]) in *.
    rewrite join_snoc in *.
    change (String.append (String space EmptyString) ?s)
      with (String space s) in *.
    set (rest := join (String space EmptyString) (init ++ [z])) in *.
    assert (line = String.append pre
                     (String.append x
                        (String space (String.append rest (String comma gloss)))))
      as Hline'.
    { rewrite Hline, append_assoc. reflexivity. }
    rewrite length_append in Hstart. cbn [String.length] in Hstart.
    destruct fuel as [| fuel]; [cbn in Hfuel; lia |].
    destruct (IH fuel
                (String.append pre (String.append x (String space EmptyString)))
                line gloss_start (emplace_id word_ids x id) Hinit Hz)
      as (pre' & Hpre & Hrun).
    + cbn in Hfuel. lia.
    + rewrite Hline', !append_assoc. reflexivity.
    + rewrite Hstart, !length_append. cbn [String.length]. fold rest. lia.
    + exists pre'. split.
      * rewrite <- Hpre. fold rest. rewrite !append_assoc. reflexivity.
      * assert (find space line (String.length pre)
                = Some (String.length pre + String.length x)%nat) as ->
          by (rewrite Hline'; apply find_next, Hx).
        destruct (Nat.ltb_spec (String.length pre + String.length x) gloss_start)
          as [_ | Hge]; [| lia].
        replace (String.length pre + String.length x - String.length pre)%nat
          with (String.length x) by lia.
        assert (view line (String.length pre) (String.length x) = Ok x) as ->
          by (rewrite Hline'; apply view_middle).
        cbn [mbind outcome_bind fold_left].
        rewrite !length_append in Hrun. cbn [String.length] in Hrun.
        replace (String.length pre + String.length x + 1)%nat
          with (String.length pre + (String.length x + 1))%nat by lia.
        exact Hrun.
Qed.

Lemma word_ok_join (words : list string) :
  Forall word_ok words →
  find comma (join (String space EmptyString) words) 0 = None.
Proof.
  intros H. apply join_avoid; [reflexivity |].
  eapply Forall_impl; [exact H |]. intros w [_ Hw]. exact Hw.
Qed.

Lemma synset_line_text (s : synset) tables :
  synset_ok s →
  synset_line tables (synset_text s)
  = Ok (fold_left (λ m word, emplace_id m word s.1.1) s.1.2 tables.1,
        <[s.1.1 := s.2]> tables.2).
Proof.
  destruct s as [[id words] gloss]. intros (Hid & Hne & Hwords).
  cbn [fst snd] in *. unfold synset_line, synset_text. cbn [fst snd].
  set (sep := String space EmptyString).
  set (tail := String comma (String.append (join sep words) (String comma gloss))).
  change (String.append (String comma (join sep words)) (String comma gloss))
    with tail.
  pose proof (find_next comma EmptyString (to_decimal id)
                (String.append (join sep words) (String comma gloss))
                (to_decimal_avoid comma id comma_no_digit)) as Hfind.
  change (String.append EmptyString ?s) with s in Hfind.
  cbn [String.length Nat.add] in Hfind. fold tail in Hfind. rewrite Hfind.
  pose proof (view_middle EmptyString (to_decimal id) tail) as Hview.
  change (String.append EmptyString ?s) with s in Hview.
  cbn [String.length] in Hview. rewrite Hview. cbn [mbind outcome_bind].
  rewrite (string_view_to_unsigned_exact id Hid). cbn [mbind outcome_bind].
  set (pre := String.append (to_decimal id) (String comma EmptyString)).
  assert (String.append (to_decimal id) tail
          = String.append pre
              (String.append (join sep words) (String comma gloss))) as Hline.
  { unfold pre, tail. rewrite append_assoc. reflexivity. }
  assert (String.length (to_decimal id) + 1 = String.length pre)%nat as Hpre.
  { unfold pre. rewrite length_append. reflexivity. }
  rewrite Hline, Hpre.
  rewrite (find_next comma pre (join sep words) gloss (word_ok_join words Hwords)).
  destruct words as [| z init _] using rev_ind; [contradiction |].
  apply Forall_app in Hwords as [Hinit Hz]. apply Forall_inv in Hz.
  destruct (synset_words_text gloss id init z
              (String.length
                 (String.append pre
                    (String.append (join sep (init ++ [z])) (String comma gloss))))
              pre
              (String.append pre
                 (String.append (join sep (init ++ [z])) (String comma gloss)))
              (String.length pre + String.length (join sep (init ++ [z])) + 1)%nat
              tables.1 Hinit Hz) as (pre' & Hsplit & Hrun);
    [| reflexivity | reflexivity |].
  { rewrite !length_append. pose proof (length_join_snoc space init z). 
    fold sep in H. lia. }
  rewrite Hrun. cbn [mbind outcome_bind fst snd]. fold sep in Hsplit.
  assert (String.length pre + String.length (join sep (init ++ [z]))
          = String.length pre' + String.length z)%nat as Hlen.
  { rewrite <- !length_append, Hsplit. reflexivity. }
  set (line := String.append pre
                 (String.append (join sep (init ++ [z])) (String comma gloss))).
  assert (view line (String.length pre')
            (String.length pre + String.length (join sep (init ++ [z])) + 1 - 1
             - String.length pre') = Ok z) as ->.
  { replace (String.length pre + String.length (join sep (init ++ [z])) + 1 - 1
             - String.length pre')%nat with (String.length z) by lia.
    unfold line. rewrite <- append_assoc, Hsplit, append_assoc.
    apply view_middle. }
  assert (view line
            (String.length pre + String.length (join sep (init ++ [z])) + 1)
            (String.length line
             - (String.length pre + String.length (join sep (init ++ [z])) + 1))
          = Ok gloss) as ->.
  { unfold line.
    change (String comma gloss)
      with (String.append (String comma EmptyString) gloss).
    rewrite <- !append_assoc.
    replace (String.length pre + String.length (join sep (init ++ [z])) + 1)%nat
      with (String.length
              (String.append (String.append pre (join sep (init ++ [z])))
                 (String comma EmptyString)))
      by (rewrite !length_append; cbn [String.length]; lia).
    apply view_rest. rewrite (length_append _ gloss). lia. }
  cbn [mbind outcome_bind]. rewrite fold_left_app. reflexivity.
Qed.

(** *** The two files *)

Lemma add_edges_app g (l1 l2 : list (N * N)) :
  add_edges g (l1 ++ l2) = (g' ← add_edges g l1; add_edges g' l2).
Proof.
  revert g. induction l1 as [| [v w] l1 IH]; intros g; [reflexivity |].
  cbn [app add_edges]. destruct (Digraph.add_edge g v w); cbn; auto.
Qed.

Lemma synset_lines_text (ss : list synset) tables :
  Forall synset_ok ss →
  for_each synset_line (synset_text <$> ss) tables = Ok (read_synsets ss tables).
Proof.
  intros Hok. revert tables.
  induction Hok as [| s ss Hs _ IH]; intros tables; [reflexivity |].
  cbn [fmap list_fmap for_each]. rewrite (synset_line_text s tables Hs).
  cbn [mbind outcome_bind]. rewrite IH. reflexivity.
Qed.

Lemma hypernym_lines_text (hs : list hypernym) g :
  Forall hypernym_ok hs →
  for_each hypernym_line (hypernym_text <$> hs) g
  = add_edges g (hypernym_edges hs).
Proof.
  intros Hok. revert g.
  induction Hok as [| h hs Hh _ IH]; intros g; [reflexivity |].
  cbn [fmap list_fmap for_each]. rewrite (hypernym_line_text h g Hh).
  unfold hypernym_edges. rewrite bind_cons, add_edges_app.
  destruct (add_edges g ((λ to, (h.1, to)) <$> h.2)); cbn [mbind outcome_bind];
    try reflexivity.
  apply IH.
Qed.

Lemma hypernym_edges_bounded (hs : list hypernym) :
  Forall hypernym_ok hs → edges_bounded (hypernym_edges hs).
Proof.
  intros Hok. unfold edges_bounded, hypernym_edges.
  induction Hok as [| h hs [Hfrom Hto] _ IH]; [constructor |].
  rewrite bind_cons. apply Forall_app. split; [| exact IH].
  apply Forall_fmap. eapply Forall_impl; [exact Hto |].
  intros to Hle. cbn. unfold UINT_MAX, UINT_RANGE in *. split; lia.
Qed.

Lemma extend_extend entry (l1 l2 : list N) :
  extend (extend entry l1) l2 = extend entry (l1 ++ l2).
Proof.
  destruct l1 as [| x l1]; [reflexivity |].
  destruct l2 as [| y l2]; [rewrite app_nil_r; reflexivity |].
  cbn. rewrite <- app_assoc. reflexivity.
Qed.

Lemma emplace_words_lookup id (words : list string) m (word : string) :
  fold_left (λ m w, emplace_id m w id) words m !! word
  = extend (m !! word) ((λ _, id) <$> filter (λ w, w = word) words).
Proof.
  revert m. induction words as [| x words IH]; intros m; [reflexivity |].
  cbn [fold_left]. rewrite IH, filter_cons.
  destruct (decide (x = word)) as [-> | Hne].
  - assert (emplace_id m word id !! word = extend (m !! word) [id]) as ->
      by (unfold emplace_id; rewrite lookup_insert_eq; reflexivity).
    cbn [fmap list_fmap]. rewrite extend_extend. reflexivity.
  - assert (emplace_id m x id !! word = m !! word) as ->
      by (unfold emplace_id; rewrite lookup_insert_ne by exact Hne; reflexivity).
    reflexivity.
Qed.

Lemma read_synsets_cons s ss tables :
  read_synsets (s :: ss) tables
  = read_synsets ss
      (fold_left (λ m word, emplace_id m word s.1.1) s.1.2 tables.1,
       <[s.1.1 := s.2]> tables.2).
Proof. reflexivity. Qed.

Lemma read_synsets_snoc s ss tables :
  read_synsets (ss ++ [s]) tables
  = (fold_left (λ m word, emplace_id m word s.1.1) s.1.2
       (read_synsets ss tables).1,
     <[s.1.1 := s.2]> (read_synsets ss tables).2).
Proof. unfold read_synsets. rewrite fold_left_app. reflexivity. Qed.

Lemma read_synsets_words (ss : list synset) tables (word : string) :
  (read_synsets ss tables).1 !! word
  = extend (tables.1 !! word) (ids_of ss word).
Proof.
  revert tables. induction ss as [| s ss IH]; intros tables; [reflexivity |].
  rewrite read_synsets_cons, IH. cbn [fst]. rewrite emplace_words_lookup.
  rewrite extend_extend. unfold ids_of. rewrite bind_cons. reflexivity.
Qed.

Lemma read_synsets_glosses (ss : list synset) tables (id : N) :
  (read_synsets ss tables).2 !! id
  = match gloss_of ss id with
    | Some gloss => Some gloss
    | None => tables.2 !! id
    end.
Proof.
  induction ss as [| s ss IH] using rev_ind; [reflexivity |].
  rewrite read_synsets_snoc. cbn [snd]. unfold gloss_of in *.
  rewrite filter_app, filter_cons, filter_nil.
  destruct (decide (s.1.1 = id)) as [<- | Hne].
  - rewrite lookup_insert_eq, last_snoc. reflexivity.
  - rewrite lookup_insert_ne by exact Hne. rewrite app_nil_r. exact IH.
Qed.

(** *** Distance zero *)

Lemma distance_zero_exact g (A B : list N) :
  wf g → 2 * N.of_nat (Digraph.size g) < UINT_RANGE → A ≠ [] →
  Forall (registered g) A → Forall (registered g) B →
  ∃ x d, SCA.ancestor_length g A B = Ok (x, d)
         ∧ (d = 0 ↔ ∃ z, z ∈ A ∧ z ∈ B).
Proof.
  intros Hwf Hsize Hne HA HB.
  destruct (decide (Exists (λ y, y ∈ A) B)) as [Hex | Hnone].
  - apply Exists_exists in Hex.
    destruct (first_such (λ y, y ∈ A) B Hex) as (B1 & z & B2 & -> & Hz & HB1).
    destruct (ancestor_length_overlap g A B1 B2 z Hwf HA) as [Hres _].
    + intros y Hy. split; [| apply HB1, Hy].
      eapply Forall_forall in HB; [exact HB |]. apply elem_of_app. auto.
    + exact Hz.
    + exists z, 0. split; [exact Hres |]. split; [| reflexivity].
      intros _. exists z. split; [exact Hz | apply elem_of_app; right; left].
  - assert (¬ ∃ z, z ∈ A ∧ z ∈ B) as Hno.
    { intros (z & HzA & HzB). apply Hnone, Exists_exists. eauto. }
    destruct (ancestor_length_disjoint_exact g A B Hwf Hsize Hne HA HB)
      as (x & d & Hres & [(-> & Hx & _) | (Hlt & Hct)] & _).
    + intros y HyB HyA. apply Hno. eauto.
    + exists x, UINT_MAX. split; [exact Hres |].
      split; [discriminate | intros H; destruct (Hno H)].
    + exists x, d. split; [exact Hres |].
      split; [| intros H; destruct (Hno H)].
      intros ->. destruct Hct as (a & b & na & nb & Ha & Hb & Hax & Hbx & Hsum).
      cbn in Hsum. assert (na = 0%nat ∧ nb = 0%nat) as [-> ->] by lia.
      inversion Hax; subst. inversion Hbx; subst. destruct Hno. eauto.
Qed.

(** *** The WordNet of a text *)

(** The constructor reads the synsets, reserves one row for each kept
    line and adds the edges of the hypernym records. *)
Lemma WordNet_WordNet_unfold (ss : list synset) (hs : list hypernym)
    (synsets hypernyms : list string) :
  Forall synset_ok ss → Forall hypernym_ok hs →
  kept synsets = synset_text <$> ss →
  kept hypernyms = hypernym_text <$> hs →
  WordNet_WordNet synsets hypernyms
  = (graph ← add_edges (Digraph.reset_graph_size Digraph.empty (length ss))
               (hypernym_edges hs);
     Ok (WordNet.mk (read_synsets ss (∅, ∅)).1 (read_synsets ss (∅, ∅)).2
                    graph)).
Proof.
  intros Hss Hhs Hsyn Hhyp. unfold WordNet_WordNet.
  rewrite Hsyn, Hhyp, (synset_lines_text ss _ Hss). cbn [mbind outcome_bind].
  rewrite (hypernym_lines_text hs _ Hhs), length_fmap. reflexivity.
Qed.

(** What the constructor returns, when it returns. *)
Lemma WordNet_WordNet_inv (ss : list synset) (hs : list hypernym)
    (synsets hypernyms : list string) (wn : WordNet) :
  Forall synset_ok ss → Forall hypernym_ok hs →
  kept synsets = synset_text <$> ss →
  kept hypernyms = hypernym_text <$> hs →
  WordNet_WordNet synsets hypernyms = Ok wn →
  (∀ word, WordNet.word_ids wn !! word
           = match ids_of ss word with
             | [] => None
             | ids => Some ids
             end)
  ∧ (∀ id, WordNet.glosses wn !! id = gloss_of ss id)
  ∧ reachable (WordNet.graph wn)
  ∧ (∀ x, registered (WordNet.graph wn) x ↔ x ∈ endpoints (hypernym_edges hs))
  ∧ (∀ v, Digraph.get_neighbours (WordNet.graph wn) v
          = Ok (targets (hypernym_edges hs) v)).
Proof.
  intros Hss Hhs Hsyn Hhyp.
  rewrite (WordNet_WordNet_unfold ss hs _ _ Hss Hhs Hsyn Hhyp).
  pose proof (hypernym_edges_bounded hs Hhs) as Hb.
  set (g0 := Digraph.reset_graph_size Digraph.empty (length ss)).
  assert (reachable g0) as Hg0 by (apply reachable_reserve, reachable_empty).
  destruct (add_edges g0 (hypernym_edges hs)) as [g | | |] eqn:Hg;
    cbn [mbind outcome_bind]; try discriminate.
  intros [= <-].
  pose proof (add_edges_reachable g0 _ g Hg0 Hb Hg) as Hreach.
  destruct (add_edges_spec g0 _ g (reachable_wf g0 Hg0) Hb Hg)
    as (_ & Hids & Hnb).
  split; [| split; [| split; [| split]]].
  - intros word. cbn [WordNet.word_ids]. rewrite read_synsets_words. cbn [fst].
    rewrite lookup_empty. destruct (ids_of ss word); reflexivity.
  - intros id. cbn [WordNet.glosses]. rewrite read_synsets_glosses.
    cbn [snd]. rewrite lookup_empty. destruct (gloss_of ss id); reflexivity.
  - exact Hreach.
  - intros x. cbn [WordNet.graph].
    rewrite (wf_registered_elem g x (reachable_wf g Hreach)), Hids.
    pose proof (elem_of_first_seen [] (endpoints (hypernym_edges hs)) x) as H.
    cbn in H. cbn [g0 Digraph.reset_graph_size Digraph.vert_id_map Digraph.empty app].
    rewrite H. split; [intros [Hx | Hx]; [inversion Hx | exact Hx] | auto].
  - intros v. cbn [WordNet.graph]. apply (Hnb v []). reflexivity.
Qed.

(** The constructor returns when the hypernym records name no more ids
    than there are synset records. *)
Lemma WordNet_WordNet_text (ss : list synset) (hs : list hypernym)
    (synsets hypernyms : list string) :
  Forall synset_ok ss → Forall hypernym_ok hs →
  kept synsets = synset_text <$> ss →
  kept hypernyms = hypernym_text <$> hs →
  (vertices_of (hypernym_edges hs) ≤ length ss)%nat →
  ∃ wn, WordNet_WordNet synsets hypernyms = Ok wn.
Proof.
  intros Hss Hhs Hsyn Hhyp Hroom.
  rewrite (WordNet_WordNet_unfold ss hs _ _ Hss Hhs Hsyn Hhyp).
  destruct (add_edges_reset (length ss) _ (hypernym_edges_bounded hs Hhs) Hroom)
    as (g & -> & _).
  cbn [mbind outcome_bind]. eauto.
Qed.

Lemma is_noun_ids wn (word : string) (ids : list N) :
  WordNet.word_ids wn !! word
  = match ids with [] => None | x :: l => Some (x :: l) end →
  WordNet.is_noun wn word = bool_decide (ids ≠ [])
  ∧ (WordNet.is_noun wn word = true → WordNet.ids_at wn word = Ok ids).
Proof.
  intros H. unfold WordNet.is_noun, WordNet.ids_at. rewrite H.
  destruct ids as [| x l]; split.
  - rewrite bool_decide_eq_false_2 by (intros [? ?]; discriminate).
    rewrite bool_decide_eq_false_2 by tauto. reflexivity.
  - intros Hn. apply bool_decide_eq_true in Hn as [? Hn]. discriminate.
  - rewrite bool_decide_eq_true_2 by eauto.
    rewrite bool_decide_eq_true_2 by discriminate. reflexivity.
  - reflexivity.
Qed.

Lemma elem_of_ids_of (ss : list synset) (word : string) (id : N) :
  id ∈ ids_of ss word ↔ ∃ s, s ∈ ss ∧ s.1.1 = id ∧ word ∈ s.1.2.
Proof.
  unfold ids_of. rewrite list_elem_of_bind. split.
  - intros (s & Hid & Hs). apply list_elem_of_fmap in Hid as (w & -> & Hw).
    apply list_elem_of_filter in Hw as [-> Hw]. eauto.
  - intros (s & Hs & <- & Hw). exists s. split; [| exact Hs].
    apply list_elem_of_fmap. exists word. split; [reflexivity |].
    apply list_elem_of_filter. auto.
Qed.

Lemma ancestor_length_unknown g (A B : list N) u :
  wf g → u ∈ A → ¬ registered g u →
  SCA.ancestor_length g A B = OutOfRange.
Proof.
  intros Hwf Hu Hun.
  destruct (first_such (λ y, ¬ registered g y) A) as (A1 & z & A2 & -> & Hz & HA1);
    [eauto |].
  apply ancestor_length_unknown_a; [exact Hwf | | exact Hz].
  apply Forall_forall. intros y Hy.
  destruct (decide (registered g y)) as [H | H]; [exact H |].
  destruct (HA1 y Hy H).
Qed.

(** *** The example WordNet *)

Lemma wordnet8_graph : WordNet.graph wordnet8 = dag8.
Proof. vm_compute. reflexivity. Qed.

Lemma reachable_wordnet8 : reachable (WordNet.graph wordnet8).
Proof. rewrite wordnet8_graph. apply reachable_dag8. Qed.

Lemma wordnet8_words (w : string) (ids : list N) :
  WordNet.word_ids wordnet8 !! w = Some ids → ids ≠ [].
Proof.
  assert (WordNet_WordNet
            ["0,r,the root"; "1,a,a leaf"; "2,b,a leaf"; "3,c,above a";
             "4,d,above c"; "5,e,below the root"; "6,f,above b";
             "7,g,above f"]%string
            ["1,0,3"; "3,4"; "4,5"; "2,6"; "6,7"; "7,5"; "5,0"]%string
          = Ok wordnet8) as Hwn by (vm_compute; reflexivity).
  apply (WordNet_WordNet_inv
           [(0, ["r"], "the root"); (1, ["a"], "a leaf"); (2, ["b"], "a leaf");
            (3, ["c"], "above a"); (4, ["d"], "above c");
            (5, ["e"], "below the root"); (6, ["f"], "above b");
            (7, ["g"], "above f")]%string
           [(1, [0; 3]); (3, [4]); (4, [5]); (2, [6]); (6, [7]); (7, [5]);
            (5, [0])]) in Hwn as (Hwords & _).
  - rewrite Hwords. destruct (ids_of _ w); [discriminate |].
    intros [= <-]. discriminate.
  - repeat constructor; cbn; unfold UINT_MAX; try lia; discriminate.
  - repeat constructor; cbn; unfold UINT_MAX; lia.
  - reflexivity.
  - reflexivity.
Qed.

(** * The digraph *)

(** C5. After [add_edge a b] the neighbours of [a] should be the former
    ones followed by [b]. On [fork], built with its three rows reserved,
    the id 2 has the one neighbour 0 and every row is in use; [add_edge 2 9]
    registers 9 in a fourth row, which moves the rows while the reference
    to the row of 2 is held: the edge is written through a dangling
    reference and the call has no defined result. *)
Theorem add_edge_dangling_row :
  Digraph.get_neighbours fork 2 = Ok [0]
  ∧ Digraph.size fork = 3%nat
  ∧ Digraph.graph_capacity fork = 3%nat
  ∧ Digraph.id_vert_map fork !! 9 = None
  ∧ Digraph.add_edge fork 2 9 = Undefined.
Proof. do 4 (split; [vm_compute; reflexivity |]). vm_compute. reflexivity. Qed.

(** C6. In every state produced by [add_edge] and [reset_graph_size] the two
    index maps are inverse to each other, and the adjacency table, the
    forward map and the inverse map have the same number of entries. *)
Theorem index_maps_bijection (g : Digraph) :
  reachable g →
  (∀ x i, Digraph.id_vert_map g !! x = Some i →
          Digraph.vert_id_map g !! N.to_nat i = Some x)
  ∧ (∀ k, (k < Digraph.size g)%nat →
          ∃ x, Digraph.vert_id_map g !! k = Some x
               ∧ Digraph.id_vert_map g !! x = Some (N.of_nat k))
  ∧ length (Digraph.graph g) = length (Digraph.vert_id_map g)
  ∧ size (Digraph.id_vert_map g) = length (Digraph.vert_id_map g).
Proof.
  intros Hg. pose proof (reachable_wf g Hg) as Hwf.
  split; [exact (wf_fwd g Hwf) |]. split; [| split].
  - intros k Hk. unfold Digraph.size in Hk. rewrite (wf_len g Hwf) in Hk.
    apply lookup_lt_is_Some_2 in Hk as [x Hx].
    exists x. split; [exact Hx | exact (wf_bwd g Hwf k x Hx)].
  - exact (wf_len g Hwf).
  - exact (wf_card g Hwf).
Qed.

Lemma index_maps_bijection_witness :
  (∀ x i, Digraph.id_vert_map dag8 !! x = Some i →
          Digraph.vert_id_map dag8 !! N.to_nat i = Some x)
  ∧ (∀ k, (k < Digraph.size dag8)%nat →
          ∃ x, Digraph.vert_id_map dag8 !! k = Some x
               ∧ Digraph.id_vert_map dag8 !! x = Some (N.of_nat k))
  ∧ length (Digraph.graph dag8) = length (Digraph.vert_id_map dag8)
  ∧ size (Digraph.id_vert_map dag8) = length (Digraph.vert_id_map dag8).
Proof.
  apply (index_maps_bijection dag8). apply reachable_dag8.
Defined.

(** C7. [get_neighbours] of an id that was never registered is the empty
    sequence, but [add_edge] does not return normally for every pair of
    ids: on [forest], built with its four rows reserved, [add_edge 1 7]
    has no defined result. *)
Theorem add_edge_not_total :
  reachable forest
  ∧ Digraph.get_neighbours forest 7 = Ok []
  ∧ Digraph.add_edge forest 1 7 = Undefined.
Proof.
  split; [apply reachable_forest | split; vm_compute; reflexivity].
Qed.

(** * The shortest common ancestor query *)

(** C1. On the rooted DAG [dag8] the query for [{1}] and [{2}] returns the
    vertex 5 and the length 6, although the root 0 is reached from 1 by one
    edge and from 2 by four: 6 is not the length of a shortest common
    ancestor path. *)
Theorem ancestor_length_not_shortest :
  SCA.ancestor_length dag8 [1] [2] = Ok (5, 6)
  ∧ common_total dag8 [1] [2] 0 5
  ∧ ¬ sca_distance dag8 [1] [2] 6.
Proof.
  assert (common_total dag8 [1] [2] 0 5) as Hcommon.
  { exists 1, 2, 1%nat, 4%nat. repeat split; try (left; fail).
    - apply (nsteps_l _ _ _ 0); [| constructor].
      apply (edge_intro dag8 1 0 [0; 3] eq_refl). left.
    - apply (nsteps_l _ _ _ 6).
      { apply (edge_intro dag8 2 6 [6] eq_refl). left. }
      apply (nsteps_l _ _ _ 7).
      { apply (edge_intro dag8 6 7 [7] eq_refl). left. }
      apply (nsteps_l _ _ _ 5).
      { apply (edge_intro dag8 7 5 [5] eq_refl). left. }
      apply (nsteps_l _ _ _ 0); [| constructor].
      apply (edge_intro dag8 5 0 [0] eq_refl). left. }
  split; [reflexivity |]. split; [exact Hcommon |].
  intros [_ Hmin]. specialize (Hmin 0 5%nat Hcommon). lia.
Qed.

(** C2. When no vertex is reachable from both sets, the query returns
    normally: the pair of the id registered first (dense index 0) and
    [UINT_MAX]. *)
Theorem no_common_ancestor_result (g : Digraph) (A B : list N) :
  reachable g → A ≠ [] → B ≠ [] →
  Forall (registered g) A → Forall (registered g) B →
  (∀ y, ¬ common_ancestor g A B y) →
  ∃ x0, Digraph.vert_id_map g !! 0%nat = Some x0
        ∧ SCA.ancestor_length g A B = Ok (x0, UINT_MAX).
Proof.
  intros Hg HA0 _ HA HB Hnone.
  pose proof (reachable_wf g Hg) as Hwf.
  destruct (ancestor_length_disjoint g A B Hwf HA0 HA HB)
    as (x & d & Hres & [[-> Hx] | [_ Hc]]).
  - intros y HyB HyA. apply (Hnone y).
    split; exists y; (split; [assumption | constructor]).
  - exists x. auto.
  - destruct (Hnone x Hc).
Qed.

Lemma no_common_ancestor_result_witness :
  ∃ x0, Digraph.vert_id_map forest !! 0%nat = Some x0
        ∧ SCA.ancestor_length forest [1] [3] = Ok (x0, UINT_MAX).
Proof.
  apply (no_common_ancestor_result forest [1] [3]).
  - apply reachable_forest.
  - discriminate.
  - discriminate.
  - repeat constructor. apply (registered_lookup forest 1 0). reflexivity.
  - repeat constructor. apply (registered_lookup forest 3 2). reflexivity.
  - apply forest_no_common.
Defined.

(** C2, as stated, fails on the two-tree forest: no vertex is reachable
    from both 1 and 3, and the query still returns a pair whose ancestor is
    the ordinary vertex 1. *)
Lemma no_common_ancestor_returns_vertex :
  (∀ y, ¬ common_ancestor forest [1] [3] y)
  ∧ SCA.ancestor_length forest [1] [3] = Ok (1, 4294967295)
  ∧ registered forest 1.
Proof.
  split; [apply forest_no_common |]. split; [reflexivity |].
  apply (registered_lookup forest 1 0). reflexivity.
Qed.

(** C3. When the two sets share an id, the loop over [subset_b] returns at
    its first id that is also in [subset_a], with distance 0; the [while]
    loop is not entered. In particular a registered vertex is its own
    ancestor at distance 0. *)
Theorem overlap_returns_zero (g : Digraph) :
  reachable g →
  (∀ A B, Forall (registered g) A → Forall (registered g) B →
     (∃ x, x ∈ A ∧ x ∈ B) →
     ∃ x st, x ∈ A ∧ x ∈ B
       ∧ SCA.ancestor_length g A B = Ok (x, 0)
       ∧ for_each (SCA.seed_a g) A (SCA.initial g) = Ok st
       ∧ SCA.seed_b g B st = Ok (inl (x, 0)))
  ∧ (∀ v, registered g v →
       SCA.ancestor g v v = Ok v ∧ SCA.length g v v = Ok 0).
Proof.
  intros Hg. pose proof (reachable_wf g Hg) as Hwf.
  assert (∀ A B, Forall (registered g) A → Forall (registered g) B →
     (∃ x, x ∈ A ∧ x ∈ B) →
     ∃ x st, x ∈ A ∧ x ∈ B
       ∧ SCA.ancestor_length g A B = Ok (x, 0)
       ∧ for_each (SCA.seed_a g) A (SCA.initial g) = Ok st
       ∧ SCA.seed_b g B st = Ok (inl (x, 0))) as Hgen.
  { intros A B HA HB (x & HxA & HxB).
    destruct (first_such (λ y, y ∈ A) B) as (B1 & z & B2 & -> & Hz & HB1).
    { exists x. auto. }
    destruct (ancestor_length_overlap g A B1 B2 z Hwf HA) as (Hres & st & Hst & Hsb).
    - intros y Hy. split; [| apply HB1, Hy].
      eapply Forall_forall in HB; [exact HB |]. apply elem_of_app. auto.
    - exact Hz.
    - exists z, st. repeat split; try assumption.
      apply elem_of_app. right. left. }
  split; [exact Hgen |].
  intros v Hv.
  destruct (Hgen [v] [v]) as (x & st & Hx & _ & Hres & _).
  { repeat constructor. exact Hv. }
  { repeat constructor. exact Hv. }
  { exists v. split; left. }
  apply list_elem_of_singleton in Hx as ->.
  unfold SCA.ancestor, SCA.length. rewrite Hres. split; reflexivity.
Qed.

Lemma overlap_returns_zero_witness :
  (∀ A B, Forall (registered dag8) A → Forall (registered dag8) B →
     (∃ x, x ∈ A ∧ x ∈ B) →
     ∃ x st, x ∈ A ∧ x ∈ B
       ∧ SCA.ancestor_length dag8 A B = Ok (x, 0)
       ∧ for_each (SCA.seed_a dag8) A (SCA.initial dag8) = Ok st
       ∧ SCA.seed_b dag8 B st = Ok (inl (x, 0)))
  ∧ (∀ v, registered dag8 v →
       SCA.ancestor dag8 v v = Ok v ∧ SCA.length dag8 v v = Ok 0).
Proof.
  apply (overlap_returns_zero dag8). apply reachable_dag8.
Defined.

(** C4. On [dag8] the length from 1 to 2 is 6 and the length from 2 to 1
    is 5: exchanging the two arguments changes the result. *)
Theorem length_not_symmetric :
  SCA.length dag8 1 2 = Ok 6 ∧ SCA.length dag8 2 1 = Ok 5.
Proof. split; reflexivity. Qed.

(** C10. The query throws [std::out_of_range] when [subset_a] holds an
    unregistered id, and when [subset_a] is registered and an unregistered
    id of [subset_b] is preceded only by registered ids outside
    [subset_a]. *)
Theorem unknown_id_out_of_range (g : Digraph) (A B : list N) :
  reachable g →
  (∃ u, u ∈ A ∧ ¬ registered g u)
  ∨ (Forall (registered g) A
     ∧ ∃ B1 u B2, B = B1 ++ u :: B2 ∧ ¬ registered g u
                  ∧ ∀ y, y ∈ B1 → registered g y ∧ y ∉ A) →
  SCA.ancestor_length g A B = OutOfRange.
Proof.
  intros Hg. pose proof (reachable_wf g Hg) as Hwf.
  intros [Hu | (HA & B1 & u & B2 & -> & Hu & HB1)].
  - destruct (first_such (λ y, ¬ registered g y) A Hu)
      as (A1 & z & A2 & -> & Hz & HA1).
    apply ancestor_length_unknown_a; [exact Hwf | | exact Hz].
    apply Forall_forall. intros y Hy.
    destruct (decide (registered g y)) as [H | H]; [exact H |].
    destruct (HA1 y Hy H).
  - apply ancestor_length_unknown_b; assumption.
Qed.

Lemma unknown_id_out_of_range_witness :
  SCA.ancestor_length forest [1] [3; 99] = OutOfRange.
Proof.
  apply (unknown_id_out_of_range forest [1] [3; 99]).
  - apply reachable_forest.
  - right. split.
    + repeat constructor. apply (registered_lookup forest 1 0). reflexivity.
    + exists [3], 99, []. split; [reflexivity |].
      split; [apply unregistered_lookup; reflexivity |].
      intros y Hy. apply list_elem_of_singleton in Hy as ->. split.
      * apply (registered_lookup forest 3 2). reflexivity.
      * intros H. apply list_elem_of_singleton in H. discriminate.
Defined.

(** C10, as stated, fails when an id shared with [subset_a] comes first in
    [subset_b]: the unregistered id 99 is never looked up. *)
Lemma unknown_id_not_looked_up :
  ¬ registered forest 99
  ∧ SCA.ancestor_length forest [1] [1; 99] = Ok (1, 0).
Proof.
  split; [apply unregistered_lookup; reflexivity | reflexivity].
Qed.

(** * Read-side operations *)

(** C9. [reset_graph_size] is observable: a client that adds the edge
    1→0 to a new graph and asks for the neighbours of 1 gets no defined
    result, and gets the neighbour 0 when it reserves two rows first. *)
Theorem reserve_decides_add_edge :
  run Digraph.empty [Add_edge 1 0; Get_neighbours 1] = Undefined
  ∧ run Digraph.empty [Reset_graph_size 2; Add_edge 1 0; Get_neighbours 1]
    = Ok [Done; Done; Neighbours [0]].
Proof. split; vm_compute; reflexivity. Qed.

(** * Outcast *)




(** * Further properties *)

(** ** The digraph *)

(** X1. A client reserves [n] rows in an empty graph and adds a list of
    edges that name at most [n] different ids: every [add_edge] returns,
    and [get_neighbours v] then returns the targets of the edges leaving
    [v], in insertion order and with repetitions. *)
Theorem add_edges_neighbours (n : nat) (edges : list (N * N)) (v : N) :
  edges_bounded edges →
  (size (list_to_set (endpoints edges) : gset N) ≤ n)%nat →
  ∃ g, add_edges (Digraph.reset_graph_size Digraph.empty n) edges = Ok g
       ∧ Digraph.get_neighbours g v = Ok (targets edges v).
Proof.
  intros Hb Hn. rewrite <- first_seen_set in Hn.
  destruct (add_edges_reset n edges Hb Hn) as (g & Hg & _ & _ & _ & Hnb).
  exists g. split; [exact Hg | apply Hnb].
Qed.

Lemma add_edges_neighbours_witness :
  ∃ g, add_edges (Digraph.reset_graph_size Digraph.empty 4)
         [(1, 0); (2, 0); (1, 3); (1, 0)] = Ok g
       ∧ Digraph.get_neighbours g 1
         = Ok (targets [(1, 0); (2, 0); (1, 3); (1, 0)] 1).
Proof.
  apply (add_edges_neighbours 4 [(1, 0); (2, 0); (1, 3); (1, 0)] 1).
  - repeat constructor.
  - vm_compute. lia.
Defined.

(** X2. In the graph of such a client the dense indices are given out in
    the order in which the ids are first met by [add_edge] (source before
    target): the inverse map lists the distinct endpoints in that order, an
    id is registered exactly when it is an endpoint of an inserted edge,
    and [size] is the number of distinct endpoints. *)
Theorem add_edges_vertices (n : nat) (edges : list (N * N)) :
  edges_bounded edges →
  (size (list_to_set (endpoints edges) : gset N) ≤ n)%nat →
  ∃ g, add_edges (Digraph.reset_graph_size Digraph.empty n) edges = Ok g
       ∧ Digraph.vert_id_map g = first_seen [] (endpoints edges)
       ∧ (∀ x, registered g x ↔ x ∈ endpoints edges)
       ∧ Digraph.size g = size (list_to_set (endpoints edges) : gset N).
Proof.
  intros Hb Hn. rewrite <- first_seen_set in Hn.
  destruct (add_edges_reset n edges Hb Hn) as (g & Hg & Hreach & _ & Hids & _).
  pose proof (reachable_wf g Hreach) as Hwf.
  exists g. split; [exact Hg |]. split; [exact Hids |]. split.
  - intros x. rewrite (wf_registered_elem _ x Hwf), Hids.
    pose proof (elem_of_first_seen [] (endpoints edges) x) as H. cbn in H.
    rewrite H. split; [intros [Hx | Hx]; [inversion Hx | exact Hx] | auto].
  - unfold Digraph.size. rewrite (wf_len _ Hwf), Hids. apply first_seen_set.
Qed.

Lemma add_edges_vertices_witness :
  ∃ g, add_edges (Digraph.reset_graph_size Digraph.empty 3)
         [(5, 7); (7, 5); (2, 5)] = Ok g
       ∧ Digraph.vert_id_map g = first_seen [] (endpoints [(5, 7); (7, 5); (2, 5)])
       ∧ (∀ x, registered g x ↔ x ∈ endpoints [(5, 7); (7, 5); (2, 5)])
       ∧ Digraph.size g
         = size (list_to_set (endpoints [(5, 7); (7, 5); (2, 5)]) : gset N).
Proof.
  apply (add_edges_vertices 3 [(5, 7); (7, 5); (2, 5)]).
  - repeat constructor.
  - vm_compute. lia.
Defined.

(** X3. [add_edge a b] changes the neighbours of [a] only: for every other
    id, registered or not, [get_neighbours] returns what it returned
    before. *)
Theorem add_edge_other_neighbours (g g' : Digraph) (a b v : N) :
  reachable g → a < UINT_RANGE → b < UINT_RANGE →
  Digraph.add_edge g a b = Ok g' → v ≠ a →
  Digraph.get_neighbours g' v = Digraph.get_neighbours g v.
Proof.
  intros Hg Ha Hb Hadd Hne.
  exact (get_neighbours_add_edge_other g a b g' v (reachable_wf g Hg)
           Ha Hb Hadd Hne).
Qed.

Lemma add_edge_other_neighbours_witness :
  Digraph.get_neighbours (graph_of [(1, 0); (2, 0); (2, 1)]) 1
  = Digraph.get_neighbours fork 1.
Proof.
  apply (add_edge_other_neighbours fork (graph_of [(1, 0); (2, 0); (2, 1)]) 2 1 1).
  - apply reachable_fork.
  - reflexivity.
  - reflexivity.
  - vm_compute. reflexivity.
  - discriminate.
Defined.

(** X4. [add_edge a b] registers [a] and [b] and nothing else, keeps every
    index already given out, and lets [size] grow by the number of its
    endpoints that were not registered before. *)
Theorem add_edge_registers (g g' : Digraph) (a b : N) :
  reachable g → a < UINT_RANGE → b < UINT_RANGE →
  Digraph.add_edge g a b = Ok g' →
  (∀ x, registered g' x ↔ registered g x ∨ x = a ∨ x = b)
  ∧ (∀ x i, Digraph.id_vert_map g !! x = Some i →
            Digraph.id_vert_map g' !! x = Some i)
  ∧ Digraph.size g'
    = (Digraph.size g
       + (if decide (registered g a) then 0 else 1)
       + (if decide (registered g b ∨ b = a) then 0 else 1))%nat.
Proof.
  intros Hg Ha Hb Hadd. pose proof (reachable_wf g Hg) as Hwf.
  pose proof (wf_add_edge g a b g' Hwf Ha Hb Hadd) as Hwf'.
  destruct (add_edge_tables g a b g' Hwf Ha Hb Hadd) as (Hids & _ & Hmono).
  split; [| split].
  - intros x. rewrite (wf_registered_elem g' x Hwf'), Hids.
    rewrite elem_of_first_seen, <- (wf_registered_elem g x Hwf).
    rewrite elem_of_cons, list_elem_of_singleton. reflexivity.
  - exact Hmono.
  - unfold Digraph.size. rewrite (wf_len g' Hwf'), (wf_len g Hwf), Hids.
    rewrite length_app. cbn [first_seen].
    pose proof (wf_registered_elem g a Hwf) as Hra.
    pose proof (wf_registered_elem g b Hwf) as Hrb.
    repeat case_decide; cbn [length]; try lia; exfalso;
      rewrite ?elem_of_app, ?list_elem_of_singleton in *;
      intuition (subst; tauto).
Qed.

Lemma add_edge_registers_witness :
  let g := Digraph.reset_graph_size fork 4 in
  let g' := graph_of [(1, 0); (2, 0); (2, 9)] in
  (∀ x, registered g' x ↔ registered g x ∨ x = 2 ∨ x = 9)
  ∧ (∀ x i, Digraph.id_vert_map g !! x = Some i →
            Digraph.id_vert_map g' !! x = Some i)
  ∧ Digraph.size g'
    = (Digraph.size g
       + (if decide (registered g 2) then 0 else 1)
       + (if decide (registered g 9 ∨ 9 = 2) then 0 else 1))%nat.
Proof.
  apply (add_edge_registers (Digraph.reset_graph_size fork 4)
           (graph_of [(1, 0); (2, 0); (2, 9)]) 2 9).
  - apply reachable_reserve, reachable_fork.
  - reflexivity.
  - reflexivity.
  - vm_compute. reflexivity.
Defined.

(** X5. [get_neighbours] returns registered ids only. *)
Theorem get_neighbours_registered (g : Digraph) (v y : N) (row : list N) :
  reachable g → Digraph.get_neighbours g v = Ok row → y ∈ row →
  registered g y.
Proof.
  intros Hg Hrow Hy. pose proof (reachable_wf g Hg) as Hwf.
  unfold Digraph.get_neighbours in Hrow.
  destruct (Digraph.id_vert_map g !! v) as [i|]; [| injection Hrow as <-; inversion Hy].
  destruct (at_index (Digraph.graph g) i) as [nb | | |]; cbn in Hrow;
    try discriminate.
  destruct (map_each_at_index_elem _ nb row y Hrow Hy) as (n & _ & Hn).
  eexists. eapply wf_bwd; eauto.
Qed.

Lemma get_neighbours_registered_witness : registered dag8 3.
Proof.
  apply (get_neighbours_registered dag8 1 3 [0; 3]).
  - apply reachable_dag8.
  - reflexivity.
  - right. left.
Defined.

(** X6. The dump of a graph is the header line followed by one row for each
    vertex in the order of the dense indices; the row of a vertex shows its
    id and exactly the ids [get_neighbours] returns for it. No index of the
    dump is out of range. *)
Theorem print_rows (g : Digraph) :
  reachable g →
  ∃ rows,
    Forall2 (λ id row, Digraph.get_neighbours g id = Ok row)
      (Digraph.vert_id_map g) rows
    ∧ print g
      = Ok (("vertex: its neighbours" +:+ newline)
            +:+ flatten (zip_with render_row (Digraph.vert_id_map g) rows)).
Proof.
  intros Hg. pose proof (reachable_wf g Hg) as Hwf.
  destruct (print_rows_spec g (Digraph.vert_id_map g) 0
              ("vertex: its neighbours" +:+ newline) Hwf (drop_0 _))
    as (rows & Hrows & Hrun).
  exists rows. split; [exact Hrows |].
  unfold print. rewrite (wf_len g Hwf). exact Hrun.
Qed.

Lemma print_rows_witness :
  ∃ rows,
    Forall2 (λ id row, Digraph.get_neighbours chain id = Ok row)
      (Digraph.vert_id_map chain) rows
    ∧ print chain
      = Ok (("vertex: its neighbours" +:+ newline)
            +:+ flatten (zip_with render_row (Digraph.vert_id_map chain) rows)).
Proof. apply (print_rows chain). apply reachable_chain. Defined.

(** ** Reading numbers *)

(** X7. Reading back a number written in decimal: when the text after the
    digits does not start with a digit, [string_view_to_unsigned] returns
    the number if it fits an [unsigned]; if it does not fit, [from_chars]
    leaves [result] unassigned and the function returns an uninitialised
    value. *)
Theorem string_view_to_unsigned_decimal (n : N) (rest : string) :
  leading_digits rest = [] →
  string_view_to_unsigned (to_decimal n +:+ rest)
  = if n <=? UINT_MAX then Ok n else Undefined.
Proof.
  intros Hrest. unfold string_view_to_unsigned.
  rewrite (from_chars_decimal n rest Hrest).
  destruct (n <=? UINT_MAX); reflexivity.
Qed.

Lemma string_view_to_unsigned_decimal_witness :
  string_view_to_unsigned (to_decimal 82192 +:+ ",entity thing")
  = if 82192 <=? UINT_MAX then Ok 82192 else Undefined.
Proof.
  apply (string_view_to_unsigned_decimal 82192 ",entity thing"). reflexivity.
Defined.

(** ** The query *)

(** X8. On a graph of fewer than [2^31] vertices the pair returned for
    registered sets is either the initial pair (the first registered id and
    [UINT_MAX]) or a vertex with two actual paths leading to it, one from
    each set, whose lengths add up to the returned distance. The returned
    distance is therefore never below the length of a shortest common
    ancestor path. *)
Theorem ancestor_length_realised (g : Digraph) (A B : list N) :
  reachable g → 2 * N.of_nat (Digraph.size g) < UINT_RANGE → A ≠ [] →
  Forall (registered g) A → Forall (registered g) B →
  ∃ x d, SCA.ancestor_length g A B = Ok (x, d)
    ∧ ((d = UINT_MAX ∧ Digraph.vert_id_map g !! 0%nat = Some x)
       ∨ (d < UINT_MAX ∧ common_total g A B x (N.to_nat d)
          ∧ ∀ shortest, sca_distance g A B shortest →
                        (shortest ≤ N.to_nat d)%nat)).
Proof.
  intros Hg Hsize Hne HA HB. pose proof (reachable_wf g Hg) as Hwf.
  destruct (decide (Exists (λ y, y ∈ A) B)) as [Hex | Hnone].
  - apply Exists_exists in Hex.
    destruct (first_such (λ y, y ∈ A) B Hex) as (B1 & z & B2 & -> & Hz & HB1).
    destruct (ancestor_length_overlap g A B1 B2 z Hwf HA) as [Hres _].
    + intros y Hy. split; [| apply HB1, Hy].
      eapply Forall_forall in HB; [exact HB |]. apply elem_of_app. auto.
    + exact Hz.
    + exists z, 0. split; [exact Hres |]. right. split; [reflexivity |].
      assert (common_total g A (B1 ++ z :: B2) z 0) as Hct.
      { exists z, z, 0%nat, 0%nat. split; [exact Hz |].
        split; [apply elem_of_app; right; left |].
        split; [constructor |]. split; [constructor | reflexivity]. }
      split; [exact Hct |]. intros s [_ Hmin]. apply (Hmin z 0%nat Hct).
  - destruct (ancestor_length_disjoint_exact g A B Hwf Hsize Hne HA HB)
      as (x & d & Hres & [(-> & Hx & _) | (Hlt & Hct)] & _ & _).
    + intros y HyB HyA. apply Hnone, Exists_exists. eauto.
    + exists x, UINT_MAX. split; [exact Hres |]. left. auto.
    + exists x, d. split; [exact Hres |]. right. split; [exact Hlt |].
      split; [exact Hct |]. intros s [_ Hmin]. apply (Hmin x _ Hct).
Qed.

Lemma ancestor_length_realised_witness :
  ∃ x d, SCA.ancestor_length dag8 [1] [2] = Ok (x, d)
    ∧ ((d = UINT_MAX ∧ Digraph.vert_id_map dag8 !! 0%nat = Some x)
       ∨ (d < UINT_MAX ∧ common_total dag8 [1] [2] x (N.to_nat d)
          ∧ ∀ shortest, sca_distance dag8 [1] [2] shortest →
                        (shortest ≤ N.to_nat d)%nat)).
Proof.
  apply (ancestor_length_realised dag8 [1] [2]).
  - apply reachable_dag8.
  - reflexivity.
  - discriminate.
  - repeat constructor. apply (registered_lookup dag8 1 0). reflexivity.
  - repeat constructor. apply (registered_lookup dag8 2 5). reflexivity.
Defined.

(** X9. On a graph of fewer than [2^31] vertices the distance [UINT_MAX]
    is returned exactly when no vertex is reachable from both sets: a
    common ancestor is never missed, and is never reported where there is
    none. *)
Theorem ancestor_length_detects (g : Digraph) (A B : list N) :
  reachable g → 2 * N.of_nat (Digraph.size g) < UINT_RANGE → A ≠ [] →
  Forall (registered g) A → Forall (registered g) B →
  ∃ x d, SCA.ancestor_length g A B = Ok (x, d)
    ∧ (d = UINT_MAX ↔ ∀ y, ¬ common_ancestor g A B y)
    ∧ (d < UINT_MAX → common_ancestor g A B x).
Proof.
  intros Hg Hsize Hne HA HB. pose proof (reachable_wf g Hg) as Hwf.
  destruct (decide (Exists (λ y, y ∈ A) B)) as [Hex | Hnone].
  - apply Exists_exists in Hex.
    destruct (first_such (λ y, y ∈ A) B Hex) as (B1 & z & B2 & -> & Hz & HB1).
    destruct (ancestor_length_overlap g A B1 B2 z Hwf HA) as [Hres _].
    + intros y Hy. split; [| apply HB1, Hy].
      eapply Forall_forall in HB; [exact HB |]. apply elem_of_app. auto.
    + exact Hz.
    + assert (common_ancestor g A (B1 ++ z :: B2) z) as Hc.
      { split; exists z; (split; [| constructor]); [exact Hz |].
        apply elem_of_app. right. left. }
      exists z, 0. split; [exact Hres |]. split; [| auto].
      split; [discriminate |]. intros Hno. destruct (Hno z Hc).
  - destruct (ancestor_length_disjoint_exact g A B Hwf Hsize Hne HA HB)
      as (x & d & Hres & [(-> & Hx & Hno) | (Hlt & Hct)] & _ & _).
    + intros y HyB HyA. apply Hnone, Exists_exists. eauto.
    + exists x, UINT_MAX. split; [exact Hres |]. split; [tauto |].
      intros Hlt. inversion Hlt.
    + pose proof (common_total_ancestor _ _ _ _ _ Hct) as Hc.
      exists x, d. split; [exact Hres |]. split; [| auto]. split.
      * intros ->. lia.
      * intros Hno. destruct (Hno x Hc).
Qed.

Lemma ancestor_length_detects_witness :
  ∃ x d, SCA.ancestor_length forest [1] [3] = Ok (x, d)
    ∧ (d = UINT_MAX ↔ ∀ y, ¬ common_ancestor forest [1] [3] y)
    ∧ (d < UINT_MAX → common_ancestor forest [1] [3] x).
Proof.
  apply (ancestor_length_detects forest [1] [3]).
  - apply reachable_forest.
  - reflexivity.
  - discriminate.
  - repeat constructor. apply (registered_lookup forest 1 0). reflexivity.
  - repeat constructor. apply (registered_lookup forest 3 2). reflexivity.
Defined.

(** X10. On a graph of fewer than [2^31] vertices the returned distance is
    0 exactly when the two sets share an id. *)
Theorem distance_zero_iff_overlap (g : Digraph) (A B : list N) :
  reachable g → 2 * N.of_nat (Digraph.size g) < UINT_RANGE → A ≠ [] →
  Forall (registered g) A → Forall (registered g) B →
  ∃ x d, SCA.ancestor_length g A B = Ok (x, d)
         ∧ (d = 0 ↔ ∃ z, z ∈ A ∧ z ∈ B).
Proof.
  intros Hg. apply distance_zero_exact, reachable_wf, Hg.
Qed.

Lemma distance_zero_iff_overlap_witness :
  ∃ x d, SCA.ancestor_length chain [1; 2] [0; 2] = Ok (x, d)
         ∧ (d = 0 ↔ ∃ z, z ∈ [1; 2] ∧ z ∈ [0; 2]).
Proof.
  apply (distance_zero_iff_overlap chain [1; 2] [0; 2]).
  - apply reachable_chain.
  - reflexivity.
  - discriminate.
  - repeat constructor;
      [apply (registered_lookup chain 1 0) | apply (registered_lookup chain 2 2)];
      reflexivity.
  - repeat constructor;
      [apply (registered_lookup chain 0 1) | apply (registered_lookup chain 2 2)];
      reflexivity.
Defined.

(** X11. On a graph of fewer than [2^31] vertices, when the two sets share
    no id and an id of one of them has an id of the other among its
    neighbours, the returned distance is 1, which is the length of a
    shortest common ancestor path, and the returned vertex is the head of
    such an edge. *)
Theorem adjacent_sets_distance_one (g : Digraph) (A B : list N) :
  reachable g → 2 * N.of_nat (Digraph.size g) < UINT_RANGE →
  Forall (registered g) A → Forall (registered g) B →
  (∀ y, y ∈ B → y ∉ A) →
  (∃ a b, a ∈ A ∧ b ∈ B ∧ (edge g a b ∨ edge g b a)) →
  ∃ x, SCA.ancestor_length g A B = Ok (x, 1)
       ∧ ((x ∈ B ∧ ∃ a, a ∈ A ∧ edge g a x)
          ∨ (x ∈ A ∧ ∃ b, b ∈ B ∧ edge g b x))
       ∧ sca_distance g A B 1.
Proof.
  intros Hg. apply adjacent_sets_exact, reachable_wf, Hg.
Qed.

Lemma adjacent_sets_distance_one_witness :
  ∃ x, SCA.ancestor_length chain [2] [1; 0] = Ok (x, 1)
       ∧ ((x ∈ [1; 0] ∧ ∃ a, a ∈ [2] ∧ edge chain a x)
          ∨ (x ∈ [2] ∧ ∃ b, b ∈ [1; 0] ∧ edge chain b x))
       ∧ sca_distance chain [2] [1; 0] 1.
Proof.
  apply (adjacent_sets_distance_one chain [2] [1; 0]).
  - apply reachable_chain.
  - reflexivity.
  - repeat constructor. apply (registered_lookup chain 2 2). reflexivity.
  - repeat constructor;
      [apply (registered_lookup chain 1 0) | apply (registered_lookup chain 0 1)];
      reflexivity.
  - intros y Hy Hy2. apply list_elem_of_singleton in Hy2 as ->.
    apply elem_of_cons in Hy as [Hy | Hy]; [discriminate |].
    apply list_elem_of_singleton in Hy. discriminate.
  - exists 2, 1. split; [left |]. split; [left |]. left.
    exists [1]. split; [reflexivity | left].
Defined.

(** X12. On a graph of fewer than [2^31] vertices, for an edge from [v] to
    a different vertex [w]: [length] is 1 in both orders of the arguments,
    and unless [v] is a neighbour of [w] as well, [ancestor] is [w] in both
    orders. *)
Theorem direct_edge_ancestor (g : Digraph) (v w : N) :
  reachable g → 2 * N.of_nat (Digraph.size g) < UINT_RANGE →
  v ≠ w → edge g v w →
  SCA.length g v w = Ok 1 ∧ SCA.length g w v = Ok 1
  ∧ (¬ edge g w v → SCA.ancestor g v w = Ok w ∧ SCA.ancestor g w v = Ok w).
Proof.
  intros Hg Hsize Hvw Hedge. pose proof (reachable_wf g Hg) as Hwf.
  destruct (edge_registered g v w Hwf Hedge) as [Hv Hw].
  destruct (adjacent_sets_exact g [v] [w] Hwf Hsize) as (x & Hx & Hwhere & _).
  { repeat constructor. exact Hv. }
  { repeat constructor. exact Hw. }
  { intros y Hy Hy'. apply list_elem_of_singleton in Hy, Hy'. congruence. }
  { exists v, w. split; [left |]. split; [left | left; exact Hedge]. }
  destruct (adjacent_sets_exact g [w] [v] Hwf Hsize) as (x' & Hx' & Hwhere' & _).
  { repeat constructor. exact Hw. }
  { repeat constructor. exact Hv. }
  { intros y Hy Hy'. apply list_elem_of_singleton in Hy, Hy'. congruence. }
  { exists w, v. split; [left |]. split; [left | right; exact Hedge]. }
  unfold SCA.length, SCA.ancestor. rewrite Hx, Hx'. cbn.
  split; [reflexivity |]. split; [reflexivity |]. intros Hback.
  destruct Hwhere as [[Hin _] | [Hin (b & Hb & Hbx)]];
    destruct Hwhere' as [[Hin' (a & Ha & Hax)] | [Hin' _]];
    apply list_elem_of_singleton in Hin, Hin'; subst;
    try apply list_elem_of_singleton in Hb;
    try apply list_elem_of_singleton in Ha; subst;
    try contradiction; split; reflexivity.
Qed.

Lemma direct_edge_ancestor_witness :
  SCA.length chain 2 1 = Ok 1 ∧ SCA.length chain 1 2 = Ok 1
  ∧ (¬ edge chain 1 2 → SCA.ancestor chain 2 1 = Ok 1
                        ∧ SCA.ancestor chain 1 2 = Ok 1).
Proof.
  apply (direct_edge_ancestor chain 2 1).
  - apply reachable_chain.
  - reflexivity.
  - discriminate.
  - exists [1]. split; [reflexivity | left].
Defined.

(** X13. On a graph of fewer than [2^31] vertices, when a shortest common
    ancestor path of the two sets has at most two edges, the returned
    distance is its length and the returned vertex is a common ancestor at
    that distance. *)
Theorem short_distance_exact (g : Digraph) (A B : list N) (t : nat) :
  reachable g → 2 * N.of_nat (Digraph.size g) < UINT_RANGE → A ≠ [] →
  Forall (registered g) A → Forall (registered g) B →
  sca_distance g A B t → (t ≤ 2)%nat →
  ∃ x, SCA.ancestor_length g A B = Ok (x, N.of_nat t)
       ∧ common_total g A B x t.
Proof.
  intros Hg Hsize Hne HA HB [(y & Hy) Hmin] Ht.
  pose proof (reachable_wf g Hg) as Hwf.
  destruct (decide (Exists (λ y, y ∈ A) B)) as [Hex | Hnone].
  - apply Exists_exists in Hex.
    destruct (first_such (λ y, y ∈ A) B Hex) as (B1 & z & B2 & -> & Hz & HB1).
    destruct (ancestor_length_overlap g A B1 B2 z Hwf HA) as [Hres _].
    + intros w Hw. split; [| apply HB1, Hw].
      eapply Forall_forall in HB; [exact HB |]. apply elem_of_app. auto.
    + exact Hz.
    + assert (common_total g A (B1 ++ z :: B2) z 0) as Hct.
      { exists z, z, 0%nat, 0%nat. split; [exact Hz |].
        split; [apply elem_of_app; right; left |].
        split; [constructor |]. split; [constructor | reflexivity]. }
      pose proof (Hmin z 0%nat Hct) as Hle.
      assert (t = 0%nat) as -> by lia. exists z. split; assumption.
  - assert (∀ w, w ∈ B → w ∉ A) as Hdisj.
    { intros w HwB HwA. apply Hnone, Exists_exists. eauto. }
    destruct (ancestor_length_disjoint_exact g A B Hwf Hsize Hne HA HB Hdisj)
      as (x & d & Hres & [(-> & _ & Hno) | (Hlt & Hct)] & Hnear & Hnear2).
    { destruct (Hno y). eapply common_total_ancestor, Hy. }
    pose proof (Hmin x _ Hct) as Hlow.
    assert (d ≤ N.of_nat t) as Hup.
    { destruct Hy as (a & b & na & nb & Ha & Hb & Hay & Hby & Hsum).
      destruct t as [| [| [| t]]]; [| | | lia].
      - assert (na = 0%nat ∧ nb = 0%nat) as [-> ->] by lia.
        inversion Hay; subst. inversion Hby; subst. destruct (Hdisj y Hb Ha).
      - destruct na as [| [| na]]; [| | lia].
        + assert (nb = 1%nat) as -> by lia. inversion Hay; subst.
          apply nsteps_once_inv in Hby. apply (Hnear y b Ha Hb). auto.
        + assert (nb = 0%nat) as -> by lia. inversion Hby; subst.
          apply nsteps_once_inv in Hay. apply (Hnear a y Ha Hb). auto.
      - apply (Hnear2 y). exists a, b, na, nb. auto. }
    assert (d = N.of_nat t) as -> by lia.
    exists x. split; [exact Hres |]. rewrite Nat2N.id in Hct. exact Hct.
Qed.

Lemma short_distance_exact_witness :
  ∃ x, SCA.ancestor_length fork [1] [2] = Ok (x, N.of_nat 2)
       ∧ common_total fork [1] [2] x 2.
Proof.
  apply (short_distance_exact fork [1] [2] 2).
  - apply reachable_fork.
  - reflexivity.
  - discriminate.
  - repeat constructor. apply (registered_lookup fork 1 0). reflexivity.
  - repeat constructor. apply (registered_lookup fork 2 2). reflexivity.
  - split.
    + exists 0, 1, 2, 1%nat, 1%nat. split; [left |]. split; [left |].
      split; [| split; [| reflexivity]];
        apply nsteps_once; exists [0]; (split; [reflexivity | left]).
    + intros y t (a & b & na & nb & Ha & Hb & Hay & Hby & ->).
      apply list_elem_of_singleton in Ha, Hb. subst a b.
      destruct na as [| [| na]]; destruct nb as [| [| nb]]; try lia.
      * inversion Hay; subst. inversion Hby.
      * inversion Hay; subst. apply nsteps_once_inv in Hby.
        apply (edge_inv fork 2 _ [0] eq_refl) in Hby.
        apply list_elem_of_singleton in Hby. discriminate.
      * inversion Hby; subst. apply nsteps_once_inv in Hay.
        apply (edge_inv fork 1 _ [0] eq_refl) in Hay.
        apply list_elem_of_singleton in Hay. discriminate.
  - lia.
Defined.

(** * WordNet *)

(** X14. [distance] and [sca] end in [std::out_of_range] when one of the
    two words is not a noun of the WordNet. *)
Theorem not_noun_out_of_range (wn : WordNet) (noun1 noun2 : string) :
  WordNet.is_noun wn noun1 = false ∨ WordNet.is_noun wn noun2 = false →
  WordNet.distance wn noun1 noun2 = OutOfRange
  ∧ WordNet.sca wn noun1 noun2 = OutOfRange.
Proof.
  intros H. split; [apply distance_not_noun, H |].
  unfold WordNet.sca.
  rewrite (find_sca_distance_not_noun wn noun1 noun2 H). reflexivity.
Qed.

Lemma not_noun_out_of_range_witness :
  WordNet.distance wordnet8 "a" "z" = OutOfRange
  ∧ WordNet.sca wordnet8 "a" "z" = OutOfRange.
Proof.
  apply (not_noun_out_of_range wordnet8 "a" "z"). right.
  vm_compute. reflexivity.
Defined.

(** X15. A noun all of whose synset ids are vertices of the graph is at
    distance 0 from itself, and [sca] looks up the gloss of the first of
    its ids. *)
Theorem same_noun_distance_zero (wn : WordNet) (noun : string)
    (id : N) (ids : list N) :
  reachable (WordNet.graph wn) →
  WordNet.word_ids wn !! noun = Some (id :: ids) →
  Forall (registered (WordNet.graph wn)) (id :: ids) →
  WordNet.distance wn noun noun = Ok 0
  ∧ WordNet.sca wn noun noun
    = match WordNet.glosses wn !! id with
      | Some gloss => Ok gloss
      | None => OutOfRange
      end.
Proof.
  intros Hg Hnoun Hids. pose proof (reachable_wf _ Hg) as Hwf.
  destruct (ancestor_length_overlap (WordNet.graph wn) (id :: ids) [] ids id
              Hwf Hids) as [Hres _].
  { intros y Hy. inversion Hy. }
  { left. }
  unfold WordNet.distance, WordNet.sca, WordNet.find_sca_distance,
    WordNet.ids_at.
  rewrite Hnoun. cbn [mbind outcome_bind]. cbn [app] in Hres. rewrite Hres.
  split; reflexivity.
Qed.

Lemma same_noun_distance_zero_witness :
  WordNet.distance wordnet8 "a" "a" = Ok 0
  ∧ WordNet.sca wordnet8 "a" "a"
    = match WordNet.glosses wordnet8 !! 1 with
      | Some gloss => Ok gloss
      | None => OutOfRange
      end.
Proof.
  apply (same_noun_distance_zero wordnet8 "a" 1 []).
  - apply reachable_wordnet8.
  - vm_compute. reflexivity.
  - rewrite wordnet8_graph. repeat constructor.
    apply (registered_lookup dag8 1 0). reflexivity.
Defined.

(** * Outcast, once more *)

(** X16. Asked for the outcast of three or more words one of which is not a
    noun, [outcast] ends in [std::out_of_range]: the first word is compared
    with every other word before any result is formed. *)
Theorem outcast_not_noun (wn : WordNet) (nouns : list string) (word : string) :
  reachable (WordNet.graph wn) →
  (∀ w ids, WordNet.word_ids wn !! w = Some ids → ids ≠ []) →
  (2 < length nouns)%nat → word ∈ nouns →
  WordNet.is_noun wn word = false →
  Outcast.outcast wn nouns = OutOfRange.
Proof.
  intros Hg Hids Hlen Hin Hbad. pose proof (reachable_wf _ Hg) as Hwf.
  unfold Outcast.outcast.
  destruct (Nat.leb_spec (length nouns) 2) as [? | _]; [lia |].
  destruct nouns as [| i js]; [inversion Hin |].
  cbn [Outcast.outer Outcast.distances].
  rewrite (inner_not_noun wn i 0 js 1 _ Hwf Hids); [reflexivity | | |].
  - rewrite length_replicate. cbn. lia.
  - rewrite length_replicate. cbn. lia.
  - apply elem_of_cons in Hin as [-> | Hin]; [left | right; eauto].
    split; [exact Hbad |]. intros ->. cbn in Hlen. lia.
Qed.

Lemma outcast_not_noun_witness :
  Outcast.outcast wordnet8 ["a"; "b"; "z"]%string = OutOfRange.
Proof.
  apply (outcast_not_noun wordnet8 ["a"; "b"; "z"]%string "z"%string).
  - apply reachable_wordnet8.
  - apply wordnet8_words.
  - cbn. lia.
  - right. right. left.
  - vm_compute. reflexivity.
Defined.

(** * Reading the files *)

(** X17. A hypernym line that holds an id and the ids of its hypernyms in
    decimal, separated by commas, adds one edge for each hypernym, in the
    order of the line; a line that holds an id alone adds nothing. *)
Theorem hypernym_line_edges (h : hypernym) (g : Digraph) :
  hypernym_ok h →
  hypernym_line g (hypernym_text h) = add_edges g ((λ to, (h.1, to)) <$> h.2).
Proof. apply hypernym_line_text. Qed.

Lemma hypernym_line_edges_witness :
  hypernym_line (Digraph.reset_graph_size Digraph.empty 3)
    (hypernym_text (3, [1; 2]))
  = add_edges (Digraph.reset_graph_size Digraph.empty 3) [(3, 1); (3, 2)].
Proof.
  apply (hypernym_line_edges (3, [1; 2])
           (Digraph.reset_graph_size Digraph.empty 3)).
  split; [| repeat constructor]; cbn; unfold UINT_MAX; lia.
Defined.

(** X18. A synset line made of an id in decimal, a comma, one or more
    words separated by single spaces, a comma and a gloss: the id is
    appended to the entry of each of the words, once for each time the word
    is listed, and the gloss, which is the text after the second comma, is
    stored under the id in place of an earlier one. *)
Theorem synset_line_tables (s : synset)
    (tables : gmap string (list N) * gmap N string) :
  synset_ok s →
  ∃ tables',
    synset_line tables (synset_text s) = Ok tables'
    ∧ (∀ word, tables'.1 !! word
               = extend (tables.1 !! word)
                   ((λ _, s.1.1) <$> filter (λ w, w = word) s.1.2))
    ∧ tables'.2 = <[s.1.1 := s.2]> tables.2.
Proof.
  intros Hs. eexists. split; [apply synset_line_text, Hs |].
  split; [| reflexivity]. intros word. apply emplace_words_lookup.
Qed.

Lemma synset_line_tables_witness :
  ∃ tables',
    synset_line (∅, ∅) (synset_text (7, ["cat"; "puss"], "a pet, small"))%string
    = Ok tables'
    ∧ (∀ word, tables'.1 !! word
               = extend ((∅ : gmap string (list N)) !! word)
                   ((λ _, 7) <$> filter (λ w, w = word) ["cat"; "puss"]%string))
    ∧ tables'.2 = <[7 := "a pet, small"%string]> ∅.
Proof.
  apply (synset_line_tables (7, ["cat"; "puss"], "a pet, small")%string (∅, ∅)).
  split; [cbn; unfold UINT_MAX; lia |]. split; [discriminate |].
  repeat constructor.
Defined.

(** X19. The constructor on the text of well-formed synsets and hypernym
    records, with empty lines anywhere, when the hypernym records name no
    more ids than there are synset records: it returns a WordNet in which
    a word is a noun exactly when a synset lists it, the ids of a noun are
    the ids of the synsets that list it, in file order, the gloss of an id
    is the gloss of the last synset with that id, the vertices of the graph
    are the ids that occur in a hypernym record with a hypernym, and the
    neighbours of an id are its hypernyms in file order. *)
Theorem WordNet_of_text (ss : list synset) (hs : list hypernym)
    (synsets hypernyms : list string) :
  Forall synset_ok ss → Forall hypernym_ok hs →
  kept synsets = synset_text <$> ss →
  kept hypernyms = hypernym_text <$> hs →
  (size (list_to_set (endpoints (hypernym_edges hs)) : gset N) ≤ length ss)%nat →
  ∃ wn, WordNet_WordNet synsets hypernyms = Ok wn
    ∧ (∀ word, WordNet.is_noun wn word = bool_decide (ids_of ss word ≠ []))
    ∧ (∀ word, WordNet.is_noun wn word = true →
               WordNet.ids_at wn word = Ok (ids_of ss word))
    ∧ (∀ id, WordNet.glosses wn !! id = gloss_of ss id)
    ∧ reachable (WordNet.graph wn)
    ∧ (∀ x, registered (WordNet.graph wn) x ↔ x ∈ endpoints (hypernym_edges hs))
    ∧ (∀ v, Digraph.get_neighbours (WordNet.graph wn) v
            = Ok (targets (hypernym_edges hs) v)).
Proof.
  intros Hss Hhs Hsyn Hhyp Hroom. rewrite <- first_seen_set in Hroom.
  destruct (WordNet_WordNet_text ss hs synsets hypernyms Hss Hhs Hsyn Hhyp Hroom)
    as (wn & Hwn).
  destruct (WordNet_WordNet_inv ss hs synsets hypernyms wn Hss Hhs Hsyn Hhyp Hwn)
    as (Hwords & Hgloss & Hreach & Hreg & Hnb).
  exists wn. split; [exact Hwn |].
  split; [intros word; apply (is_noun_ids wn word _ (Hwords word)) |].
  split; [intros word; apply (is_noun_ids wn word _ (Hwords word)) |].
  split; [exact Hgloss |]. split; [exact Hreach |]. split; assumption.
Qed.

Lemma WordNet_of_text_witness :
  ∃ wn, WordNet_WordNet
          ["1,cat puss,a pet"; ""; "2,cat,a whip"; "3,animal,a living thing"]%string
          [""; "1,3"; "3"; "2,3,1"]%string = Ok wn
    ∧ (∀ word, WordNet.is_noun wn word
               = bool_decide
                   (ids_of [(1, ["cat"; "puss"], "a pet"); (2, ["cat"], "a whip");
                            (3, ["animal"], "a living thing")]%string word ≠ []))
    ∧ (∀ word, WordNet.is_noun wn word = true →
               WordNet.ids_at wn word
               = Ok (ids_of [(1, ["cat"; "puss"], "a pet"); (2, ["cat"], "a whip");
                             (3, ["animal"], "a living thing")]%string word))
    ∧ (∀ id, WordNet.glosses wn !! id
             = gloss_of [(1, ["cat"; "puss"], "a pet"); (2, ["cat"], "a whip");
                         (3, ["animal"], "a living thing")]%string id)
    ∧ reachable (WordNet.graph wn)
    ∧ (∀ x, registered (WordNet.graph wn) x
            ↔ x ∈ endpoints (hypernym_edges [(1, [3]); (3, []); (2, [3; 1])]))
    ∧ (∀ v, Digraph.get_neighbours (WordNet.graph wn) v
            = Ok (targets (hypernym_edges [(1, [3]); (3, []); (2, [3; 1])]) v)).
Proof.
  apply (WordNet_of_text
           [(1, ["cat"; "puss"], "a pet"); (2, ["cat"], "a whip");
            (3, ["animal"], "a living thing")]%string
           [(1, [3]); (3, []); (2, [3; 1])]).
  - repeat constructor; cbn; unfold UINT_MAX; try lia; discriminate.
  - repeat constructor; cbn; unfold UINT_MAX; lia.
  - reflexivity.
  - reflexivity.
  - vm_compute. lia.
Defined.

(** * Reserved capacity *)

(** X20. After [reset_graph_size n] on an empty graph, inserting edges that
    name at most [n] different ids: every [add_edge] returns, and after
    every edge the two vectors have the capacity the reserve left them
    with, so that no row was moved. *)
Theorem reserved_never_regrown (n : nat) (edges : list (N * N)) :
  edges_bounded edges →
  (size (list_to_set (endpoints edges) : gset N) ≤ n)%nat →
  ∀ done rest, edges = done ++ rest →
    ∃ g, add_edges (Digraph.reset_graph_size Digraph.empty n) done = Ok g
         ∧ Digraph.graph_capacity g
           = Digraph.graph_capacity (Digraph.reset_graph_size Digraph.empty n)
         ∧ Digraph.vert_id_capacity g
           = Digraph.vert_id_capacity (Digraph.reset_graph_size Digraph.empty n).
Proof.
  intros Hb Hn done rest ->. apply Forall_app in Hb as [Hb _].
  rewrite <- first_seen_set, endpoints_app, first_seen_app, length_app in Hn.
  destruct (add_edges_reserved n done (Digraph.reset_graph_size Digraph.empty n))
    as (g & Hg & Hcap1 & Hcap2); [| | exact Hb | |].
  - apply wf_reset_graph_size, wf_empty.
  - apply reserved_reset.
  - cbn [Digraph.reset_graph_size Digraph.vert_id_map Digraph.empty app]. lia.
  - exists g. split; [exact Hg |]. rewrite Hcap1, Hcap2. split; reflexivity.
Qed.

Lemma reserved_never_regrown_witness :
  ∃ g, add_edges (Digraph.reset_graph_size Digraph.empty 3) [(1, 0); (2, 1)]
       = Ok g
       ∧ Digraph.graph_capacity g
         = Digraph.graph_capacity (Digraph.reset_graph_size Digraph.empty 3)
       ∧ Digraph.vert_id_capacity g
         = Digraph.vert_id_capacity (Digraph.reset_graph_size Digraph.empty 3).
Proof.
  apply (reserved_never_regrown 3 [(1, 0); (2, 1); (2, 0)]
           ltac:(repeat constructor) ltac:(vm_compute; lia)
           [(1, 0); (2, 1)] [(2, 0)] eq_refl).
Defined.

(** * Sets of ids and nouns *)

(** X21. For two registered sets that share an id, the second given in
    increasing order as the iteration of a [std::set] gives it,
    [ancestor_subset] returns the least shared id and [length_subset]
    returns 0. *)
Theorem ancestor_subset_least_shared (g : Digraph) (A B : list N) :
  reachable g → Forall (registered g) A → Forall (registered g) B →
  (∀ i j x y, (i < j)%nat → B !! i = Some x → B !! j = Some y → x < y) →
  (∃ x, x ∈ A ∧ x ∈ B) →
  ∃ z, SCA.ancestor_subset g A B = Ok z ∧ SCA.length_subset g A B = Ok 0
       ∧ z ∈ A ∧ z ∈ B ∧ ∀ y, y ∈ A → y ∈ B → z ≤ y.
Proof.
  intros Hg HA HB Hsorted Hshare. pose proof (reachable_wf g Hg) as Hwf.
  destruct (first_such (λ y, y ∈ A) B) as (B1 & z & B2 & -> & Hz & HB1).
  { destruct Hshare as (x & HxA & HxB). eauto. }
  destruct (ancestor_length_overlap g A B1 B2 z Hwf HA) as [Hres _].
  { intros y Hy. split; [| apply HB1, Hy].
    eapply Forall_forall in HB; [exact HB |]. apply elem_of_app. auto. }
  { exact Hz. }
  exists z. unfold SCA.ancestor_subset, SCA.length_subset. rewrite Hres.
  split; [reflexivity |]. split; [reflexivity |]. split; [exact Hz |].
  split; [apply elem_of_app; right; left |].
  intros y HyA HyB. apply elem_of_app in HyB as [HyB | HyB];
    [destruct (HB1 y HyB HyA) |].
  apply elem_of_cons in HyB as [-> | HyB]; [reflexivity |].
  apply list_elem_of_lookup in HyB as [k Hk].
  apply N.lt_le_incl.
  apply (Hsorted (length B1) (length B1 + S k)%nat); [lia | |].
  - apply list_lookup_middle. reflexivity.
  - rewrite lookup_app_r by lia.
    replace (length B1 + S k - length B1)%nat with (S k) by lia. exact Hk.
Qed.

Lemma ancestor_subset_least_shared_witness :
  ∃ z, SCA.ancestor_subset chain [0; 1; 2] [1; 2] = Ok z
       ∧ SCA.length_subset chain [0; 1; 2] [1; 2] = Ok 0
       ∧ z ∈ [0; 1; 2] ∧ z ∈ [1; 2]
       ∧ ∀ y, y ∈ [0; 1; 2] → y ∈ [1; 2] → z ≤ y.
Proof.
  apply (ancestor_subset_least_shared chain [0; 1; 2] [1; 2]).
  - apply reachable_chain.
  - repeat constructor;
      [apply (registered_lookup chain 0 1) | apply (registered_lookup chain 1 0)
       | apply (registered_lookup chain 2 2)]; reflexivity.
  - repeat constructor;
      [apply (registered_lookup chain 1 0) | apply (registered_lookup chain 2 2)];
      reflexivity.
  - intros i j x y Hij Hi Hj.
    destruct i as [| [| i]]; destruct j as [| [| j]]; cbn in Hi, Hj;
      try discriminate; try lia.
    injection Hi as <-. injection Hj as <-. reflexivity.
  - exists 1. split; [right; left | left].
Defined.

(** X22. On a WordNet whose graph has fewer than [2^31] vertices, two nouns
    whose synset ids are vertices of the graph are at distance 0 exactly
    when they share a synset. *)
Theorem distance_zero_iff_shared_synset (wn : WordNet)
    (noun1 noun2 : string) (ids1 ids2 : list N) :
  reachable (WordNet.graph wn) →
  2 * N.of_nat (Digraph.size (WordNet.graph wn)) < UINT_RANGE →
  WordNet.word_ids wn !! noun1 = Some ids1 →
  WordNet.word_ids wn !! noun2 = Some ids2 →
  ids1 ≠ [] →
  Forall (registered (WordNet.graph wn)) ids1 →
  Forall (registered (WordNet.graph wn)) ids2 →
  ∃ d, WordNet.distance wn noun1 noun2 = Ok d
       ∧ (d = 0 ↔ ∃ id, id ∈ ids1 ∧ id ∈ ids2).
Proof.
  intros Hg Hsize H1 H2 Hne Hr1 Hr2.
  destruct (distance_zero_exact (WordNet.graph wn) ids1 ids2
              (reachable_wf _ Hg) Hsize Hne Hr1 Hr2) as (x & d & Hres & Hiff).
  exists d. split; [| exact Hiff].
  unfold WordNet.distance, WordNet.find_sca_distance, WordNet.ids_at.
  rewrite H1, H2. cbn [mbind outcome_bind]. rewrite Hres. reflexivity.
Qed.

Lemma distance_zero_iff_shared_synset_witness :
  ∃ d, WordNet.distance wordnet8 "a" "b" = Ok d
       ∧ (d = 0 ↔ ∃ id, id ∈ [1] ∧ id ∈ [2]).
Proof.
  apply (distance_zero_iff_shared_synset wordnet8 "a" "b" [1] [2]).
  - apply reachable_wordnet8.
  - vm_compute. reflexivity.
  - vm_compute. reflexivity.
  - vm_compute. reflexivity.
  - discriminate.
  - rewrite wordnet8_graph. repeat constructor.
    apply (registered_lookup dag8 1 0). reflexivity.
  - rewrite wordnet8_graph. repeat constructor.
    apply (registered_lookup dag8 2 5). reflexivity.
Defined.

(** * Queries on the WordNet of a text *)

(** X23. On the WordNet read from the text of well-formed synsets and
    hypernym records in which every synset id occurs in a hypernym record
    with a hypernym, as an id or as a hypernym: [distance] returns for
    every two nouns. *)
Theorem text_distance_returns (ss : list synset) (hs : list hypernym)
    (synsets hypernyms : list string) (wn : WordNet) (noun1 noun2 : string) :
  Forall synset_ok ss → Forall hypernym_ok hs →
  kept synsets = synset_text <$> ss →
  kept hypernyms = hypernym_text <$> hs →
  WordNet_WordNet synsets hypernyms = Ok wn →
  (∀ s, s ∈ ss → s.1.1 ∈ endpoints (hypernym_edges hs)) →
  WordNet.is_noun wn noun1 = true → WordNet.is_noun wn noun2 = true →
  ∃ d, WordNet.distance wn noun1 noun2 = Ok d.
Proof.
  intros Hss Hhs Hsyn Hhyp Hwn Hall Hn1 Hn2.
  destruct (WordNet_WordNet_inv ss hs synsets hypernyms wn Hss Hhs Hsyn Hhyp Hwn)
    as (Hwords & _ & Hreach & Hreg & _).
  destruct (is_noun_ids wn noun1 _ (Hwords noun1)) as [Hb1 Hids1].
  destruct (is_noun_ids wn noun2 _ (Hwords noun2)) as [_ Hids2].
  assert (∀ word, Forall (registered (WordNet.graph wn)) (ids_of ss word))
    as Hregistered.
  { intros word. apply Forall_forall. intros id Hid.
    apply elem_of_ids_of in Hid as (s & Hs & <- & _). apply Hreg, Hall, Hs. }
  destruct (ancestor_length_returns (WordNet.graph wn) (ids_of ss noun1)
              (ids_of ss noun2) (reachable_wf _ Hreach)) as (x & d & Hres).
  - rewrite Hb1 in Hn1. apply bool_decide_eq_true in Hn1. exact Hn1.
  - apply Hregistered.
  - apply Hregistered.
  - exists d. unfold WordNet.distance, WordNet.find_sca_distance.
    rewrite (Hids1 Hn1), (Hids2 Hn2). cbn [mbind outcome_bind].
    rewrite Hres. reflexivity.
Qed.

Lemma text_distance_returns_witness :
  ∃ d, WordNet.distance pets "puss" "animal" = Ok d.
Proof.
  apply (text_distance_returns
           [(1, ["cat"; "puss"], "a pet"); (2, ["cat"], "a whip");
            (3, ["animal"], "a living thing")]%string
           [(1, [3]); (3, []); (2, [3; 1])]
           ["1,cat puss,a pet"; ""; "2,cat,a whip"; "3,animal,a living thing"]%string
           [""; "1,3"; "3"; "2,3,1"]%string pets).
  - repeat constructor; cbn; unfold UINT_MAX; try lia; discriminate.
  - repeat constructor; cbn; unfold UINT_MAX; lia.
  - reflexivity.
  - reflexivity.
  - vm_compute. reflexivity.
  - intros s Hs. repeat (apply elem_of_cons in Hs as [-> | Hs]);
      [| | | inversion Hs]; cbn; repeat (first [left | right]).
  - reflexivity.
  - reflexivity.
Defined.

(** X24. On the WordNet read from the text of well-formed synsets and
    hypernym records: when a synset that lists a word has an id that occurs
    in no hypernym record with a hypernym, [distance] from that word to any
    word ends in [std::out_of_range]. *)
Theorem isolated_synset_out_of_range (ss : list synset) (hs : list hypernym)
    (synsets hypernyms : list string) (wn : WordNet) (s : synset)
    (noun1 noun2 : string) :
  Forall synset_ok ss → Forall hypernym_ok hs →
  kept synsets = synset_text <$> ss →
  kept hypernyms = hypernym_text <$> hs →
  WordNet_WordNet synsets hypernyms = Ok wn →
  s ∈ ss → noun1 ∈ s.1.2 → s.1.1 ∉ endpoints (hypernym_edges hs) →
  WordNet.distance wn noun1 noun2 = OutOfRange.
Proof.
  intros Hss Hhs Hsyn Hhyp Hwn Hs Hnoun Hiso.
  destruct (WordNet_WordNet_inv ss hs synsets hypernyms wn Hss Hhs Hsyn Hhyp Hwn)
    as (Hwords & _ & Hreach & Hreg & _).
  assert (s.1.1 ∈ ids_of ss noun1) as Hid by (apply elem_of_ids_of; eauto).
  unfold WordNet.distance, WordNet.find_sca_distance, WordNet.ids_at.
  rewrite (Hwords noun1).
  destruct (ids_of ss noun1) as [| x l] eqn:E; [inversion Hid |].
  cbn [mbind outcome_bind].
  destruct (WordNet.word_ids wn !! noun2) as [ids2 |]; [| reflexivity].
  cbn [mbind outcome_bind].
  rewrite (ancestor_length_unknown (WordNet.graph wn) (x :: l) ids2 s.1.1
             (reachable_wf _ Hreach) Hid); [reflexivity |].
  intros Hr. apply Hiso, Hreg, Hr.
Qed.

Lemma isolated_synset_out_of_range_witness :
  WordNet.distance stones "stone" "cat" = OutOfRange.
Proof.
  apply (isolated_synset_out_of_range
           [(1, ["cat"], "a pet"); (4, ["stone"], "a rock");
            (3, ["animal"], "a living thing")]%string
           [(1, [3]); (4, [])]
           ["1,cat,a pet"; "4,stone,a rock"; "3,animal,a living thing"]%string
           ["1,3"; "4"]%string stones (4, ["stone"], "a rock")%string).
  - repeat constructor; cbn; unfold UINT_MAX; try lia; discriminate.
  - repeat constructor; cbn; unfold UINT_MAX; lia.
  - reflexivity.
  - reflexivity.
  - vm_compute. reflexivity.
  - right. left.
  - left.
  - cbn. intros H.
    repeat (apply elem_of_cons in H as [H | H]; [discriminate |]).
    inversion H.
Defined.

(** * Rows that move *)

(** X25. [add_edge a b] on a graph built through the interface has one of
    two outcomes. When [b] is unseen once [a] is registered and no reserved
    row is left, registering [b] moves the rows and the call has no defined
    result. Otherwise the call returns, the neighbours of [a] are the
    former ones followed by [b], and both ids are registered. *)
Theorem add_edge_outcomes (g : Digraph) (a b : N) :
  reachable g → a < UINT_RANGE → b < UINT_RANGE →
  (Digraph.regrows (Digraph.get_or_add_vert g a).2 b = true →
   Digraph.add_edge g a b = Undefined)
  ∧ (Digraph.regrows (Digraph.get_or_add_vert g a).2 b = false →
     ∃ g' old,
       Digraph.add_edge g a b = Ok g'
       ∧ Digraph.get_neighbours g a = Ok old
       ∧ Digraph.get_neighbours g' a = Ok (old ++ [b])
       ∧ registered g' a ∧ registered g' b).
Proof.
  intros Hg Ha Hb. pose proof (reachable_wf g Hg) as Hwf. split.
  - intros Hmove.
    destruct (add_edge_cases g a b Hwf Ha Hb) as (nb & _ & Heq).
    rewrite Hmove in Heq. exact Heq.
  - intros Hstay.
    destruct (add_edge_stays g a b Hwf Ha Hb Hstay) as [g' Hadd].
    destruct (get_neighbours_add_edge g a b g' Hwf Ha Hb Hadd)
      as (old & Hold & Hnew & Hra & Hrb).
    exists g', old. auto.
Qed.

Lemma add_edge_outcomes_witness :
  Digraph.add_edge chain 1 7 = Undefined
  ∧ ∃ g' old,
      Digraph.add_edge chain 1 2 = Ok g'
      ∧ Digraph.get_neighbours chain 1 = Ok old
      ∧ Digraph.get_neighbours g' 1 = Ok (old ++ [2])
      ∧ registered g' 1 ∧ registered g' 2.
Proof.
  split.
  - apply (add_edge_outcomes chain 1 7 reachable_chain eq_refl eq_refl).
    vm_compute. reflexivity.
  - apply (add_edge_outcomes chain 1 2 reachable_chain eq_refl eq_refl).
    vm_compute. reflexivity.
Defined.

(** X26. [get_neighbours] returns for every id, and returns the empty
    sequence for an id that is not registered. *)
Theorem get_neighbours_returns (g : Digraph) (v : N) :
  reachable g →
  (∃ row, Digraph.get_neighbours g v = Ok row)
  ∧ (¬ registered g v → Digraph.get_neighbours g v = Ok []).
Proof.
  intros Hg. split; [apply get_neighbours_total, reachable_wf, Hg |].
  intros Hv. unfold Digraph.get_neighbours.
  destruct (Digraph.id_vert_map g !! v) as [i |] eqn:E; [| reflexivity].
  destruct Hv. exists i. exact E.
Qed.

Lemma get_neighbours_returns_witness :
  (∃ row, Digraph.get_neighbours forest 7 = Ok row)
  ∧ (¬ registered forest 7 → Digraph.get_neighbours forest 7 = Ok []).
Proof. apply (get_neighbours_returns forest 7). apply reachable_forest. Defined.

(** X27. What [reset_graph_size] changes is whether a later [add_edge]
    has a defined result, never a value: a sequence of [get_neighbours],
    [size], [reset_graph_size] and query calls returns the same with and
    without a reserve before it, and a sequence with [add_edge] calls that
    returns both with and without the reserve returns the same. *)
Theorem reserve_changes_no_value (g : Digraph) (n : nat) (calls : list call)
    (responses1 responses2 : list response) :
  (forallb read_side calls = true →
   run (Digraph.reset_graph_size g n) calls = run g calls)
  ∧ (run (Digraph.reset_graph_size g n) calls = Ok responses1 →
     run g calls = Ok responses2 → responses1 = responses2).
Proof.
  assert (same_tables (Digraph.reset_graph_size g n) g) as Hs
    by (repeat split).
  split.
  - intros Hc. exact (run_read_side _ _ calls Hs Hc).
  - intros H1 H2. exact (run_same _ _ calls _ _ Hs H1 H2).
Qed.

Lemma reserve_changes_no_value_witness :
  let calls := [Add_edge 2 1; Get_neighbours 2; Size] in
  run (Digraph.reset_graph_size chain 8) calls = Ok [Done; Neighbours [1; 1]; Vertices 3]
  ∧ run chain calls = Ok [Done; Neighbours [1; 1]; Vertices 3]
  ∧ [Done; Neighbours [1; 1]; Vertices 3] = [Done; Neighbours [1; 1]; Vertices 3].
Proof.
  cbn zeta.
  assert (run (Digraph.reset_graph_size chain 8)
            [Add_edge 2 1; Get_neighbours 2; Size]
          = Ok [Done; Neighbours [1; 1]; Vertices 3]) as H1
    by (vm_compute; reflexivity).
  assert (run chain [Add_edge 2 1; Get_neighbours 2; Size]
          = Ok [Done; Neighbours [1; 1]; Vertices 3]) as H2
    by (vm_compute; reflexivity).
  split; [exact H1 |]. split; [exact H2 |].
  exact (proj2 (reserve_changes_no_value chain 8
                  [Add_edge 2 1; Get_neighbours 2; Size] _ _) H1 H2).
Defined.

(** X28. The constructor reserves one row for each synset record. Hypernym
    records that name more ids than that make [add_edge] move the rows:
    with one synset record and the hypernym record of 4 with the hypernym
    5, the constructor has no defined result. *)
Theorem WordNet_more_ids_than_synsets :
  WordNet_WordNet ["1,a,the only synset"]%string ["4,5"]%string = Undefined.
Proof. vm_compute. reflexivity. Qed.
